(** * Argos: a shallow embedding of the log-anomaly pipeline

    The Go packages [ingestor], [parser], [analyzer] (with its Bloom
    filter) and [alerter] are embedded as Rocq modules of the same names;
    the goroutine loops of the parser workers and the request handlers of
    the ingestor have modules of their own.  Go strings are byte sequences
    and are modelled by [string]; Go's [uint] and [int] are taken to be 64
    bits wide (a 64-bit platform), with the wrap-around written out on
    [Z].  What a goroutine observes of the channels, the clock, the
    scheduler and the operating system is given to it as an argument. *)

From Stdlib Require Import ZArith Ascii String Bool Lia.
From stdpp Require Import gmap strings list.

Local Open Scope Z_scope.

(** ** Go's [strings] package, as far as the parser uses it *)

Module GoStrings.

(** The table-driven Unicode paths of Go's library ([unicode.IsSpace] and
    [unicode.ToLower] over decoded runes) are taken as parameters: the
    functions below follow the library's ASCII fast paths and hand every
    string with a byte >= 0x80 to these. *)
Class UnicodeTables := {
  FieldsFunc_IsSpace : string -> list string;
  Map_ToLower : string -> string
}.

Definition byte (c : ascii) : Z := Z.of_N (N_of_ascii c).

Definition bytes (s : string) : list ascii := list_ascii_of_string s.

Definition of_bytes (l : list ascii) : string := string_of_list_ascii l.

(** [len(s)]: the number of bytes. *)
Definition len (s : string) : Z := Z.of_nat (String.length s).

(** utf8.RuneSelf = 0x80 *)
Definition isASCII (s : string) : bool :=
  forallb (fun c => byte c <? 128) (bytes s).

(** The [asciiSpace] table: tab, newline, vertical tab, form feed,
    carriage return and space. *)
Definition asciiSpace (c : ascii) : bool :=
  let b := byte c in
  (b =? 9) || (b =? 10) || (b =? 11) || (b =? 12) || (b =? 13) || (b =? 32).

(** The ASCII loop of [Fields]: [cur] is the field being read, reversed. *)
Fixpoint fieldsASCII (cur : list ascii) (s : list ascii) : list string :=
  match s with
  | [] => match cur with [] => [] | _ => [of_bytes (rev cur)] end
  | c :: s' =>
      if asciiSpace c
      then match cur with
           | [] => fieldsASCII [] s'
           | _ => of_bytes (rev cur) :: fieldsASCII [] s'
           end
      else fieldsASCII (c :: cur) s'
  end.

Definition Fields `{UnicodeTables} (s : string) : list string :=
  if isASCII s then fieldsASCII [] (bytes s) else FieldsFunc_IsSpace s.

Definition lowerByte (c : ascii) : ascii :=
  let b := byte c in
  if (65 <=? b) && (b <=? 90) then ascii_of_N (Z.to_N (b + 32)) else c.

Definition ToLower `{UnicodeTables} (s : string) : string :=
  if isASCII s then of_bytes (map lowerByte (bytes s)) else Map_ToLower s.

Definition inSet (cutset : string) (c : ascii) : bool :=
  existsb (Ascii.eqb c) (bytes cutset).

Fixpoint trimLeftASCII (cutset : string) (s : list ascii) : list ascii :=
  match s with
  | c :: s' => if inSet cutset c then trimLeftASCII cutset s' else s
  | [] => []
  end.

Definition trimRightASCII (cutset : string) (s : list ascii) : list ascii :=
  rev (trimLeftASCII cutset (rev s)).

(** [Trim] for a cutset of ASCII bytes (the parser's is [".,;:!?"]): the
    bytes of the cutset are removed from both ends. *)
Definition Trim (s cutset : string) : string :=
  of_bytes (trimLeftASCII cutset (trimRightASCII cutset (bytes s))).

Definition TrimRight (s cutset : string) : string :=
  of_bytes (trimRightASCII cutset (bytes s)).

End GoStrings.

(** ** Go's [regexp]: leftmost-first matching of the two parser patterns *)

Module GoRegexp.
Import GoStrings.

Inductive Regex : Type :=
| Eps
| Chr (c : ascii)
| Cls (p : ascii -> bool)
| Cat (r1 r2 : Regex)
| Alt (r1 r2 : Regex)
| WordB.

Fixpoint lit (l : list ascii) : Regex :=
  match l with
  | [] => Eps
  | c :: l' => Cat (Chr c) (lit l')
  end.

Fixpoint repExact (n : nat) (r : Regex) : Regex :=
  match n with
  | O => Eps
  | S n' => Cat r (repExact n' r)
  end.

(** greedy [r{0,n}] *)
Fixpoint repUpTo (n : nat) (r : Regex) : Regex :=
  match n with
  | O => Eps
  | S n' => Alt (Cat r (repUpTo n' r)) Eps
  end.

(** [r{lo,hi}], greedy *)
Definition Rep (lo hi : nat) (r : Regex) : Regex :=
  Cat (repExact lo r) (repUpTo (hi - lo) r).

Definition isDigit (c : ascii) : bool :=
  let b := byte c in (48 <=? b) && (b <=? 57).

(** the word characters of [\b]: [0-9A-Za-z_] *)
Definition isWord (c : ascii) : bool :=
  let b := byte c in
  ((48 <=? b) && (b <=? 57)) || ((65 <=? b) && (b <=? 90))
  || ((97 <=? b) && (b <=? 122)) || (b =? 95).

Definition wordBefore (prev : option ascii) : bool :=
  match prev with Some c => isWord c | None => false end.

Definition wordAfter (s : list ascii) : bool :=
  match s with c :: _ => isWord c | [] => false end.

(** A backtracking matcher in continuation-passing style: [prev] is the
    byte before the current position, [s] the input from it, and [k]
    receives the position after the match and answers with the input left
    after the whole match. The first alternative that leads to a match
    wins. *)
Fixpoint rmatch (r : Regex) (prev : option ascii) (s : list ascii)
    (k : option ascii -> list ascii -> option (list ascii))
    : option (list ascii) :=
  match r with
  | Eps => k prev s
  | Chr c =>
      match s with
      | c' :: s' => if Ascii.eqb c c' then k (Some c') s' else None
      | [] => None
      end
  | Cls p =>
      match s with
      | c' :: s' => if p c' then k (Some c') s' else None
      | [] => None
      end
  | Cat r1 r2 => rmatch r1 prev s (fun prev' s' => rmatch r2 prev' s' k)
  | Alt r1 r2 =>
      match rmatch r1 prev s k with
      | Some rest => Some rest
      | None => rmatch r2 prev s k
      end
  | WordB => if xorb (wordBefore prev) (wordAfter s) then k prev s else None
  end.

Definition matchAt (r : Regex) (prev : option ascii) (s : list ascii)
    : option (list ascii) :=
  match rmatch r prev s (fun _ rest => Some rest) with
  | Some rest => Some (take (length s - length rest)%nat s)
  | None => None
  end.

(** the leftmost start position that admits a match *)
Fixpoint findFrom (r : Regex) (prev : option ascii) (s : list ascii)
    : option (list ascii) :=
  match matchAt r prev s with
  | Some m => Some m
  | None =>
      match s with
      | [] => None
      | c :: s' => findFrom r (Some c) s'
      end
  end.

(** [FindString]: the text of the leftmost match, or [""] when there is
    none. *)
Definition FindString (r : Regex) (s : string) : string :=
  match findFrom r None (bytes s) with
  | Some m => of_bytes m
  | None => ""
  end.

End GoRegexp.

(** ** package ingestor: the wire record and the start-up path *)

Module ingestor.

Record LogEntry := {
  Timestamp : string;
  Level : string;
  Source : string;
  Message : string
}.

(** Go's [error] results: [None] is [nil]. *)
Definition error : Type := option string.

(** What the operating system answers when each listener is opened:
    [None] when the port is bound, the error otherwise. *)
Record Ports := {
  listenHTTP : error;
  listenTCP : error
}.

(** The goroutines [Start] launches with [go]. *)
Inductive Goroutine : Type :=
| HTTPServer
| TCPServer.

Definition Goroutine_eqb (g g' : Goroutine) : bool :=
  match g, g' with
  | HTTPServer, HTTPServer | TCPServer, TCPServer => true
  | _, _ => false
  end.

(** The ingestor with the part of the process state its start-up touches:
    the wait-group counter, the goroutines launched that have not yet
    reached their listener, the lines written with [log], and which
    surfaces accept connections. *)
Record Ingestor := {
  httpPort : string;
  tcpPort : string;
  wg : Z;
  launched : list Goroutine;
  logged : list string;
  httpAccepting : bool;
  tcpAccepting : bool
}.

Definition NewIngestor (httpPort tcpPort : string) : Ingestor :=
  {| httpPort := httpPort; tcpPort := tcpPort; wg := 0; launched := [];
     logged := []; httpAccepting := false; tcpAccepting := false |}.

Definition go (g : Goroutine) (i : Ingestor) : Ingestor :=
  {| httpPort := httpPort i; tcpPort := tcpPort i; wg := wg i;
     launched := launched i ++ [g]; logged := logged i;
     httpAccepting := httpAccepting i; tcpAccepting := tcpAccepting i |}.

(** [Start], statement by statement: the effect of statement [pc]
    ([wg.Add(2)], the two [go] statements, the log line, [return nil]) and
    the result when it is the [return]. The goroutines already launched
    run concurrently with the statements that follow their [go]. *)
Definition Start (pc : nat) (i : Ingestor) : Ingestor * option error :=
  match pc with
  | 0%nat =>
      ({| httpPort := httpPort i; tcpPort := tcpPort i; wg := wg i + 2;
          launched := launched i; logged := logged i;
          httpAccepting := httpAccepting i;
          tcpAccepting := tcpAccepting i |}, None)
  | 1%nat => (go HTTPServer i, None)
  | 2%nat => (go TCPServer i, None)
  | 3%nat =>
      ({| httpPort := httpPort i; tcpPort := tcpPort i; wg := wg i;
          launched := launched i;
          logged := logged i
                    ++ ["Ingestor started on HTTP: " +:+ httpPort i
                        +:+ " and TCP: " +:+ tcpPort i];
          httpAccepting := httpAccepting i;
          tcpAccepting := tcpAccepting i |}, None)
  | _ => (i, Some None)
  end.

(** [startHTTPServer] up to the point where [ListenAndServe] either
    serves or returns the bind error, which is logged; the deferred
    [wg.Done()] runs on return. *)
Definition startHTTPServer (os : Ports) (i : Ingestor) : Ingestor :=
  match listenHTTP os with
  | None =>
      {| httpPort := httpPort i; tcpPort := tcpPort i; wg := wg i;
         launched := launched i; logged := logged i;
         httpAccepting := true; tcpAccepting := tcpAccepting i |}
  | Some err =>
      {| httpPort := httpPort i; tcpPort := tcpPort i; wg := wg i - 1;
         launched := launched i;
         logged := logged i ++ ["HTTP server error: " +:+ err];
         httpAccepting := httpAccepting i;
         tcpAccepting := tcpAccepting i |}
  end.

(** [startTCPServer] up to its accept loop: when [net.Listen] fails the
    error is logged and the goroutine returns. *)
Definition startTCPServer (os : Ports) (i : Ingestor) : Ingestor :=
  match listenTCP os with
  | None =>
      {| httpPort := httpPort i; tcpPort := tcpPort i; wg := wg i;
         launched := launched i; logged := logged i;
         httpAccepting := httpAccepting i; tcpAccepting := true |}
  | Some err =>
      {| httpPort := httpPort i; tcpPort := tcpPort i; wg := wg i - 1;
         launched := launched i;
         logged := logged i ++ ["TCP server error: " +:+ err];
         httpAccepting := httpAccepting i;
         tcpAccepting := tcpAccepting i |}
  end.

(** A launched goroutine runs up to its listener, and is no longer
    pending; a goroutine that is not pending does nothing. *)
Definition runGoroutine (os : Ports) (i : Ingestor) (g : Goroutine)
    : Ingestor :=
  if existsb (Goroutine_eqb g) (launched i)
  then
    let i' :=
      {| httpPort := httpPort i; tcpPort := tcpPort i; wg := wg i;
         launched :=
           List.filter (fun g' => negb (Goroutine_eqb g g')) (launched i);
         logged := logged i; httpAccepting := httpAccepting i;
         tcpAccepting := tcpAccepting i |} in
    match g with
    | HTTPServer => startHTTPServer os i'
    | TCPServer => startTCPServer os i'
    end
  else i.

(** The threads of control during start-up: the caller of [Start] and the
    goroutines. *)
Inductive Thread : Type :=
| Caller
| Go (g : Goroutine).

(** The process during start-up: the state, the number of statements of
    [Start] executed, and what [Start] has returned ([None] while it has
    not). *)
Record Process := {
  state : Ingestor;
  pc : nat;
  result : option error
}.

Definition boot (i : Ingestor) : Process :=
  {| state := i; pc := 0; result := None |}.

(** One step of the thread the scheduler picks. *)
Definition step (os : Ports) (p : Process) (t : Thread) : Process :=
  match t with
  | Caller =>
      match result p with
      | Some _ => p
      | None =>
          let '(i, r) := Start (pc p) (state p) in
          {| state := i; pc := S (pc p); result := r |}
      end
  | Go g =>
      {| state := runGoroutine os (state p) g; pc := pc p;
         result := result p |}
  end.

(** The process after the scheduler's choices [sched], any interleaving of
    the caller and the goroutines. *)
Definition exec (os : Ports) (sched : list Thread) (p : Process) : Process :=
  fold_left (step os) sched p.

End ingestor.

(** ** package parser *)

Module parser.
Import GoStrings GoRegexp.

Record ParsedLog := {
  Timestamp : string;
  Level : string;
  Source : string;
  Message : string;
  IP : string;
  ErrorCode : string;
  Keywords : list string
}.

Definition set_IP (ip : string) (p : ParsedLog) : ParsedLog :=
  {| Timestamp := Timestamp p; Level := Level p; Source := Source p;
     Message := Message p; IP := ip; ErrorCode := ErrorCode p;
     Keywords := Keywords p |}.

Definition set_ErrorCode (e : string) (p : ParsedLog) : ParsedLog :=
  {| Timestamp := Timestamp p; Level := Level p; Source := Source p;
     Message := Message p; IP := IP p; ErrorCode := e;
     Keywords := Keywords p |}.

Definition set_Keywords (ks : list string) (p : ParsedLog) : ParsedLog :=
  {| Timestamp := Timestamp p; Level := Level p; Source := Source p;
     Message := Message p; IP := IP p; ErrorCode := ErrorCode p;
     Keywords := ks |}.

(** [\b(?:\d{1,3}\.){3}\d{1,3}\b] *)
Definition ipRegex : Regex :=
  Cat WordB
    (Cat (repExact 3 (Cat (Rep 1 3 (Cls isDigit)) (Chr ".")))
       (Cat (Rep 1 3 (Cls isDigit)) WordB)).

Definition is45 (c : ascii) : bool :=
  Ascii.eqb c "4" || Ascii.eqb c "5".

(** [\b(?:ERROR|FATAL|CRITICAL|[45]\d{2})\b] *)
Definition errorRegex : Regex :=
  Cat WordB
    (Cat (Alt (lit (bytes "ERROR"))
            (Alt (lit (bytes "FATAL"))
               (Alt (lit (bytes "CRITICAL"))
                  (Cat (Cls is45) (Rep 2 2 (Cls isDigit))))))
       WordB).

Definition cutset : string := ".,;:!?".

(** the body of the keyword loop *)
Definition addKeyword `{UnicodeTables} (parsed : ParsedLog) (word : string)
    : ParsedLog :=
  let word := ToLower (Trim word cutset) in
  if 3 <? len word
  then set_Keywords (Keywords parsed ++ [word]) parsed
  else parsed.

Definition parse `{UnicodeTables} (entry : ingestor.LogEntry) : ParsedLog :=
  let parsed :=
    {| Timestamp := ingestor.Timestamp entry;
       Level := ingestor.Level entry;
       Source := ingestor.Source entry;
       Message := ingestor.Message entry;
       IP := ""; ErrorCode := "";
       Keywords := [] |} in
  let ip := FindString ipRegex (ingestor.Message entry) in
  let parsed := if String.eqb ip "" then parsed else set_IP ip parsed in
  let errCode := FindString errorRegex (ingestor.Message entry) in
  let parsed :=
    if String.eqb errCode "" then parsed else set_ErrorCode errCode parsed in
  let words := Fields (ingestor.Message entry) in
  fold_left addKeyword words parsed.

End parser.

(** ** package analyzer: the Bloom filter and the rule engine *)

Module analyzer.
Import GoStrings.

(** *** bloomfilter.go *)

Definition uint64 (z : Z) : Z := z mod 2 ^ 64.

(** hash/fnv, the 64-bit FNV-1a state: offset basis and prime *)
Definition offset64 : Z := 14695981039346656037.
Definition prime64 : Z := 1099511628211.

(** [h.Write(data)]: xor each byte in, then multiply *)
Definition fnvWrite (h : Z) (data : list ascii) : Z :=
  fold_left (fun h c => uint64 (Z.lxor h (byte c) * prime64)) data h.

Record BloomFilter := {
  bits : list bool;
  size : Z;
  hashCount : Z
}.

Definition NewBloomFilter (size hashCount : Z) : BloomFilter :=
  {| bits := replicate (Z.to_nat size) false;
     size := size; hashCount := hashCount |}.

(** [byte(seed)] keeps the low eight bits of the seed. *)
Definition hash (item : string) (seed : Z) : Z :=
  let h := fnvWrite offset64 (bytes item) in
  fnvWrite h [ascii_of_N (Z.to_N (seed mod 256))].

(** [hash%bf.size]; [None] is the run-time panic of a division by zero. *)
Definition slot (bf : BloomFilter) (h : Z) : option nat :=
  if size bf =? 0 then None else Some (Z.to_nat (h mod size bf)).

(** [bf.bits[i] = true]; [None] is the panic of an index out of range. *)
Definition setBit (bf : BloomFilter) (i : nat) : option BloomFilter :=
  if decide (i < length (bits bf))%nat
  then Some {| bits := <[i := true]> (bits bf);
               size := size bf; hashCount := hashCount bf |}
  else None.

Fixpoint addLoop (seeds : list Z) (item : string) (bf : BloomFilter)
    : option BloomFilter :=
  match seeds with
  | [] => Some bf
  | i :: rest =>
      k ← slot bf (hash item i);
      bf' ← setBit bf k;
      addLoop rest item bf'
  end.

Definition Add (bf : BloomFilter) (item : string) : option BloomFilter :=
  addLoop (seqZ 0 (hashCount bf)) item bf.

Fixpoint containsLoop (seeds : list Z) (item : string) (bf : BloomFilter)
    : option bool :=
  match seeds with
  | [] => Some true
  | i :: rest =>
      k ← slot bf (hash item i);
      match bits bf !! k with
      | Some true => containsLoop rest item bf
      | Some false => Some false
      | None => None
      end
  end.

Definition Contains (bf : BloomFilter) (item : string) : option bool :=
  containsLoop (seqZ 0 (hashCount bf)) item bf.

Definition Clear (bf : BloomFilter) : BloomFilter :=
  {| bits := fold_left (fun b i => <[i := false]> b)
               (seq 0 (length (bits bf))) (bits bf);
     size := size bf; hashCount := hashCount bf |}.

(** *** analyzer.go *)

Inductive MetaValue : Type :=
| MBool (b : bool)
| MInt (n : Z)
| MString (s : string).

Module Alert.
Record t := {
  Timestamp : string;
  Severity : string;
  Reason : string;
  Log : parser.ParsedLog;
  Metadata : gmap string MetaValue
}.
End Alert.

Module Rule.
Record t := {
  Name : string;
  Check : parser.ParsedLog -> bool;
  Severity : string
}.
End Rule.

(** The channels, the wait group and the mutex are not part of the state:
    what the evaluation loop observes of them is given by [Obs] below. *)
Record Analyzer := {
  rules : list Rule.t;
  bloomFilter : BloomFilter;
  windowCount : gmap string Z
}.

Definition suspiciousWords : list string :=
  ["attack"; "breach"; "unauthorized"; "exploit"; "malicious"].

Definition firstByteIs (c : ascii) (s : string) : bool :=
  match s with
  | String c' _ => Ascii.eqb c' c
  | EmptyString => false
  end.

Definition defaultRules : list Rule.t :=
  [ {| Rule.Name := "Critical Error Level";
       Rule.Check := fun log =>
         String.eqb (parser.Level log) "CRITICAL"
         || String.eqb (parser.Level log) "FATAL";
       Rule.Severity := "HIGH" |};
    {| Rule.Name := "Error Code 5xx";
       Rule.Check := fun log =>
         (0 <? len (parser.ErrorCode log))
         && firstByteIs "5" (parser.ErrorCode log);
       Rule.Severity := "HIGH" |};
    {| Rule.Name := "Suspicious Keywords";
       Rule.Check := fun log =>
         existsb (fun kw => existsb (fun sw => String.eqb kw sw)
                              suspiciousWords)
           (parser.Keywords log);
       Rule.Severity := "MEDIUM" |};
    {| Rule.Name := "Error Rate Threshold";
       Rule.Check := fun log => String.eqb (parser.Level log) "ERROR";
       Rule.Severity := "MEDIUM" |} ].

Definition NewAnalyzer : Analyzer :=
  {| rules := defaultRules;
     bloomFilter := NewBloomFilter 100000 3;
     windowCount := ∅ |}.

(** Go's [int]: 64 bits, two's complement. *)
Definition wrapInt (z : Z) : Z := (z + 2 ^ 63) mod 2 ^ 64 - 2 ^ 63.

(** [m[key]++; count := m[key]]: a missing key reads as zero. *)
Definition increment (m : gmap string Z) (key : string)
    : gmap string Z * Z :=
  let m' := <[key := wrapInt (default 0 (m !! key) + 1)]> m in
  (m', default 0 (m' !! key)).

(** The critical section of [cleanupWindow] on a tick: a new, empty map. *)
Definition cleanupWindow (a : Analyzer) : Analyzer :=
  {| rules := rules a; bloomFilter := bloomFilter a; windowCount := ∅ |}.

(** The outcome of [select { case alertChan <- alert: case <-shutdown: }]. *)
Inductive Select : Type := Sent | Shutdown.

(** What one iteration of the rule loop observes of its environment when
    its rule fires: the clock, whether the ticker goroutine ran its
    critical section since the previous iteration took [windowMutex], and
    the outcome of the final [select]. *)
Record Obs := {
  obsNow : string;
  obsReset : bool;
  obsSelect : Select
}.

(** The visible trace of the analyzer. *)
Inductive Item : Type :=
| Reset
| Emit (al : Alert.t) (s : Select).

Definition key (name source : string) : string :=
  name +:+ ":" +:+ source.

(** The body of [if rule.Check(logEntry) { ... }] up to the [select]. *)
Definition fire (a : Analyzer) (rule : Rule.t) (logEntry : parser.ParsedLog)
    (now : string) : option (Analyzer * Alert.t) :=
  let bloomKey := key (Rule.Name rule) (parser.Source logEntry) in
  isKnownPattern ← Contains (bloomFilter a) bloomKey;
  bf ← Add (bloomFilter a) bloomKey;
  let countKey := key (Rule.Name rule) (parser.Source logEntry) in
  let '(wc, count) := increment (windowCount a) countKey in
  let alert :=
    {| Alert.Timestamp := now;
       Alert.Severity := Rule.Severity rule;
       Alert.Reason := Rule.Name rule;
       Alert.Log := logEntry;
       Alert.Metadata :=
         <["is_known_pattern" := MBool isKnownPattern]>
           (<["count_in_window" := MInt count]>
              (<["rule_name" := MString (Rule.Name rule)]> ∅)) |} in
  Some ({| rules := rules a; bloomFilter := bf; windowCount := wc |}, alert).

(** The ticker goroutine only replaces [windowCount], under [windowMutex],
    and an iteration reads [windowCount] only in its own critical section:
    a tick that falls anywhere between two critical sections of the rule
    loop acts as if it fell right before the second. *)
Definition tickBefore (o : Obs) (a : Analyzer) : Analyzer * list Item :=
  if obsReset o then (cleanupWindow a, [Reset]) else (a, []).

(** The loop of [processLog] over the rules from position [i] on. *)
Fixpoint processRules (rs : list Rule.t) (i : nat) (a : Analyzer)
    (logEntry : parser.ParsedLog) (env : nat -> Obs)
    : option (Analyzer * list Item) :=
  match rs with
  | [] => Some (a, [])
  | rule :: rest =>
      if Rule.Check rule logEntry
      then
        let o := env i in
        let '(a0, pre) := tickBefore o a in
        '(a1, alert) ← fire a0 rule logEntry (obsNow o);
        match obsSelect o with
        | Sent =>
            '(a2, tr) ← processRules rest (S i) a1 logEntry env;
            Some (a2, pre ++ Emit alert Sent :: tr)
        | Shutdown => Some (a1, pre ++ [Emit alert Shutdown])
        end
      else processRules rest (S i) a logEntry env
  end.

Definition processLog (a : Analyzer) (logEntry : parser.ParsedLog)
    (env : nat -> Obs) : option (Analyzer * list Item) :=
  processRules (rules a) 0 a logEntry env.

(** What the two goroutines of [Start] do, in the order in which they take
    effect: [analyze] receives a record and processes it, or the ticker of
    [cleanupWindow] fires between two records. *)
Inductive Event : Type :=
| Recv (logEntry : parser.ParsedLog) (env : nat -> Obs)
| Tick.

Fixpoint run (a : Analyzer) (evs : list Event)
    : option (Analyzer * list Item) :=
  match evs with
  | [] => Some (a, [])
  | Recv logEntry env :: evs' =>
      '(a1, tr1) ← processLog a logEntry env;
      '(a2, tr2) ← run a1 evs';
      Some (a2, tr1 ++ tr2)
  | Tick :: evs' =>
      '(a2, tr2) ← run (cleanupWindow a) evs';
      Some (a2, Reset :: tr2)
  end.

(** The alerts enqueued onto the alert channel, in order. *)
Fixpoint enqueued (tr : list Item) : list Alert.t :=
  match tr with
  | [] => []
  | Emit al Sent :: tr' => al :: enqueued tr'
  | _ :: tr' => enqueued tr'
  end.

End analyzer.

(** ** The goroutine loops of the pipeline *)

(** *** parser.go: [worker] *)

Module parser_worker.
Import GoStrings analyzer.

(** What one iteration of the loop of [worker] observes: the outer [select]
    receives an entry, and the inner one then sends the record or observes
    the shutdown; or the outer one finds the input channel closed, or
    observes the shutdown. *)
Inductive Turn : Type :=
| Received (entry : ingestor.LogEntry) (s : Select)
| Closed
| Stopped.

(** [worker] over the turns it is given: the records sent on the output
    channel, in order, and whether it has returned (running the deferred
    [wg.Done()]) or still waits in its [select]. *)
Fixpoint worker `{UnicodeTables} (turns : list Turn)
    : list parser.ParsedLog * bool :=
  match turns with
  | [] => ([], false)
  | Received entry s :: rest =>
      let parsed := parser.parse entry in
      match s with
      | Sent => let '(out, returned) := worker rest in
                (parsed :: out, returned)
      | Shutdown => ([], true)
      end
  | Closed :: _ => ([], true)
  | Stopped :: _ => ([], true)
  end.

End parser_worker.

(** *** ingestor.go: the two request handlers *)

Module ingestor_handlers.
Import ingestor analyzer.

Definition nl : string := String "010" EmptyString.






(** The loop of [handleTCPConnection] over the lines [scanner.Scan()]
    yields, each with the outcome its [select] would have: the entries put
    on the log channel, the lines logged, and whether the loop was left
    through the shutdown case. *)
Fixpoint scanLoop (Unmarshal : string -> LogEntry + string)
    (lines : list (string * Select)) : list LogEntry * list string * bool :=
  match lines with
  | [] => ([], [], false)
  | (line, sel) :: rest =>
      match Unmarshal line with
      | inr err =>
          let '(sent, logged, stopped) := scanLoop Unmarshal rest in
          (sent, ("TCP JSON parse error: " +:+ err) :: logged, stopped)
      | inl entry =>
          match sel with
          | Sent =>
              let '(sent, logged, stopped) := scanLoop Unmarshal rest in
              (entry :: sent, logged, stopped)
          | Shutdown => ([], [], true)
          end
      end
  end.


End ingestor_handlers.

(** ** package alerter *)

Module alerter.
Import analyzer.

Definition nl : string := String "010" EmptyString.

Definition error : Type := option string.

(** The alerter with the part of the process state it touches: the
    [Write] calls issued on the open file ([None] when [file] is nil),
    what was printed on the standard output, the lines written with
    [log], the wait-group counter and the goroutines launched. *)
Record Alerter := {
  outputFile : string;
  file : option (list string);
  stdout : list string;
  logged : list string;
  wg : Z;
  launched : nat
}.

Definition NewAlerter (outputFile : string) : Alerter :=
  {| outputFile := outputFile; file := None; stdout := []; logged := [];
     wg := 0; launched := 0 |}.

(** [Start], given what [os.OpenFile] answers for a path: [None] when the
    file is opened. *)
Definition Start (OpenFile : string -> error) (a : Alerter)
    : Alerter * error :=
  let launch (f : option (list string)) :=
    ({| outputFile := outputFile a; file := f; stdout := stdout a;
        logged := logged a ++ ["Alerter started"];
        wg := wg a + 1; launched := S (launched a) |}, None) in
  if String.eqb (outputFile a) "" then launch (file a)
  else
    match OpenFile (outputFile a) with
    | Some err =>
        ({| outputFile := outputFile a; file := None; stdout := stdout a;
            logged := logged a; wg := wg a; launched := launched a |},
         Some ("failed to open output file: " +:+ err))
    | None => launch (Some [])
    end.

Fixpoint Repeat (s : string) (count : nat) : string :=
  match count with
  | O => ""
  | S n => s +:+ Repeat s n
  end.

(** [outputAlert], given [json.MarshalIndent] on alerts. *)
Definition outputAlert (MarshalIndent : Alert.t -> string + string)
    (a : Alerter) (alert : Alert.t) : Alerter :=
  match MarshalIndent alert with
  | inr err =>
      {| outputFile := outputFile a; file := file a; stdout := stdout a;
         logged := logged a ++ ["Failed to marshal alert: " +:+ err];
         wg := wg a; launched := launched a |}
  | inl alertJSON =>
      {| outputFile := outputFile a;
         file := match file a with
                 | Some writes => Some (writes ++ [alertJSON; nl])
                 | None => None
                 end;
         stdout := stdout a
                   ++ [nl +:+ "🚨 ALERT: " +:+ Alert.Reason alert
                       +:+ " (Severity: " +:+ Alert.Severity alert +:+ ")"
                       +:+ nl;
                       alertJSON +:+ nl;
                       Repeat "-" 80 +:+ nl];
         logged := logged a; wg := wg a; launched := launched a |}
  end.

(** What one iteration of [processAlerts] observes. *)
Inductive Turn : Type :=
| Received (alert : Alert.t)
| Closed
| Stopped.

(** [processAlerts] over the turns it is given; the flag tells whether it
    has returned, running the deferred [wg.Done()]. *)
Fixpoint processAlerts (MarshalIndent : Alert.t -> string + string)
    (turns : list Turn) (a : Alerter) : Alerter * bool :=
  match turns with
  | [] => (a, false)
  | Received alert :: rest =>
      processAlerts MarshalIndent rest (outputAlert MarshalIndent a alert)
  | Closed :: _ | Stopped :: _ =>
      ({| outputFile := outputFile a; file := file a; stdout := stdout a;
          logged := logged a; wg := wg a - 1; launched := launched a |},
       true)
  end.

End alerter.

(** * Definitions used to state the properties *)

Module parser_spec.
Import GoStrings GoRegexp parser.

(** The keyword list as the specification words it: split on whitespace,
    lowercase, strip the trailing punctuation, keep the tokens longer
    than three bytes. *)
Definition keywordsSpec `{UnicodeTables} (message : string) : list string :=
  List.filter (fun w => 3 <? len w)
    (map (fun tok => TrimRight (ToLower tok) cutset) (Fields message)).

(** The same with the punctuation removed at both ends of the token, as
    [strings.Trim] does, before lowercasing. *)
Definition keywordsTrim `{UnicodeTables} (message : string) : list string :=
  List.filter (fun w => 3 <? len w)
    (map (fun tok => ToLower (Trim tok cutset)) (Fields message)).

(** The specification's order of the two steps, lowercase and then remove
    the punctuation, with the removal at both ends. *)
Definition keywordsLowerTrim `{UnicodeTables} (message : string)
    : list string :=
  List.filter (fun w => 3 <? len w)
    (map (fun tok => Trim (ToLower tok) cutset) (Fields message)).

(** An ASCII-only stand-in for the Unicode tables, used where a concrete
    instance is needed. *)
Definition asciiTables : UnicodeTables :=
  {| FieldsFunc_IsSpace := fun s => fieldsASCII [] (bytes s);
     Map_ToLower := fun s => of_bytes (map lowerByte (bytes s)) |}.

Definition entry (level source message : string) : ingestor.LogEntry :=
  {| ingestor.Timestamp := "2024-01-15T10:30:00Z";
     ingestor.Level := level;
     ingestor.Source := source;
     ingestor.Message := message |}.

End parser_spec.

Module bloom_spec.
Import GoStrings analyzer.

(** The filter as [NewBloomFilter] builds it: one bit per slot. *)
Definition wellFormed (bf : BloomFilter) : Prop :=
  0 < size bf /\ length (bits bf) = Z.to_nat (size bf).

(** A later state of the filter, reached by adding further items. *)
Fixpoint addAll (bf : BloomFilter) (items : list string)
    : option BloomFilter :=
  match items with
  | [] => Some bf
  | y :: items' => bf' ← Add bf y; addAll bf' items'
  end.

(** Bit [n] is one of the slots of [item] for the given seeds. *)
Definition hits (bf : BloomFilter) (item : string) (seeds : list Z)
    (n : nat) : Prop :=
  exists i, i ∈ seeds /\ slot bf (hash item i) = Some n.

End bloom_spec.

Module analyzer_spec.
Import GoStrings analyzer bloom_spec parser_spec.

(** The key under which an alert was counted: its rule and its source. *)
Definition alertKey (al : Alert.t) : string :=
  key (Alert.Reason al) (parser.Source (Alert.Log al)).

Definition isKnownPattern (al : Alert.t) : option MetaValue :=
  Alert.Metadata al !! "is_known_pattern".

Definition countInWindow (al : Alert.t) : option MetaValue :=
  Alert.Metadata al !! "count_in_window".

Definition ruleName (al : Alert.t) : option MetaValue :=
  Alert.Metadata al !! "rule_name".

(** The alerts of a trace that were counted under key [K]. *)
Fixpoint alertsFor (K : string) (tr : list Item) : list Alert.t :=
  match tr with
  | [] => []
  | Emit al _ :: tr' =>
      if String.eqb (alertKey al) K then al :: alertsFor K tr'
      else alertsFor K tr'
  | Reset :: tr' => alertsFor K tr'
  end.

(** Bit position [i] of an item in the analyzer's filter of 100000 bits. *)
Definition bitOf (item : string) (i : Z) : nat :=
  Z.to_nat (hash item i mod 100000).

Definition wfAnalyzer (a : Analyzer) : Prop := wellFormed (bloomFilter a).

(** The analyzer state along a trace: every [Emit] is one firing of some
    rule on the state before it, every [Reset] one tick of the ticker. *)
Inductive follows : Analyzer -> list Item -> Analyzer -> Prop :=
| follows_nil (a : Analyzer) : follows a [] a
| follows_reset (a a' : Analyzer) (tr : list Item) :
    follows (cleanupWindow a) tr a' -> follows a (Reset :: tr) a'
| follows_emit (a a1 a' : Analyzer) (rule : Rule.t)
    (logEntry : parser.ParsedLog) (now : string) (al : Alert.t) (s : Select)
    (tr : list Item) :
    fire a rule logEntry now = Some (a1, al) ->
    follows a1 tr a' -> follows a (Emit al s :: tr) a'.

(** An environment in which every send succeeds and no tick interleaves. *)
Definition quiet (now : string) : nat -> Obs :=
  fun _ => {| obsNow := now; obsReset := false; obsSelect := Sent |}.

(** What a trace shows of each alert: key, known-pattern flag, count and
    the outcome of the send. *)
Definition summary (tr : list Item)
    : list (option (string * option MetaValue * option MetaValue * Select)) :=
  map (fun it => match it with
                 | Emit al s =>
                     Some (alertKey al, isKnownPattern al, countInWindow al, s)
                 | Reset => None
                 end) tr.

Definition summaryOf (r : option (Analyzer * list Item)) :=
  match r with
  | Some (_, tr) => Some (summary tr)
  | None => None
  end.

Definition parsed (level source message : string) : parser.ParsedLog :=
  @parser.parse asciiTables (entry level source message).

(** Two CRITICAL records from the sources ["web-23844"] and ["db"]: the
    keys of their alerts fall on the same three bits of the filter. *)
Definition colliding : list Event :=
  [ Recv (parsed "CRITICAL" "web-23844" "disk failure") (quiet "t1");
    Recv (parsed "CRITICAL" "db" "disk failure") (quiet "t2") ].

(** Two CRITICAL records from the same source. *)
Definition repeated : list Event :=
  [ Recv (parsed "CRITICAL" "api" "disk failure") (quiet "t1");
    Recv (parsed "CRITICAL" "api" "disk failure") (quiet "t2") ].

(** Two records of one source, a tick of the window ticker, and a third
    record of that source. *)
Definition windowed : list Event :=
  [ Recv (parsed "CRITICAL" "api" "disk failure") (quiet "t1");
    Recv (parsed "CRITICAL" "api" "disk failure") (quiet "t2");
    Tick;
    Recv (parsed "CRITICAL" "api" "disk failure") (quiet "t3") ].

(** The record of scenario S1. *)
Definition scenario : ingestor.LogEntry :=
  {| ingestor.Timestamp := "2024-01-15T10:30:00Z";
     ingestor.Level := "FATAL";
     ingestor.Source := "db";
     ingestor.Message := "Security breach from 10.0.0.1" |}.

Definition scenarioParsed : parser.ParsedLog :=
  {| parser.Timestamp := "2024-01-15T10:30:00Z";
     parser.Level := "FATAL";
     parser.Source := "db";
     parser.Message := "Security breach from 10.0.0.1";
     parser.IP := "10.0.0.1";
     parser.ErrorCode := "";
     parser.Keywords := ["security"; "breach"; "from"; "10.0.0.1"] |}.

(** The environment of a record on which only the first and the third rule
    fire, with both sends successful. *)
Definition twoObs (n0 : string) (r0 : bool) (n2 : string) (r2 : bool)
    : nat -> Obs :=
  fun j => match j with
           | O => {| obsNow := n0; obsReset := r0; obsSelect := Sent |}
           | _ => {| obsNow := n2; obsReset := r2; obsSelect := Sent |}
           end.

(** What the alerter receives of each alert, the clock apart. *)
Definition detail (r : option (Analyzer * list Item)) :=
  match r with
  | Some (_, tr) =>
      Some (map (fun al => (Alert.Reason al, Alert.Severity al, Alert.Log al,
                            isKnownPattern al, countInWindow al))
              (enqueued tr))
  | None => None
  end.

(** The first send succeeds, the send of the third rule observes the
    shutdown. *)
Definition shutdownAtThird : nat -> Obs :=
  fun j => match j with
           | 2%nat => {| obsNow := "t2"; obsReset := false;
                         obsSelect := Shutdown |}
           | _ => {| obsNow := "t0"; obsReset := false; obsSelect := Sent |}
           end.

(** The send of every firing rule observes the shutdown. *)
Definition closing (now : string) : nat -> Obs :=
  fun _ => {| obsNow := now; obsReset := false; obsSelect := Shutdown |}.

(** Four CRITICAL records of one source while the shutdown channel is
    closed: the sends of the first and the third alert observe the
    shutdown, those of the second and the fourth succeed. *)
Definition interrupted : list Event :=
  [ Recv (parsed "CRITICAL" "api" "disk failure") (closing "t1");
    Recv (parsed "CRITICAL" "api" "disk failure") (quiet "t2");
    Recv (parsed "CRITICAL" "api" "disk failure") (closing "t3");
    Recv (parsed "CRITICAL" "api" "disk failure") (quiet "t4") ].

(** The alerts of a trace enqueued for key [K]. *)
Definition enqueuedFor (K : string) (tr : list Item) : list Alert.t :=
  List.filter (fun al => String.eqb (alertKey al) K) (enqueued tr).

Definition noRule : Rule.t :=
  {| Rule.Name := ""; Rule.Check := fun _ => false; Rule.Severity := "" |}.

End analyzer_spec.

Module ingestor_spec.
Import ingestor.

Definition isNil (e : error) : bool :=
  match e with None => true | Some _ => false end.

(** The number of steps a schedule gives to the caller of [Start]. *)
Fixpoint callerSteps (sched : list Thread) : nat :=
  match sched with
  | [] => 0
  | Caller :: rest => S (callerSteps rest)
  | Go _ :: rest => callerSteps rest
  end.

(** Port 9090 is in use by another process. *)
Definition portTaken : Ports :=
  {| listenHTTP := None;
     listenTCP := Some "listen tcp :9090: bind: address already in use" |}.

(** The states reached during start-up: [n] statements of [Start]
    executed, the goroutines having reached their listeners ([hran],
    [tran]) or not, and the lines logged so far. *)
Definition reached (os : Ports) (httpPort tcpPort : string) (n : nat)
    (hran tran : bool) (log : list string) : Process :=
  {| state :=
       {| ingestor.httpPort := httpPort; ingestor.tcpPort := tcpPort;
          wg := (if (1 <=? n)%nat then 2 else 0)
                - (if hran && negb (isNil (listenHTTP os)) then 1 else 0)
                - (if tran && negb (isNil (listenTCP os)) then 1 else 0);
          launched :=
            (if (2 <=? n)%nat && negb hran then [HTTPServer] else [])
            ++ (if (3 <=? n)%nat && negb tran then [TCPServer] else []);
          logged := log;
          httpAccepting := hran && isNil (listenHTTP os);
          tcpAccepting := tran && isNil (listenTCP os) |};
     pc := n;
     result := if (n <? 5)%nat then None else Some None |}.

Definition startedLine (httpPort tcpPort : string) : string :=
  "Ingestor started on HTTP: " +:+ httpPort +:+ " and TCP: " +:+ tcpPort.

(** The lines the log must hold in such a state. *)
Definition logHolds (os : Ports) (httpPort tcpPort : string) (n : nat)
    (hran tran : bool) (log : list string) : Prop :=
  (hran = true -> forall err, listenHTTP os = Some err ->
     "HTTP server error: " +:+ err ∈ log)
  /\ (tran = true -> forall err, listenTCP os = Some err ->
        "TCP server error: " +:+ err ∈ log)
  /\ ((4 <= n)%nat -> startedLine httpPort tcpPort ∈ log).

End ingestor_spec.

(** ** What the two regular expressions match *)

Module regexp_spec.
Import GoStrings GoRegexp.

(** The byte before the position reached after reading [w]. *)
Definition lastOr (prev : option ascii) (w : list ascii) : option ascii :=
  match last w with
  | Some c => Some c
  | None => prev
  end.

(** The matches of a pattern: [Den r prev w rest] says that [r] matches the
    text [w] when [prev] is the byte before it and [rest] the input after
    it (the two are read by the word-boundary assertion only). *)
Inductive Den : Regex -> option ascii -> list ascii -> list ascii -> Prop :=
| Den_Eps (prev : option ascii) (rest : list ascii) : Den Eps prev [] rest
| Den_Chr (c : ascii) (prev : option ascii) (rest : list ascii) :
    Den (Chr c) prev [c] rest
| Den_Cls (p : ascii -> bool) (c : ascii) (prev : option ascii)
    (rest : list ascii) :
    p c = true -> Den (Cls p) prev [c] rest
| Den_Cat (r1 r2 : Regex) (prev : option ascii) (w1 w2 rest : list ascii) :
    Den r1 prev w1 (w2 ++ rest) -> Den r2 (lastOr prev w1) w2 rest ->
    Den (Cat r1 r2) prev (w1 ++ w2) rest
| Den_AltL (r1 r2 : Regex) (prev : option ascii) (w rest : list ascii) :
    Den r1 prev w rest -> Den (Alt r1 r2) prev w rest
| Den_AltR (r1 r2 : Regex) (prev : option ascii) (w rest : list ascii) :
    Den r2 prev w rest -> Den (Alt r1 r2) prev w rest
| Den_WordB (prev : option ascii) (rest : list ascii) :
    xorb (wordBefore prev) (wordAfter rest) = true -> Den WordB prev [] rest.

(** [m] is an occurrence of [r] in [s] after the prefix [pre]. *)
Definition occursAt (r : Regex) (s pre m : list ascii) : Prop :=
  exists rest, s = pre ++ m ++ rest /\ Den r (lastOr None pre) m rest.

End regexp_spec.

Module extraction_spec.
Import GoStrings GoRegexp regexp_spec parser.

(** Between [lo] and [hi] ASCII digits. *)
Definition digits (lo hi : nat) (g : list ascii) : Prop :=
  (lo <= length g <= hi)%nat /\ Forall (fun c => isDigit c = true) g.

(** Four groups of one to three digits, separated by dots. *)
Definition dottedQuad (m : list ascii) : Prop :=
  exists a b c d,
    m = a ++ "."%char :: b ++ "."%char :: c ++ "."%char :: d
    /\ digits 1 3 a /\ digits 1 3 b /\ digits 1 3 c /\ digits 1 3 d.

(** One of the three level words, or a three-digit code that begins with 4
    or 5. *)
Definition errorToken (m : list ascii) : Prop :=
  m = bytes "ERROR" \/ m = bytes "FATAL" \/ m = bytes "CRITICAL"
  \/ exists c d1 d2, m = [c; d1; d2] /\ is45 c = true
                     /\ isDigit d1 = true /\ isDigit d2 = true.

(** [m] stands in [s] after [pre], with no word byte (letter, digit or
    underscore) next to it on either side. *)
Definition standsAt (s pre m : list ascii) : Prop :=
  exists rest, s = pre ++ m ++ rest
               /\ wordBefore (lastOr None pre) = false
               /\ wordAfter rest = false.

End extraction_spec.

(** ** Keywords *)

Module keywords_spec.
Import GoStrings parser.

(** An ASCII capital letter. *)
Definition isUpper (c : ascii) : bool :=
  let b := byte c in (65 <=? b) && (b <=? 90).

(** A token as the keyword loop leaves it: ASCII bytes only, no capital
    letter, no whitespace, and no punctuation of the cutset at either
    end. *)
Definition clean (k : string) : Prop :=
  isASCII k = true
  /\ Forall (fun c => isUpper c = false) (bytes k)
  /\ Forall (fun c => asciiSpace c = false) (bytes k)
  /\ (forall c, head (bytes k) = Some c -> inSet cutset c = false)
  /\ (forall c, last (bytes k) = Some c -> inSet cutset c = false).

(** A record that differs from [R] in its message only. *)
Definition withMessage (R : ingestor.LogEntry) (message : string)
    : ingestor.LogEntry :=
  {| ingestor.Timestamp := ingestor.Timestamp R;
     ingestor.Level := ingestor.Level R;
     ingestor.Source := ingestor.Source R;
     ingestor.Message := message |}.

End keywords_spec.

(** ** Alerts and their metadata *)

Module analyzer_extra_spec.
Import GoStrings analyzer analyzer_spec.

(** The metadata the alerter serialises: exactly the three entries, the
    rule name being the reason of the alert and the flag a boolean. *)
Definition wellFormedMetadata (al : Alert.t) : Prop :=
  dom (Alert.Metadata al)
  = ({["is_known_pattern"; "count_in_window"; "rule_name"]} : gset string)
  /\ ruleName al = Some (MString (Alert.Reason al))
  /\ exists b : bool, isKnownPattern al = Some (MBool b).

(** The alerts of a trace, enqueued or abandoned. *)
Fixpoint produced (tr : list Item) : list Alert.t :=
  match tr with
  | [] => []
  | Emit al _ :: tr' => al :: produced tr'
  | Reset :: tr' => produced tr'
  end.

Definition firing (rs : list Rule.t) (logEntry : parser.ParsedLog)
    : list Rule.t :=
  List.filter (fun r => Rule.Check r logEntry) rs.

End analyzer_extra_spec.

(** ** The loops of the workers, the handlers and the alerter *)

Module loops_spec.
Import analyzer.

(** The entries a worker has received from the input channel. *)
Fixpoint taken (turns : list parser_worker.Turn) : list ingestor.LogEntry :=
  match turns with
  | parser_worker.Received entry Sent :: rest => entry :: taken rest
  | parser_worker.Received entry Shutdown :: _ => [entry]
  | _ => []
  end.

(** The lines of a connection that are entries, decoded. *)
Definition decoded (Unmarshal : string -> ingestor.LogEntry + string)
    (lines : list string) : list ingestor.LogEntry :=
  omap (fun line => match Unmarshal line with
                    | inl entry => Some entry
                    | inr _ => None
                    end) lines.

(** The log lines for the lines of a connection that are not entries. *)
Definition rejected (Unmarshal : string -> ingestor.LogEntry + string)
    (lines : list string) : list string :=
  omap (fun line => match Unmarshal line with
                    | inl _ => None
                    | inr err => Some ("TCP JSON parse error: " +:+ err)
                    end) lines.

(** The alerts that can be serialised, with their documents. *)
Definition documents (MarshalIndent : Alert.t -> string + string)
    (alerts : list Alert.t) : list (Alert.t * string) :=
  omap (fun al => match MarshalIndent al with
                  | inl js => Some (al, js)
                  | inr _ => None
                  end) alerts.

(** The messages logged for the alerts that cannot be serialised. *)
Definition failures (MarshalIndent : Alert.t -> string + string)
    (alerts : list Alert.t) : list string :=
  omap (fun al => match MarshalIndent al with
                  | inl _ => None
                  | inr err => Some ("Failed to marshal alert: " +:+ err)
                  end) alerts.

(** The alerts [processAlerts] has received before it returns. *)
Fixpoint handled (turns : list alerter.Turn) : list Alert.t :=
  match turns with
  | alerter.Received al :: rest => al :: handled rest
  | _ => []
  end.

(** What is printed for one alert. *)
Definition printed (d : Alert.t * string) : list string :=
  [ alerter.nl +:+ "🚨 ALERT: " +:+ Alert.Reason d.1 +:+ " (Severity: "
      +:+ Alert.Severity d.1 +:+ ")" +:+ alerter.nl;
    d.2 +:+ alerter.nl;
    "--------------------------------------------------------------------------------"
      +:+ alerter.nl ].

(** The content of a file after a sequence of [Write] calls. *)
Definition content (writes : list string) : string :=
  fold_right String.append "" writes.

End loops_spec.

(** * Properties of the parser *)

Module parser_facts.
Import GoStrings GoRegexp parser parser_spec.

Section Loop.
Context `{UnicodeTables}.

Lemma addKeyword_carried (p : ParsedLog) (w : string) :
  Timestamp (addKeyword p w) = Timestamp p
  /\ Level (addKeyword p w) = Level p
  /\ Source (addKeyword p w) = Source p
  /\ Message (addKeyword p w) = Message p
  /\ IP (addKeyword p w) = IP p
  /\ ErrorCode (addKeyword p w) = ErrorCode p.
Proof.
  unfold addKeyword.
  destruct (3 <? len (ToLower (Trim w cutset))); simpl; tauto.
Qed.

Lemma loop_carried (ws : list string) : forall p : ParsedLog,
  Timestamp (fold_left addKeyword ws p) = Timestamp p
  /\ Level (fold_left addKeyword ws p) = Level p
  /\ Source (fold_left addKeyword ws p) = Source p
  /\ Message (fold_left addKeyword ws p) = Message p
  /\ IP (fold_left addKeyword ws p) = IP p
  /\ ErrorCode (fold_left addKeyword ws p) = ErrorCode p.
Proof.
  induction ws as [|w ws IH]; intros p; simpl.
  - tauto.
  - destruct (IH (addKeyword p w)) as (-> & -> & -> & -> & -> & ->).
    apply addKeyword_carried.
Qed.

Lemma loop_keywords (ws : list string) : forall p : ParsedLog,
  Keywords (fold_left addKeyword ws p)
  = Keywords p
    ++ List.filter (fun w => 3 <? len w)
         (map (fun tok => ToLower (Trim tok cutset)) ws).
Proof.
  induction ws as [|w ws IH]; intros p; simpl.
  - now rewrite app_nil_r.
  - rewrite IH. unfold addKeyword.
    destruct (3 <? len (ToLower (Trim w cutset))); simpl.
    + now rewrite <- app_assoc.
    + reflexivity.
Qed.

Lemma set_fields_keywords (p : ParsedLog) (x : string) :
  Keywords (set_IP x p) = Keywords p
  /\ Keywords (set_ErrorCode x p) = Keywords p.
Proof. split; reflexivity. Qed.

Lemma bytes_of_bytes (l : list ascii) : bytes (of_bytes l) = l.
Proof. apply list_ascii_of_string_of_list_ascii. Qed.

Lemma inSet_lowerByte (c : ascii) :
  inSet cutset (lowerByte c) = inSet cutset c.
Proof. destruct c as [[] [] [] [] [] [] [] []]; reflexivity. Qed.

Lemma trimLeft_lower (l : list ascii) :
  trimLeftASCII cutset (map lowerByte l)
  = map lowerByte (trimLeftASCII cutset l).
Proof.
  induction l as [|c l IH]; simpl; [reflexivity|].
  rewrite inSet_lowerByte. destruct (inSet cutset c); [exact IH|reflexivity].
Qed.

Lemma trimRight_lower (l : list ascii) :
  trimRightASCII cutset (map lowerByte l)
  = map lowerByte (trimRightASCII cutset l).
Proof.
  unfold trimRightASCII. now rewrite <- map_rev, trimLeft_lower, map_rev.
Qed.

Lemma trimLeft_In (l : list ascii) (c : ascii) :
  In c (trimLeftASCII cutset l) -> In c l.
Proof.
  induction l as [|d l IH]; simpl; [auto|].
  destruct (inSet cutset d); simpl; auto.
Qed.

Lemma trim_forallb (p : ascii -> bool) (l : list ascii) :
  forallb p l = true ->
  forallb p (trimLeftASCII cutset (trimRightASCII cutset l)) = true.
Proof.
  rewrite !forallb_forall. intros Hall c Hc. apply Hall.
  apply trimLeft_In in Hc. unfold trimRightASCII in Hc.
  apply in_rev, trimLeft_In in Hc. now apply in_rev.
Qed.

(** On an ASCII token the two steps commute. *)
Lemma lower_trim_comm (w : string) :
  isASCII w = true -> ToLower (Trim w cutset) = Trim (ToLower w) cutset.
Proof.
  intros Hw. unfold ToLower, Trim at 2. rewrite Hw.
  assert (Ht : isASCII (Trim w cutset) = true).
  { unfold isASCII, Trim. rewrite bytes_of_bytes. now apply trim_forallb. }
  rewrite Ht. unfold Trim. rewrite !bytes_of_bytes.
  now rewrite trimRight_lower, trimLeft_lower.
Qed.

Lemma fieldsASCII_forallb (p : ascii -> bool) (s : list ascii) :
  forall cur : list ascii,
  forallb p cur = true -> forallb p s = true ->
  forall w, In w (fieldsASCII cur s) -> forallb p (bytes w) = true.
Proof.
  induction s as [|c s IH]; intros cur Hcur Hs w Hw; simpl in *.
  - destruct cur as [|d cur]; [contradiction|].
    destruct Hw as [<-|[]]. rewrite bytes_of_bytes.
    rewrite forallb_forall in *. intros x Hx. apply Hcur. now apply in_rev.
  - apply andb_true_iff in Hs as [Hc Hs].
    destruct (asciiSpace c).
    + destruct cur as [|d cur]; [eapply (IH []); eauto|].
      destruct Hw as [<-|Hw]; [|eapply (IH []); eauto].
      rewrite bytes_of_bytes.
      rewrite forallb_forall in *. intros x Hx. apply Hcur. now apply in_rev.
    + eapply (IH (c :: cur)); eauto. simpl. now rewrite Hc, Hcur.
Qed.

Lemma keywords_order (message : string) :
  isASCII message = true -> keywordsTrim message = keywordsLowerTrim message.
Proof.
  intros Hm. unfold keywordsTrim, keywordsLowerTrim, Fields. rewrite Hm.
  f_equal. apply map_ext_in. intros w Hw. apply lower_trim_comm.
  exact (fieldsASCII_forallb _ (bytes message) [] eq_refl Hm w Hw).
Qed.

End Loop.

(** The extraction on some messages: the leftmost dotted quad that stands
    between word boundaries, and the first error token. *)
Example parse_ip_leftmost :
  IP (@parse asciiTables
        (entry "INFO" "gw"
           "peer 300.1.2.3456 via x1.2.3.4 to 192.168.001.1.5:80"))
  = "192.168.001.1".
Proof. vm_compute. reflexivity. Qed.

Example parse_error_code :
  let p := @parse asciiTables
             (entry "ERROR" "api" "upstream returned 503 timeout") in
  ErrorCode p = "503" /\ IP p = ""
  /\ Keywords p = ["upstream"; "returned"; "timeout"].
Proof. vm_compute. auto. Qed.

Example parse_error_token :
  ErrorCode (@parse asciiTables
               (entry "INFO" "api" "code 5034 or a503b, then CRITICAL: 404."))
  = "CRITICAL".
Proof. vm_compute. reflexivity. Qed.

(** C8: for every RawLog the parsed record carries the timestamp, level,
    source and message of the input unchanged. *)
Theorem C8_parse_carries_fields `{UnicodeTables} (R : ingestor.LogEntry) :
  Timestamp (parse R) = ingestor.Timestamp R
  /\ Level (parse R) = ingestor.Level R
  /\ Source (parse R) = ingestor.Source R
  /\ Message (parse R) = ingestor.Message R.
Proof.
  unfold parse.
  match goal with
  | |- context [fold_left addKeyword ?ws ?p] =>
      destruct (loop_carried ws p) as (-> & -> & -> & -> & _)
  end.
  destruct (String.eqb (FindString errorRegex _) "");
    destruct (String.eqb (FindString ipRegex _) ""); simpl; tauto.
Qed.

(** C3, as the specification states it, fails: punctuation in front of a
    token is removed too. The message ["disk ...failing!"] yields the
    keyword ["failing"], not ["...failing"]. *)
Lemma C3_counterexample :
  ~ (forall (U : UnicodeTables) (R : ingestor.LogEntry),
       Keywords (parse R) = keywordsSpec (ingestor.Message R)).
Proof.
  intros Hspec.
  specialize (Hspec asciiTables (entry "INFO" "db" "disk ...failing!")).
  vm_compute in Hspec. discriminate Hspec.
Qed.

(** C3, amended: for every RawLog the keywords are the tokens of the
    message, split on whitespace, with the punctuation bytes . , ; : ! ?
    removed from both ends and then lowercased, of which exactly those
    longer than three bytes are kept, in order and with duplicates; for an
    ASCII message it is the same to lowercase first and remove the
    punctuation at both ends afterwards. *)
Theorem C3_keywords_trim_both_ends `{UnicodeTables}
    (R : ingestor.LogEntry) :
  Keywords (parse R) = keywordsTrim (ingestor.Message R)
  /\ (isASCII (ingestor.Message R) = true ->
      Keywords (parse R) = keywordsLowerTrim (ingestor.Message R)).
Proof.
  assert (Hk : Keywords (parse R) = keywordsTrim (ingestor.Message R)).
  { unfold parse, keywordsTrim.
    rewrite loop_keywords.
    destruct (String.eqb (FindString errorRegex _) "");
      destruct (String.eqb (FindString ipRegex _) ""); reflexivity. }
  split; [exact Hk|]. intros Hm. rewrite Hk. now apply keywords_order.
Qed.

Lemma C3_witness :
  Keywords (@parse asciiTables (entry "INFO" "db" "Disk ...FAILING! now"))
  = ["disk"; "failing"].
Proof.
  destruct (@C3_keywords_trim_both_ends asciiTables
              (entry "INFO" "db" "Disk ...FAILING! now")) as [_ Hlower].
  rewrite Hlower; reflexivity.
Defined.

End parser_facts.

(** * Properties of the Bloom filter *)

Module bloom_facts.
Import GoStrings analyzer bloom_spec.

Lemma setBit_inv (bf bf' : BloomFilter) (k : nat) :
  setBit bf k = Some bf' ->
  (k < length (bits bf))%nat
  /\ bits bf' = <[k := true]> (bits bf)
  /\ size bf' = size bf /\ hashCount bf' = hashCount bf.
Proof.
  unfold setBit. destruct (decide (k < length (bits bf))%nat); [|discriminate].
  intros [= <-]. simpl. auto.
Qed.

Lemma slot_same_size (bf bf' : BloomFilter) (h : Z) :
  size bf' = size bf -> slot bf' h = slot bf h.
Proof. unfold slot. now intros ->. Qed.

Lemma slot_lt (bf : BloomFilter) (h : Z) (k : nat) :
  wellFormed bf -> 0 <= h -> slot bf h = Some k -> (k < length (bits bf))%nat.
Proof.
  intros [Hpos Hlen] Hh. unfold slot.
  destruct (size bf =? 0) eqn:E; [discriminate|]. intros [= <-].
  rewrite Hlen. apply Z2Nat.inj_lt; try lia.
  - apply Z.mod_pos_bound. lia.
  - apply Z.mod_pos_bound. lia.
Qed.

Lemma fnvWrite_nonneg (data : list ascii) :
  forall h, 0 <= h -> 0 <= fnvWrite h data.
Proof.
  induction data as [|c data IH]; intros h Hh; simpl; [exact Hh|].
  apply IH. unfold uint64. apply Z.mod_pos_bound. lia.
Qed.

Lemma hash_nonneg (item : string) (seed : Z) : 0 <= hash item seed.
Proof.
  unfold hash. apply fnvWrite_nonneg, fnvWrite_nonneg. unfold offset64. lia.
Qed.

(** The loop of [Add]: what it leaves unchanged and which bits it sets. *)
Lemma addLoop_inv (item : string) (seeds : list Z) :
  forall bf bf' : BloomFilter,
  addLoop seeds item bf = Some bf' ->
  size bf' = size bf /\ hashCount bf' = hashCount bf
  /\ length (bits bf') = length (bits bf)
  /\ forall n : nat,
       (bits bf' !! n = bits bf !! n /\ ~ hits bf item seeds n)
       \/ (is_Some (bits bf !! n) /\ bits bf' !! n = Some true
           /\ hits bf item seeds n).
Proof.
  induction seeds as [|i seeds IH]; intros bf bf' Hrun; simpl in Hrun.
  - injection Hrun as <-. repeat split; try reflexivity.
    intros n. left. split; [reflexivity|].
    intros (i & Hi & _). inversion Hi.
  - destruct (slot bf (hash item i)) as [k|] eqn:Hk; [|discriminate].
    simpl in Hrun.
    destruct (setBit bf k) as [bf1|] eqn:Hset; [|discriminate].
    simpl in Hrun.
    apply setBit_inv in Hset as (Hlt & Hbits & Hsz & Hhc).
    destruct (IH _ _ Hrun) as (Hsz' & Hhc' & Hlen' & Hpt).
    assert (Hhits : forall n, hits bf1 item seeds n <-> hits bf item seeds n).
    { intros n. unfold hits. now setoid_rewrite (slot_same_size bf bf1 _ Hsz). }
    repeat split; try congruence.
    { rewrite Hlen', Hbits. apply length_insert. }
    intros n. destruct (decide (n = k)) as [->|Hne].
    + right. split; [now apply lookup_lt_is_Some|]. split.
      * destruct (Hpt k) as [[-> _]|(_ & -> & _)]; [|reflexivity].
        rewrite Hbits. now apply list_lookup_insert_eq.
      * exists i. split; [left|exact Hk].
    + assert (Hsame : bits bf1 !! n = bits bf !! n).
      { rewrite Hbits. now apply list_lookup_insert_ne. }
      destruct (Hpt n) as [[Heq Hno]|(Hsome & Htrue & Hhit)].
      * left. split; [congruence|].
        intros (j & Hj & Hslot). apply elem_of_cons in Hj as [->|Hj].
        -- congruence.
        -- apply Hno, Hhits. now exists j.
      * right. split; [now rewrite <- Hsame|]. split; [exact Htrue|].
        apply Hhits in Hhit. destruct Hhit as (j & Hj & Hslot).
        exists j. split; [now right|exact Hslot].
Qed.

Lemma addLoop_total (item : string) (seeds : list Z) :
  forall bf : BloomFilter, wellFormed bf -> is_Some (addLoop seeds item bf).
Proof.
  induction seeds as [|i seeds IH]; intros bf Hwf; simpl.
  - now eexists.
  - destruct (slot bf (hash item i)) as [k|] eqn:Hk.
    + simpl. pose proof (slot_lt _ _ _ Hwf (hash_nonneg item i) Hk) as Hlt.
      unfold setBit. destruct (decide (k < length (bits bf))%nat); [|lia].
      simpl. apply IH. destruct Hwf as [Hpos Hlen]. split; simpl; [exact Hpos|].
      now rewrite length_insert.
    + exfalso. unfold slot in Hk. destruct Hwf as [Hpos _].
      destruct (size bf =? 0) eqn:E; [lia|discriminate].
Qed.

(** The loop of [Contains] answers [true] exactly when every slot is set. *)
Lemma containsLoop_true (item : string) (bf : BloomFilter) (seeds : list Z) :
  containsLoop seeds item bf = Some true
  <-> forall i, i ∈ seeds ->
        exists k, slot bf (hash item i) = Some k /\ bits bf !! k = Some true.
Proof.
  induction seeds as [|i seeds IH]; simpl.
  - split; [|reflexivity]. intros _ i Hi. inversion Hi.
  - destruct (slot bf (hash item i)) as [k|] eqn:Hk; simpl.
    + destruct (bits bf !! k) as [[|]|] eqn:Hb.
      * rewrite IH. split.
        -- intros Hall j Hj. apply elem_of_cons in Hj as [->|Hj]; [|auto].
           exists k. now rewrite Hk.
        -- intros Hall j Hj. apply Hall. now right.
      * split; [discriminate|]. intros Hall.
        destruct (Hall i) as (k' & Hk' & Hb'); [left|]. congruence.
      * split; [discriminate|]. intros Hall.
        destruct (Hall i) as (k' & Hk' & Hb'); [left|]. congruence.
    + split; [discriminate|]. intros Hall.
      destruct (Hall i) as (k' & Hk' & _); [left|]. congruence.
Qed.

(** On a well-formed filter [Contains] always answers. *)
Lemma containsLoop_total (item : string) (bf : BloomFilter) (seeds : list Z) :
  wellFormed bf -> is_Some (containsLoop seeds item bf).
Proof.
  intros Hwf. induction seeds as [|i seeds IH]; simpl; [now eexists|].
  destruct (slot bf (hash item i)) as [k|] eqn:Hk; simpl.
  - pose proof (slot_lt _ _ _ Hwf (hash_nonneg item i) Hk) as Hlt.
    apply lookup_lt_is_Some in Hlt as [[|] ->]; [exact IH|now eexists].
  - exfalso. unfold slot in Hk. destruct Hwf as [Hpos _].
    destruct (size bf =? 0) eqn:E; [lia|discriminate].
Qed.

Lemma Add_inv (bf bf' : BloomFilter) (item : string) :
  Add bf item = Some bf' ->
  size bf' = size bf /\ hashCount bf' = hashCount bf
  /\ length (bits bf') = length (bits bf)
  /\ forall n : nat,
       (bits bf' !! n = bits bf !! n
        /\ ~ hits bf item (seqZ 0 (hashCount bf)) n)
       \/ (is_Some (bits bf !! n) /\ bits bf' !! n = Some true
           /\ hits bf item (seqZ 0 (hashCount bf)) n).
Proof. apply addLoop_inv. Qed.

Lemma Add_wellFormed (bf bf' : BloomFilter) (item : string) :
  wellFormed bf -> Add bf item = Some bf' -> wellFormed bf'.
Proof.
  intros [Hpos Hlen] Hadd.
  apply Add_inv in Hadd as (Hsz & _ & Hl & _).
  split; [now rewrite Hsz|]. now rewrite Hl, Hsz.
Qed.

Lemma Add_total (bf : BloomFilter) (item : string) :
  wellFormed bf -> is_Some (Add bf item).
Proof. apply addLoop_total. Qed.

Lemma Add_keeps_set (bf bf' : BloomFilter) (item : string) (n : nat) :
  Add bf item = Some bf' ->
  bits bf !! n = Some true -> bits bf' !! n = Some true.
Proof.
  intros Hadd Hn. apply Add_inv in Hadd as (_ & _ & _ & Hpt).
  destruct (Hpt n) as [[-> _]|(_ & -> & _)]; auto.
Qed.

Lemma Add_then_Contains (bf bf' : BloomFilter) (item : string) :
  Add bf item = Some bf' -> Contains bf' item = Some true.
Proof.
  intros Hadd. pose proof (Add_inv _ _ _ Hadd) as (Hsz & Hhc & _ & Hpt).
  unfold Contains. rewrite Hhc. apply containsLoop_true.
  intros i Hi.
  assert (exists k, slot bf (hash item i) = Some k) as [k Hk].
  { unfold Add in Hadd. destruct (seqZ 0 (hashCount bf)) as [|j seeds].
    - inversion Hi.
    - simpl in Hadd.
      destruct (slot bf (hash item j)) as [k|] eqn:Hk; [|discriminate].
      unfold slot in *. destruct (size bf =? 0); [discriminate|]. eauto. }
  exists k. split; [now rewrite (slot_same_size bf bf' _ Hsz)|].
  destruct (Hpt k) as [[_ Hno]|(_ & Htrue & _)]; [|exact Htrue].
  exfalso. apply Hno. now exists i.
Qed.

Lemma Contains_kept (bf bf' : BloomFilter) (x y : string) :
  Add bf y = Some bf' -> Contains bf x = Some true ->
  Contains bf' x = Some true.
Proof.
  intros Hadd. pose proof (Add_inv _ _ _ Hadd) as (Hsz & Hhc & _ & _).
  unfold Contains. rewrite Hhc, !containsLoop_true.
  intros Hall i Hi. destruct (Hall i Hi) as (k & Hk & Hb).
  exists k. split; [now rewrite (slot_same_size bf bf' _ Hsz)|].
  eapply Add_keeps_set; eauto.
Qed.

Lemma addAll_Contains_kept (items : list string) :
  forall (bf bf' : BloomFilter) (x : string),
  addAll bf items = Some bf' -> Contains bf x = Some true ->
  Contains bf' x = Some true.
Proof.
  induction items as [|y items IH]; intros bf bf' x Hall Hc; simpl in Hall.
  - now injection Hall as <-.
  - destruct (Add bf y) as [bf1|] eqn:Hadd; [|discriminate]. simpl in Hall.
    eapply IH; [exact Hall|]. eapply Contains_kept; eauto.
Qed.

(** The loop of [Clear] writes [false] at every index it visits. *)
Lemma clearLoop_lookup (idxs : list nat) :
  forall (b : list bool) (n : nat),
  length (fold_left (fun b i => <[i := false]> b) idxs b) = length b
  /\ (n ∈ idxs -> (n < length b)%nat ->
      fold_left (fun b i => <[i := false]> b) idxs b !! n = Some false).
Proof.
  induction idxs as [|i idxs IH]; intros b n; simpl.
  - split; [reflexivity|]. intros Hn. inversion Hn.
  - destruct (IH (<[i := false]> b) n) as [Hlen Hin].
    rewrite length_insert in Hlen, Hin. split; [exact Hlen|].
    intros Hn Hlt. destruct (decide (n ∈ idxs)) as [Hmem|Hnot].
    + now apply Hin.
    + apply elem_of_cons in Hn as [->|Hn]; [|contradiction].
      clear IH Hin Hlen. revert b Hlt.
      induction idxs as [|j idxs IHj]; intros b Hlt; simpl.
      * now apply list_lookup_insert_eq.
      * assert (i <> j) by (intros ->; apply Hnot; left).
        rewrite (list_insert_insert_ne _ j i) by congruence.
        apply IHj; [|now rewrite length_insert].
        intros Hmem. apply Hnot. now right.
Qed.

Lemma Clear_zeroes (bf : BloomFilter) :
  bits (Clear bf) = replicate (length (bits bf)) false.
Proof.
  apply list_eq. intros n. simpl.
  destruct (clearLoop_lookup (seq 0 (length (bits bf))) (bits bf) n)
    as [Hlen Hin].
  destruct (decide (n < length (bits bf))%nat) as [Hlt|Hge].
  - rewrite Hin; [|apply elem_of_seq; lia|exact Hlt].
    symmetry. now apply lookup_replicate_2.
  - rewrite !lookup_ge_None_2; [reflexivity| |].
    + rewrite length_replicate. lia.
    + rewrite Hlen. lia.
Qed.

Lemma Contains_all_false (bf : BloomFilter) (item : string) :
  wellFormed bf -> 0 < hashCount bf ->
  (forall n, n < length (bits bf) -> bits bf !! n = Some false)%nat ->
  Contains bf item = Some false.
Proof.
  intros Hwf Hhc Hfalse. unfold Contains.
  rewrite (seqZ_cons 0 (hashCount bf)) by lia. simpl.
  destruct (slot bf (hash item 0)) as [k|] eqn:Hk; simpl.
  - pose proof (slot_lt _ _ _ Hwf (hash_nonneg item 0) Hk) as Hlt.
    now rewrite (Hfalse k Hlt).
  - exfalso. unfold slot in Hk. destruct Hwf as [Hpos _].
    destruct (size bf =? 0) eqn:E; [lia|discriminate].
Qed.

Lemma NewBloomFilter_wellFormed (sz k : Z) :
  0 < sz -> wellFormed (NewBloomFilter sz k).
Proof. intros Hsz. split; simpl; [exact Hsz|apply length_replicate]. Qed.

End bloom_facts.

Module bloom_claims.
Import GoStrings analyzer bloom_spec bloom_facts.

(** C7: for every Bloom filter and item x, [Add] returns on a filter built
    by [NewBloomFilter] with a positive size; it keeps the length of the bit
    array and changes a bit only from 0 to 1; after [Add(x)] every later
    [Contains(x)], whatever was added in between, answers true; and [Clear]
    zeroes every bit, after which [Contains] answers false again. *)
Theorem C7_add_monotone_no_false_negatives (bf : BloomFilter) (x : string) :
  (wellFormed bf -> is_Some (Add bf x))
  /\ (forall bf1 : BloomFilter, Add bf x = Some bf1 ->
        length (bits bf1) = length (bits bf)
        /\ (forall n : nat,
              bits bf1 !! n = bits bf !! n
              \/ (bits bf !! n = Some false /\ bits bf1 !! n = Some true))
        /\ (forall (items : list string) (bf2 : BloomFilter),
              addAll bf1 items = Some bf2 -> Contains bf2 x = Some true))
  /\ bits (Clear bf) = replicate (length (bits bf)) false
  /\ (wellFormed bf -> 0 < hashCount bf -> Contains (Clear bf) x = Some false).
Proof.
  split; [apply Add_total|]. split; [|split].
  - intros bf1 Hadd. pose proof (Add_inv _ _ _ Hadd) as (_ & _ & Hlen & Hpt).
    split; [exact Hlen|]. split.
    + intros n. destruct (Hpt n) as [[Heq _]|([b Hb] & Htrue & _)].
      * now left.
      * destruct b; [left; congruence|right; auto].
    + intros items bf2 Hall. eapply addAll_Contains_kept; [exact Hall|].
      eapply Add_then_Contains; exact Hadd.
  - apply Clear_zeroes.
  - intros Hwf Hhc. apply Contains_all_false.
    + destruct Hwf as [Hpos Hlen]. split; [exact Hpos|].
      rewrite Clear_zeroes, length_replicate. exact Hlen.
    + exact Hhc.
    + intros n Hn. rewrite Clear_zeroes in *. rewrite length_replicate in Hn.
      now apply lookup_replicate_2.
Qed.

Lemma C7_witness :
  exists bf1 : BloomFilter,
    Add (NewBloomFilter 64 3) "db" = Some bf1
    /\ Contains bf1 "db" = Some true
    /\ Contains (Clear bf1) "db" = Some false.
Proof.
  destruct (C7_add_monotone_no_false_negatives (NewBloomFilter 64 3) "db")
    as (Htotal & Hadd & _).
  assert (Hwf0 : wellFormed (NewBloomFilter 64 3)) by (split; reflexivity).
  destruct (Htotal Hwf0) as [bf1 H1].
  exists bf1. split; [exact H1|].
  destruct (Hadd bf1 H1) as (_ & _ & Hlater). split.
  - apply (Hlater [] bf1). reflexivity.
  - destruct (C7_add_monotone_no_false_negatives bf1 "db")
      as (_ & _ & _ & Hclear).
    apply Hclear.
    + exact (Add_wellFormed _ _ _ Hwf0 H1).
    + destruct (Add_inv _ _ _ H1) as (_ & -> & _). reflexivity.
Defined.

End bloom_claims.

(** * Properties of the analyzer *)

Module analyzer_facts.
Import GoStrings analyzer bloom_spec bloom_facts analyzer_spec.

#[local] Hint Constructors follows : core.

Lemma increment_post (m : gmap string Z) (k : string) :
  increment m k
  = (<[k := wrapInt (default 0 (m !! k) + 1)]> m,
     wrapInt (default 0 (m !! k) + 1)).
Proof. unfold increment. now rewrite lookup_insert_eq. Qed.

Lemma fire_inv (a a1 : Analyzer) (rule : Rule.t) (logEntry : parser.ParsedLog)
    (now : string) (al : Alert.t) :
  fire a rule logEntry now = Some (a1, al) ->
  let K := key (Rule.Name rule) (parser.Source logEntry) in
  let c := wrapInt (default 0 (windowCount a !! K) + 1) in
  exists b : bool,
    Contains (bloomFilter a) K = Some b
    /\ Add (bloomFilter a) K = Some (bloomFilter a1)
    /\ rules a1 = rules a
    /\ windowCount a1 = <[K := c]> (windowCount a)
    /\ Alert.Timestamp al = now
    /\ Alert.Severity al = Rule.Severity rule
    /\ Alert.Reason al = Rule.Name rule
    /\ Alert.Log al = logEntry
    /\ alertKey al = K
    /\ isKnownPattern al = Some (MBool b)
    /\ countInWindow al = Some (MInt c)
    /\ ruleName al = Some (MString (Rule.Name rule)).
Proof.
  unfold fire. intros Hfire.
  destruct (Contains (bloomFilter a) _) as [b|] eqn:Hc; [|discriminate].
  simpl in Hfire.
  destruct (Add (bloomFilter a) _) as [bf1|] eqn:Ha; [|discriminate].
  simpl in Hfire. rewrite lookup_insert_eq in Hfire. simpl in Hfire.
  injection Hfire as <- <-. exists b.
  unfold alertKey, isKnownPattern, countInWindow, ruleName. simpl.
  repeat split; try reflexivity; try assumption.
Qed.

Lemma fire_total (a : Analyzer) (rule : Rule.t) (logEntry : parser.ParsedLog)
    (now : string) :
  wfAnalyzer a -> is_Some (fire a rule logEntry now).
Proof.
  intros Hwf. unfold fire.
  destruct (containsLoop_total (key (Rule.Name rule) (parser.Source logEntry))
              (bloomFilter a) (seqZ 0 (hashCount (bloomFilter a))) Hwf)
    as [b Hb].
  unfold Contains. rewrite Hb. simpl.
  destruct (Add_total (bloomFilter a)
              (key (Rule.Name rule) (parser.Source logEntry)) Hwf) as [bf Hbf].
  rewrite Hbf. simpl. now eexists.
Qed.

Lemma fire_wf (a a1 : Analyzer) (rule : Rule.t) (logEntry : parser.ParsedLog)
    (now : string) (al : Alert.t) :
  wfAnalyzer a -> fire a rule logEntry now = Some (a1, al) -> wfAnalyzer a1.
Proof.
  intros Hwf Hfire. apply fire_inv in Hfire as (b & _ & Hadd & _).
  eapply Add_wellFormed; eauto.
Qed.

Lemma follows_app (t1 t2 : list Item) : forall a a' : Analyzer,
  follows a (t1 ++ t2) a' <->
  exists am, follows a t1 am /\ follows am t2 a'.
Proof.
  induction t1 as [|it t1 IH]; intros a a'; simpl.
  - split.
    + intros H. exists a. auto.
    + intros (am & H1 & H2). inversion H1; subst. exact H2.
  - split.
    + intros H.
      inversion H as [|a0 a0' tr0 Hrest|a0 a1 a0' rule L now al s tr0 Hf Hrest];
        subst.
      * apply IH in Hrest as (am & H1 & H2). eauto.
      * apply IH in Hrest as (am & H1 & H2). eauto.
    + intros (am & H1 & H2).
      inversion H1 as [|a0 a0' tr0 Hrest|a0 a1 a0' rule L now al s tr0 Hf Hrest];
        subst.
      * constructor. apply IH. eauto.
      * econstructor; [eassumption|]. apply IH. eauto.
Qed.

Lemma follows_wf (a a' : Analyzer) (tr : list Item) :
  follows a tr a' -> wfAnalyzer a -> wfAnalyzer a'.
Proof.
  induction 1 as [a|a a' tr _ IH|a a1 a' rule L now al s tr Hfire _ IH];
    intros Hwf.
  - exact Hwf.
  - apply IH. exact Hwf.
  - apply IH. eapply fire_wf; eauto.
Qed.

Lemma processRules_follows (logEntry : parser.ParsedLog) (env : nat -> Obs)
    (rs : list Rule.t) :
  forall (i : nat) (a a' : Analyzer) (tr : list Item),
  processRules rs i a logEntry env = Some (a', tr) -> follows a tr a'.
Proof.
  induction rs as [|rule rs IH]; intros i a a' tr Hrun; simpl in Hrun.
  - injection Hrun as <- <-. constructor.
  - destruct (Rule.Check rule logEntry); [|eauto].
    unfold tickBefore in Hrun.
    destruct (obsReset (env i)).
    + destruct (fire (cleanupWindow a) rule logEntry _) as [[a1 al]|] eqn:Hf;
        [|discriminate].
      simpl in Hrun. destruct (obsSelect (env i)).
      * destruct (processRules rs (S i) a1 logEntry env) as [[a2 tr2]|] eqn:Hr;
          [|discriminate].
        injection Hrun as <- <-. simpl. eauto.
      * injection Hrun as <- <-. simpl. eauto.
    + destruct (fire a rule logEntry _) as [[a1 al]|] eqn:Hf; [|discriminate].
      simpl in Hrun. destruct (obsSelect (env i)).
      * destruct (processRules rs (S i) a1 logEntry env) as [[a2 tr2]|] eqn:Hr;
          [|discriminate].
        injection Hrun as <- <-. simpl. eauto.
      * injection Hrun as <- <-. simpl. eauto.
Qed.

Lemma run_follows (evs : list Event) :
  forall (a a' : Analyzer) (tr : list Item),
  run a evs = Some (a', tr) -> follows a tr a'.
Proof.
  induction evs as [|[L env|] evs IH]; intros a a' tr Hrun; simpl in Hrun.
  - injection Hrun as <- <-. constructor.
  - destruct (processLog a L env) as [[a1 tr1]|] eqn:Hp; [|discriminate].
    simpl in Hrun.
    destruct (run a1 evs) as [[a2 tr2]|] eqn:Hr; [|discriminate].
    injection Hrun as <- <-. apply follows_app. exists a1. split.
    + eapply processRules_follows. exact Hp.
    + now apply IH.
  - destruct (run (cleanupWindow a) evs) as [[a2 tr2]|] eqn:Hr; [|discriminate].
    injection Hrun as <- <-. constructor. now apply IH.
Qed.

Lemma processRules_total (logEntry : parser.ParsedLog) (env : nat -> Obs)
    (rs : list Rule.t) :
  forall (i : nat) (a : Analyzer),
  wfAnalyzer a -> is_Some (processRules rs i a logEntry env).
Proof.
  induction rs as [|rule rs IH]; intros i a Hwf; simpl.
  - now eexists.
  - destruct (Rule.Check rule logEntry); [|auto].
    assert (Hwf0 : wfAnalyzer (tickBefore (env i) a).1).
    { unfold tickBefore. destruct (obsReset (env i)); exact Hwf. }
    destruct (tickBefore (env i) a) as [a0 pre]. simpl in Hwf0.
    destruct (fire_total a0 rule logEntry (obsNow (env i)) Hwf0)
      as [[a1 al] Hf].
    rewrite Hf. simpl. destruct (obsSelect (env i)); [|now eexists].
    destruct (IH (S i) a1) as [[a2 tr2] Hr]; [eapply fire_wf; eauto|].
    rewrite Hr. now eexists.
Qed.

Lemma NewAnalyzer_wf : wfAnalyzer NewAnalyzer.
Proof. exact (NewBloomFilter_wellFormed 100000 3 eq_refl). Qed.

Lemma run_total (evs : list Event) : forall a : Analyzer,
  wfAnalyzer a -> is_Some (run a evs).
Proof.
  induction evs as [|[L env|] evs IH]; intros a Hwf; simpl.
  - now eexists.
  - destruct (processRules_total L env (rules a) 0%nat a Hwf) as [[a1 tr1] Hp].
    unfold processLog. rewrite Hp. simpl.
    destruct (IH a1) as [[a2 tr2] Hr].
    { eapply follows_wf; [|exact Hwf]. eapply processRules_follows; eauto. }
    rewrite Hr. now eexists.
  - destruct (IH (cleanupWindow a) Hwf) as [[a2 tr2] Hr].
    rewrite Hr. now eexists.
Qed.

(** *** The Bloom filter along a trace *)

Lemma hits_same_size (bf bf' : BloomFilter) (item : string) (seeds : list Z)
    (n : nat) :
  size bf' = size bf -> hits bf' item seeds n <-> hits bf item seeds n.
Proof.
  intros Hsz. unfold hits.
  split; intros (i & Hi & Hs); exists i; split; auto;
    [now rewrite <- (slot_same_size bf bf' _ Hsz)
    |now rewrite (slot_same_size bf bf' _ Hsz)].
Qed.

Lemma cleanupWindow_frame (a : Analyzer) :
  bloomFilter (cleanupWindow a) = bloomFilter a
  /\ rules (cleanupWindow a) = rules a
  /\ windowCount (cleanupWindow a) = ∅.
Proof. repeat split. Qed.

(** A bit is set after a trace exactly when it was set before or is a slot
    of the key of an alert of the trace. *)
Lemma follows_bloom (a a' : Analyzer) (tr : list Item) :
  follows a tr a' ->
  size (bloomFilter a') = size (bloomFilter a)
  /\ hashCount (bloomFilter a') = hashCount (bloomFilter a)
  /\ length (bits (bloomFilter a')) = length (bits (bloomFilter a))
  /\ forall n : nat,
       bits (bloomFilter a') !! n = Some true
       <-> bits (bloomFilter a) !! n = Some true
           \/ exists al s, Emit al s ∈ tr
                /\ hits (bloomFilter a) (alertKey al)
                     (seqZ 0 (hashCount (bloomFilter a))) n.
Proof.
  induction 1 as [a|a a' tr _ IH|a a1 a' rule L now al s tr Hfire _ IH].
  - repeat split; try reflexivity; [now left|].
    intros [Hb|(al & s & Hin & _)]; [exact Hb|inversion Hin].
  - destruct IH as (Hsz & Hhc & Hlen & Hpt). simpl in *.
    repeat split; try assumption.
    + intros Hb. apply Hpt in Hb as [Hb|(al & s & Hin & Hh)]; [now left|].
      right. exists al, s. split; [now right|exact Hh].
    + intros [Hb|(al & s & Hin & Hh)]; apply Hpt; [now left|].
      right. exists al, s. split; [|exact Hh].
      apply elem_of_cons in Hin as [Heq|Hin]; [discriminate|exact Hin].
  - destruct IH as (Hsz & Hhc & Hlen & Hpt).
    apply fire_inv in Hfire
      as (b & _ & Hadd & _ & _ & _ & _ & _ & _ & Hkey & _).
    pose proof (Add_inv _ _ _ Hadd) as (Hsz1 & Hhc1 & Hlen1 & Hpt1).
    rewrite <- Hkey in Hpt1.
    repeat split; try congruence.
    + intros Hb. apply Hpt in Hb as [Hb|(al' & s' & Hin & Hh)].
      * destruct (Hpt1 n) as [[Heq _]|(_ & _ & Hh)]; [left; congruence|].
        right. exists al, s. split; [left|exact Hh].
      * right. exists al', s'. split; [now right|].
        rewrite Hhc1 in Hh. now apply (hits_same_size _ _ _ _ _ Hsz1).
    + intros [Hb|(al' & s' & Hin & Hh)]; apply Hpt.
      * left. eapply Add_keeps_set; eauto.
      * apply elem_of_cons in Hin as [Heq|Hin].
        -- injection Heq as -> ->. left.
           destruct (Hpt1 n) as [[_ Hno]|(_ & Hset & _)];
             [contradiction|exact Hset].
        -- right. exists al', s'. split; [exact Hin|].
           rewrite Hhc1. now apply (hits_same_size _ _ _ _ _ Hsz1).
Qed.

(** The known-pattern flag of an alert is the answer of [Contains] on the
    state the trace before it leads to. *)
Lemma follows_known (a a' : Analyzer) (pre post : list Item) (al : Alert.t)
    (s : Select) :
  follows a (pre ++ Emit al s :: post) a' ->
  exists (am : Analyzer) (b : bool),
    follows a pre am
    /\ Contains (bloomFilter am) (alertKey al) = Some b
    /\ isKnownPattern al = Some (MBool b).
Proof.
  intros H. apply follows_app in H as (am & Hpre & Hrest).
  inversion Hrest as [| |a0 a1 a0' rule L now al0 s0 tr0 Hf _]; subst.
  apply fire_inv in Hf
    as (b & Hc & _ & _ & _ & _ & _ & _ & _ & Hkey & Hknown & _).
  exists am, b. rewrite Hkey. auto.
Qed.

Lemma NewAnalyzer_filter :
  size (bloomFilter NewAnalyzer) = 100000
  /\ hashCount (bloomFilter NewAnalyzer) = 3
  /\ forall n : nat, bits (bloomFilter NewAnalyzer) !! n <> Some true.
Proof.
  repeat split. intros n Hn.
  change (replicate (Z.to_nat 100000) false !! n = Some true) in Hn.
  apply lookup_replicate_1 in Hn as [Hn _]. discriminate.
Qed.

Lemma hits_bitOf (bf : BloomFilter) (item : string) (n : nat) :
  size bf = 100000 ->
  hits bf item (seqZ 0 3) n
  <-> exists j, 0 <= j < 3 /\ bitOf item j = n.
Proof.
  intros Hsz. unfold hits, slot, bitOf. rewrite Hsz. simpl.
  split.
  - intros (j & Hj & Hs). exists j. apply elem_of_seqZ in Hj.
    split; [lia|congruence].
  - intros (j & Hj & Hs). exists j. split; [apply elem_of_seqZ; lia|].
    congruence.
Qed.


(** *** The window counter along a trace *)

Lemma wrapInt_small (z : Z) : - 2 ^ 63 <= z < 2 ^ 63 -> wrapInt z = z.
Proof. intros Hz. unfold wrapInt. rewrite Z.mod_small; lia. Qed.

(** Within a stretch of the trace without a reset, the alerts for [K] carry
    the counts [c0 + 1], [c0 + 2], ... where [c0] is the count of [K] at the
    start of the stretch. *)
Lemma follows_counts (K : string) (a a' : Analyzer) (seg : list Item) :
  follows a seg a' -> Reset ∉ seg ->
  forall c0 : Z,
  default 0 (windowCount a !! K) = c0 -> 0 <= c0 ->
  c0 + Z.of_nat (length seg) < 2 ^ 63 ->
  map countInWindow (alertsFor K seg)
  = map (fun z => Some (MInt z))
      (seqZ (c0 + 1) (Z.of_nat (length (alertsFor K seg))))
  /\ default 0 (windowCount a' !! K)
     = c0 + Z.of_nat (length (alertsFor K seg)).
Proof.
  induction 1 as [a|a a' tr _ IH|a a1 a' rule L now al s tr Hfire _ IH];
    intros Hno c0 Hc0 Hpos Hbound.
  - simpl. split; [reflexivity|lia].
  - exfalso. apply Hno. left.
  - assert (Hno' : Reset ∉ tr) by (intros Hin; apply Hno; now right).
    apply fire_inv in Hfire
      as (b & _ & _ & _ & Hwc & _ & _ & _ & _ & Hkey & _ & Hcount & _).
    simpl in Hbound. simpl alertsFor.
    destruct (String.eqb (alertKey al) K) eqn:HK.
    + apply String.eqb_eq in HK. rewrite Hkey in HK. rewrite HK in *.
      rewrite Hc0 in Hwc, Hcount.
      rewrite wrapInt_small in Hwc, Hcount by lia.
      destruct (IH Hno' (c0 + 1)) as [Hmap Hfin]; try lia.
      { now rewrite Hwc, lookup_insert_eq. }
      split.
      * simpl length. rewrite seqZ_cons by lia. simpl map.
        rewrite Hcount. f_equal.
        replace (Z.succ (c0 + 1)) with (c0 + 1 + 1) by lia.
        replace (Z.pred (Z.of_nat (S (length (alertsFor K tr)))))
          with (Z.of_nat (length (alertsFor K tr))) by lia.
        exact Hmap.
      * rewrite Hfin. simpl length. lia.
    + apply String.eqb_neq in HK. rewrite Hkey in HK.
      apply IH; try assumption; try lia.
      now rewrite Hwc, lookup_insert_ne.
Qed.

(** When no send of a stretch observes the shutdown, its alerts for [K] are
    the alerts for [K] that were enqueued. *)
Lemma alertsFor_enqueued (K : string) (seg : list Item) :
  (forall al s, Emit al s ∈ seg -> s = Sent) ->
  alertsFor K seg
  = List.filter (fun al => String.eqb (alertKey al) K) (enqueued seg).
Proof.
  induction seg as [|[|al s] seg IH]; intros Hsent; simpl.
  - reflexivity.
  - apply IH. intros al s Hin. apply (Hsent al s). now right.
  - rewrite (Hsent al s) by left. simpl.
    rewrite IH; [reflexivity|].
    intros al' s' Hin. apply (Hsent al' s'). now right.
Qed.

(** At the start of a window every count reads zero. *)
Lemma follows_window_start (a a' : Analyzer) (pre : list Item) (K : string) :
  follows a pre a' ->
  (pre = [] /\ windowCount a = ∅) \/ (exists pre', pre = pre' ++ [Reset]) ->
  default 0 (windowCount a' !! K) = 0.
Proof.
  intros Hf [[-> Hempty]|[pre' ->]].
  - inversion Hf; subst. now rewrite Hempty.
  - apply follows_app in Hf as (am & _ & Hlast).
    inversion Hlast as [|a0 a0' tr0 Hrest|]; subst.
    inversion Hrest; subst. reflexivity.
Qed.

(** *** One record through the rule loop *)

Lemma enqueued_app (t1 t2 : list Item) :
  enqueued (t1 ++ t2) = enqueued t1 ++ enqueued t2.
Proof.
  induction t1 as [|[|al [|]] t1 IH]; simpl; auto. now rewrite IH.
Qed.

Lemma tickBefore_cases (o : Obs) (a : Analyzer) :
  tickBefore o a = (a, []) \/ tickBefore o a = (cleanupWindow a, [Reset]).
Proof. unfold tickBefore. destruct (obsReset o); auto. Qed.

(** When no send observes the shutdown, the alerts enqueued for a record
    are those of the rules that fire, one each, in the order of the rules. *)
Lemma processRules_sent (logEntry : parser.ParsedLog) (env : nat -> Obs)
    (rs : list Rule.t) :
  (forall j, obsSelect (env j) = Sent) ->
  forall (i : nat) (a a' : Analyzer) (tr : list Item),
  processRules rs i a logEntry env = Some (a', tr) ->
  map (fun al => (Alert.Reason al, Alert.Severity al, Alert.Log al))
    (enqueued tr)
  = map (fun r => (Rule.Name r, Rule.Severity r, logEntry))
      (List.filter (fun r => Rule.Check r logEntry) rs).
Proof.
  intros Hsent. induction rs as [|rule rs IH]; intros i a a' tr Hrun;
    simpl in Hrun.
  - injection Hrun as <- <-. reflexivity.
  - simpl. destruct (Rule.Check rule logEntry); [|eauto].
    rewrite Hsent in Hrun.
    destruct (tickBefore_cases (env i) a) as [Ht|Ht]; rewrite Ht in Hrun.
    + destruct (fire a rule logEntry _) as [[a1 al]|] eqn:Hf; [|discriminate].
      simpl in Hrun.
      destruct (processRules rs (S i) a1 logEntry env) as [[a2 tr2]|] eqn:Hr;
        [|discriminate].
      injection Hrun as <- <-. simpl. rewrite (IH _ _ _ _ Hr).
      apply fire_inv in Hf as (b & _ & _ & _ & _ & _ & -> & -> & -> & _).
      reflexivity.
    + destruct (fire (cleanupWindow a) rule logEntry _) as [[a1 al]|] eqn:Hf;
        [|discriminate].
      simpl in Hrun.
      destruct (processRules rs (S i) a1 logEntry env) as [[a2 tr2]|] eqn:Hr;
        [|discriminate].
      injection Hrun as <- <-. simpl. rewrite (IH _ _ _ _ Hr).
      apply fire_inv in Hf as (b & _ & _ & _ & _ & _ & -> & -> & -> & _).
      reflexivity.
Qed.

(** The loop reads its environment only at the positions of firing rules. *)
Lemma processRules_ext (logEntry : parser.ParsedLog) (rs : list Rule.t) :
  forall (i : nat) (a : Analyzer) (env env' : nat -> Obs),
  (forall (j : nat) (r : Rule.t),
     rs !! j = Some r -> Rule.Check r logEntry = true ->
     env (i + j)%nat = env' (i + j)%nat) ->
  processRules rs i a logEntry env = processRules rs i a logEntry env'.
Proof.
  induction rs as [|rule rs IH]; intros i a env env' Hsame; simpl.
  - reflexivity.
  - assert (Hrest : forall a1, processRules rs (S i) a1 logEntry env
                               = processRules rs (S i) a1 logEntry env').
    { intros a1. apply IH. intros j r Hj Hr.
      replace (S i + j)%nat with (i + S j)%nat by lia.
      now apply (Hsame (S j) r). }
    destruct (Rule.Check rule logEntry) eqn:Hc; [|apply Hrest].
    pose proof (Hsame 0%nat rule eq_refl Hc) as H0.
    rewrite Nat.add_0_r in H0. rewrite <- H0.
    destruct (tickBefore (env i) a) as [a0 pre].
    destruct (fire a0 rule logEntry _) as [[a1 al]|]; [|reflexivity].
    simpl. now rewrite Hrest.
Qed.

(** The loop up to and including the first iteration whose send observes
    the shutdown: the rules after it play no part. *)
Lemma processRules_shutdown (logEntry : parser.ParsedLog) (env : nat -> Obs)
    (rule : Rule.t) (rs2 : list Rule.t) (rs1 : list Rule.t) :
  Rule.Check rule logEntry = true ->
  forall (i : nat) (a : Analyzer),
  (forall (j : nat) (r : Rule.t),
     rs1 !! j = Some r -> Rule.Check r logEntry = true ->
     obsSelect (env (i + j)%nat) = Sent) ->
  obsSelect (env (i + length rs1)%nat) = Shutdown ->
  processRules (rs1 ++ rule :: rs2) i a logEntry env
  = '(am, tr1) ← processRules rs1 i a logEntry env;
    '(a1, al) ← fire (tickBefore (env (i + length rs1)%nat) am).1 rule
                  logEntry (obsNow (env (i + length rs1)%nat));
    Some (a1, tr1 ++ (tickBefore (env (i + length rs1)%nat) am).2
                ++ [Emit al Shutdown]).
Proof.
  intros Hfire. induction rs1 as [|r rs1 IH]; intros i a Hsent Hshut.
  - simpl in *. rewrite Nat.add_0_r in *. rewrite Hfire, Hshut.
    destruct (tickBefore (env i) a) as [a0 pre]. simpl.
    destruct (fire a0 rule logEntry _) as [[a1 al]|]; reflexivity.
  - replace (i + length (r :: rs1))%nat with (S i + length rs1)%nat in *
      by (simpl; lia).
    assert (Hrest : forall a1,
      processRules (rs1 ++ rule :: rs2) (S i) a1 logEntry env
      = '(am, tr1) ← processRules rs1 (S i) a1 logEntry env;
        '(a2, al) ← fire (tickBefore (env (S i + length rs1)%nat) am).1 rule
                      logEntry (obsNow (env (S i + length rs1)%nat));
        Some (a2, tr1 ++ (tickBefore (env (S i + length rs1)%nat) am).2
                    ++ [Emit al Shutdown])).
    { intros a1. apply IH; [|exact Hshut]. intros j r' Hj Hr'.
      replace (S i + j)%nat with (i + S j)%nat by lia.
      now apply (Hsent (S j) r'). }
    simpl. destruct (Rule.Check r logEntry) eqn:Hc; [|apply Hrest].
    pose proof (Hsent 0%nat r eq_refl Hc) as H0. rewrite Nat.add_0_r in H0.
    rewrite H0. destruct (tickBefore (env i) a) as [a0 pre].
    destruct (fire a0 r logEntry _) as [[a1 al]|]; [|reflexivity].
    simpl. rewrite Hrest.
    destruct (processRules rs1 (S i) a1 logEntry env) as [[am tr1]|];
      [|reflexivity].
    simpl.
    destruct (fire (tickBefore (env (S (i + length rs1))) am).1 rule logEntry _)
      as [[a2 al2]|]; [|reflexivity].
    simpl. now rewrite <- app_assoc.
Qed.






Lemma enqueuedFor_sublist (K : string) (tr : list Item) :
  enqueuedFor K tr `sublist_of` alertsFor K tr.
Proof.
  unfold enqueuedFor.
  induction tr as [|[|al [|]] tr IH]; simpl.
  - constructor.
  - exact IH.
  - destruct (String.eqb (alertKey al) K); [now constructor|exact IH].
  - destruct (String.eqb (alertKey al) K); [now constructor|exact IH].
Qed.

End analyzer_facts.

Module analyzer_claims.
Import GoStrings analyzer bloom_spec bloom_facts parser_spec analyzer_spec
  analyzer_facts.

Lemma colliding_summary :
  summaryOf (run NewAnalyzer colliding)
  = Some [ Some ("Critical Error Level:web-23844", Some (MBool false),
                 Some (MInt 1), Sent);
           Some ("Critical Error Level:db", Some (MBool true),
                 Some (MInt 1), Sent) ].
Proof. vm_compute. reflexivity. Qed.

(** C2, as the specification states it, fails: the first alert for the key
    of rule Critical Error Level and source db is flagged as a known
    pattern when an alert for source web-23844 came before it, because the
    two keys occupy the same bits. *)
Lemma C2_counterexample :
  ~ (forall (evs : list Event) (a' : Analyzer) (pre post : list Item)
       (al : Alert.t) (s : Select),
       run NewAnalyzer evs = Some (a', pre ++ Emit al s :: post) ->
       (forall al' s', Emit al' s' ∈ pre -> alertKey al' <> alertKey al) ->
       isKnownPattern al = Some (MBool false)).
Proof.
  intros Hclaim. pose proof colliding_summary as Hsum.
  destruct (run NewAnalyzer colliding) as [[a' tr]|] eqn:Hrun;
    [|discriminate Hsum].
  destruct tr as [|[|al1 s1] [|[|al2 s2] [|? ?]]]; try discriminate Hsum.
  simpl in Hsum. injection Hsum as Hk1 _ _ _ Hk2 Hknown _ _.
  specialize (Hclaim colliding a' [Emit al1 s1] [] al2 s2 Hrun).
  rewrite Hknown in Hclaim. enough (Some (MBool true) = Some (MBool false))
    by discriminate.
  apply Hclaim. intros al' s' Hin.
  apply list_elem_of_singleton in Hin. injection Hin as -> ->.
  rewrite Hk1, Hk2. discriminate.
Qed.

(** C2, amended: in every run of a fresh analyzer each alert carries a
    boolean known-pattern flag, sampled before its key is added; the flag is
    true exactly when each of the three bits of the alert's key is a bit of
    the key of some earlier alert. So every alert that follows one with the
    same rule and source is flagged true (no false negatives), the first
    alert of the run is flagged false, and the first alert for a key is
    flagged false unless earlier keys already cover its bits. *)
Theorem C2_known_pattern_flag (evs : list Event) (a' : Analyzer)
    (pre post : list Item) (al : Alert.t) (s : Select) :
  run NewAnalyzer evs = Some (a', pre ++ Emit al s :: post) ->
  exists b : bool,
    isKnownPattern al = Some (MBool b)
    /\ (b = true <->
        forall i, 0 <= i < 3 ->
          exists al' s' j, Emit al' s' ∈ pre /\ 0 <= j < 3
            /\ bitOf (alertKey al') j = bitOf (alertKey al) i)
    /\ ((exists al' s', Emit al' s' ∈ pre /\ alertKey al' = alertKey al) ->
        b = true)
    /\ ((forall al' s', Emit al' s' ∉ pre) -> b = false).
Proof.
  intros Hrun. apply run_follows in Hrun.
  apply follows_known in Hrun as (am & b & Hpre & Hc & Hknown).
  exists b. split; [exact Hknown|].
  destruct (follows_bloom _ _ _ Hpre) as (Hsz & Hhc & _ & Hpt).
  destruct NewAnalyzer_filter as (Hsz0 & Hhc0 & Hfresh).
  rewrite Hsz0 in Hsz. rewrite Hhc0 in Hhc, Hpt.
  assert (Hiff : b = true <->
    forall i, 0 <= i < 3 ->
      exists al' s' j, Emit al' s' ∈ pre /\ 0 <= j < 3
        /\ bitOf (alertKey al') j = bitOf (alertKey al) i).
  { unfold Contains in Hc. rewrite Hhc in Hc. split.
    - intros ->. intros i Hi.
      destruct (proj1 (containsLoop_true _ _ _) Hc i) as (k & Hk & Hb);
        [apply elem_of_seqZ; lia|].
      unfold slot in Hk. rewrite Hsz in Hk. simpl in Hk. injection Hk as <-.
      apply Hpt in Hb as [Hb|(al' & s' & Hin & Hh)]; [now apply Hfresh in Hb|].
      apply (hits_bitOf _ _ _ Hsz0) in Hh as (j & Hj & Hbit).
      exists al', s', j. auto.
    - intros Hcover. destruct b; [reflexivity|exfalso].
      assert (Htrue : containsLoop (seqZ 0 3) (alertKey al) (bloomFilter am)
                      = Some true); [|congruence].
      apply containsLoop_true. intros i Hi. apply elem_of_seqZ in Hi.
      exists (bitOf (alertKey al) i). split.
      + unfold slot. rewrite Hsz. reflexivity.
      + destruct (Hcover i) as (al' & s' & j & Hin & Hj & Hbit); [lia|].
        apply Hpt. right. exists al', s'. split; [exact Hin|].
        apply (hits_bitOf _ _ _ Hsz0). exists j. auto. }
  split; [exact Hiff|]. split.
  - intros (al' & s' & Hin & Hk). apply Hiff. intros i Hi.
    exists al', s', i. repeat split; try lia; [exact Hin|].
    now rewrite Hk.
  - intros Hnone. destruct b; [|reflexivity].
    destruct Hiff as [Hcov _].
    destruct (Hcov eq_refl 0) as (al' & s' & _ & Hin & _); [lia|].
    now apply Hnone in Hin.
Qed.

Lemma repeated_summary :
  summaryOf (run NewAnalyzer repeated)
  = Some [ Some ("Critical Error Level:api", Some (MBool false),
                 Some (MInt 1), Sent);
           Some ("Critical Error Level:api", Some (MBool true),
                 Some (MInt 2), Sent) ].
Proof. vm_compute. reflexivity. Qed.

Lemma C2_witness :
  exists (a' : Analyzer) (al1 al2 : Alert.t),
    run NewAnalyzer repeated = Some (a', [Emit al1 Sent; Emit al2 Sent])
    /\ isKnownPattern al1 = Some (MBool false)
    /\ isKnownPattern al2 = Some (MBool true).
Proof.
  pose proof repeated_summary as Hsum.
  destruct (run NewAnalyzer repeated) as [[a' tr]|] eqn:Hrun;
    [|discriminate Hsum].
  destruct tr as [|[|al1 s1] [|[|al2 s2] [|? ?]]]; try discriminate Hsum.
  simpl in Hsum. injection Hsum as Hk1 _ _ -> Hk2 _ _ ->.
  exists a', al1, al2. split; [reflexivity|].
  destruct (C2_known_pattern_flag repeated a' [] [Emit al2 Sent] al1 Sent Hrun)
    as (b1 & Hb1 & _ & _ & Hfirst).
  destruct (C2_known_pattern_flag repeated a' [Emit al1 Sent] [] al2 Sent Hrun)
    as (b2 & Hb2 & _ & Hlater & _).
  split.
  - rewrite Hb1, Hfirst; [reflexivity|]. intros al' s' Hin. inversion Hin.
  - rewrite Hb2, Hlater; [reflexivity|]. exists al1, Sent. split; [left|].
    now rewrite Hk1, Hk2.
Defined.

Lemma windowed_summary :
  summaryOf (run NewAnalyzer windowed)
  = Some [ Some ("Critical Error Level:api", Some (MBool false),
                 Some (MInt 1), Sent);
           Some ("Critical Error Level:api", Some (MBool true),
                 Some (MInt 2), Sent);
           None;
           Some ("Critical Error Level:api", Some (MBool true),
                 Some (MInt 1), Sent) ].
Proof. vm_compute. reflexivity. Qed.

(** The shape of the trace of [windowed]. *)
Lemma windowed_trace :
  exists (a' : Analyzer) (al1 al2 al3 : Alert.t),
    run NewAnalyzer windowed
    = Some (a', [Emit al1 Sent; Emit al2 Sent; Reset; Emit al3 Sent])
    /\ alertKey al1 = "Critical Error Level:api"
    /\ alertKey al2 = "Critical Error Level:api"
    /\ alertKey al3 = "Critical Error Level:api".
Proof.
  pose proof windowed_summary as Hsum.
  destruct (run NewAnalyzer windowed) as [[a' tr]|] eqn:Hrun;
    [|discriminate Hsum].
  destruct tr as [|[|al1 s1] [|[|al2 s2] [|[|? ?] [|[|al3 s3] [|? ?]]]]];
    try discriminate Hsum.
  simpl in Hsum. injection Hsum as Hk1 _ _ -> Hk2 _ _ -> Hk3 _ _ ->.
  exists a', al1, al2, al3. auto.
Qed.

Lemma interrupted_summary :
  summaryOf (run NewAnalyzer interrupted)
  = Some [ Some ("Critical Error Level:api", Some (MBool false),
                 Some (MInt 1), Shutdown);
           Some ("Critical Error Level:api", Some (MBool true),
                 Some (MInt 2), Sent);
           Some ("Critical Error Level:api", Some (MBool true),
                 Some (MInt 3), Shutdown);
           Some ("Critical Error Level:api", Some (MBool true),
                 Some (MInt 4), Sent) ].
Proof. vm_compute. reflexivity. Qed.

(** C4, as the specification states it, fails: while the shutdown channel
    is closed, [analyze] and the send of an alert may each still take their
    other case, so that of four alerts constructed for one key in one
    window the first and the third are abandoned; the alerts emitted for
    the key carry the counts 2 and 4. *)
Lemma C4_counterexample :
  ~ (forall (evs : list Event) (a' : Analyzer) (pre seg post : list Item)
       (K : string),
       run NewAnalyzer evs = Some (a', pre ++ seg ++ post) ->
       pre = [] \/ (exists pre', pre = pre' ++ [Reset]) ->
       Reset ∉ seg ->
       map countInWindow (enqueuedFor K seg)
       = map (fun z => Some (MInt z))
           (seqZ 1 (Z.of_nat (length (enqueuedFor K seg))))).
Proof.
  intros Hclaim. pose proof interrupted_summary as Hsum.
  destruct (run NewAnalyzer interrupted) as [[a' tr]|] eqn:Hrun;
    [|discriminate Hsum].
  destruct tr as [|[|al1 s1] [|[|al2 s2] [|[|al3 s3] [|[|al4 s4] [|? ?]]]]];
    try discriminate Hsum.
  simpl in Hsum.
  injection Hsum as Hk1 _ _ -> Hk2 _ Hc2 -> Hk3 _ _ -> Hk4 _ Hc4 ->.
  specialize (Hclaim interrupted a' []
                [Emit al1 Shutdown; Emit al2 Sent; Emit al3 Shutdown;
                 Emit al4 Sent] [] "Critical Error Level:api").
  rewrite app_nil_r in Hclaim. specialize (Hclaim Hrun (or_introl eq_refl)).
  unfold enqueuedFor in Hclaim. simpl in Hclaim.
  rewrite Hk2, Hk4 in Hclaim. simpl in Hclaim.
  rewrite Hc2 in Hclaim.
  assert (Hno : Reset ∉ [Emit al1 Shutdown; Emit al2 Sent; Emit al3 Shutdown;
                         Emit al4 Sent]).
  { intros Hin. repeat (apply elem_of_cons in Hin as [Hin|Hin];
                        [discriminate Hin|]). inversion Hin. }
  specialize (Hclaim Hno). discriminate Hclaim.
Qed.

(** C4, amended: for a fixed key K, in every stretch of a run that starts
    at the start of the analyzer's lifetime or right after a window reset
    and contains no reset, the count_in_window values of the successive
    alerts constructed for K, enqueued or abandoned at shutdown, are
    1, 2, 3, ... (with fewer than 2^63 alerts in the stretch); the alerts
    enqueued for K carry a subsequence of these counts, and all of them
    when no send of the stretch observes the shutdown; at the end of the
    stretch the counter of K holds the number of these alerts, zero right
    after a reset; [increment] returns the value it has just stored, one
    more than the old one. *)
Theorem C4_counts_within_window (evs : list Event) (a' : Analyzer)
    (pre seg post : list Item) (K : string) :
  run NewAnalyzer evs = Some (a', pre ++ seg ++ post) ->
  pre = [] \/ (exists pre', pre = pre' ++ [Reset]) ->
  Reset ∉ seg ->
  Z.of_nat (length seg) < 2 ^ 63 ->
  map countInWindow (alertsFor K seg)
  = map (fun z => Some (MInt z))
      (seqZ 1 (Z.of_nat (length (alertsFor K seg))))
  /\ map countInWindow (enqueuedFor K seg)
     `sublist_of` map (fun z => Some (MInt z))
                    (seqZ 1 (Z.of_nat (length (alertsFor K seg))))
  /\ ((forall al s, Emit al s ∈ seg -> s = Sent) ->
      alertsFor K seg = enqueuedFor K seg)
  /\ (post = [] ->
      default 0 (windowCount a' !! K)
      = Z.of_nat (length (alertsFor K seg)))
  /\ (forall (m : gmap string Z) (k : string),
        (increment m k).2 = default 0 ((increment m k).1 !! k)
        /\ (0 <= default 0 (m !! k) < 2 ^ 63 - 1 ->
            (increment m k).2 = default 0 (m !! k) + 1)).
Proof.
  intros Hrun Hstart Hno Hlen.
  apply run_follows in Hrun.
  apply follows_app in Hrun as (a1 & Hpre & Hrest).
  apply follows_app in Hrest as (a2 & Hseg & Hpost).
  assert (H0 : default 0 (windowCount a1 !! K) = 0).
  { eapply follows_window_start; [exact Hpre|].
    destruct Hstart as [->|Hlast]; [left; split; reflexivity|now right]. }
  destruct (follows_counts K _ _ _ Hseg Hno 0 H0) as [Hmap Hfin]; try lia.
  change (0 + 1) with 1 in Hmap. split; [exact Hmap|]. split; [|split; [|split]].
  - rewrite <- Hmap. apply fmap_sublist, enqueuedFor_sublist.
  - apply alertsFor_enqueued.
  - intros ->. inversion Hpost; subst. rewrite Hfin. lia.
  - intros m k. rewrite increment_post. simpl. rewrite lookup_insert_eq.
    split; [reflexivity|]. intros Hm. apply wrapInt_small. lia.
Qed.

Lemma C4_witness :
  exists (a' : Analyzer) (al1 al2 al3 : Alert.t),
    run NewAnalyzer windowed
    = Some (a', [Emit al1 Sent; Emit al2 Sent; Reset; Emit al3 Sent])
    /\ map countInWindow [al1; al2] = [Some (MInt 1); Some (MInt 2)]
    /\ map countInWindow [al3] = [Some (MInt 1)].
Proof.
  destruct windowed_trace
    as (a' & al1 & al2 & al3 & Hrun & Hk1 & Hk2 & Hk3).
  exists a', al1, al2, al3. split; [exact Hrun|].
  assert (Hsmall : forall l : list Item,
            (length l <= 2)%nat -> Z.of_nat (length l) < 2 ^ 63).
  { intros l Hl. apply Z.le_lt_trans with 2; [lia|reflexivity]. }
  split.
  - destruct (C4_counts_within_window windowed a' []
                [Emit al1 Sent; Emit al2 Sent] [Reset; Emit al3 Sent]
                "Critical Error Level:api" Hrun) as [Hmap _].
    + now left.
    + intros Hin. repeat (apply elem_of_cons in Hin as [Hin|Hin];
                          [discriminate Hin|]). inversion Hin.
    + apply Hsmall. simpl. lia.
    + simpl in Hmap. rewrite Hk1, Hk2 in Hmap. exact Hmap.
  - destruct (C4_counts_within_window windowed a'
                [Emit al1 Sent; Emit al2 Sent; Reset]
                [Emit al3 Sent] [] "Critical Error Level:api" Hrun)
      as [Hmap _].
    + right. now exists [Emit al1 Sent; Emit al2 Sent].
    + intros Hin. repeat (apply elem_of_cons in Hin as [Hin|Hin];
                          [discriminate Hin|]). inversion Hin.
    + apply Hsmall. simpl. lia.
    + simpl in Hmap. rewrite Hk3 in Hmap. exact Hmap.
Defined.



Lemma parse_scenario `{UnicodeTables} : parser.parse scenario = scenarioParsed.
Proof. vm_compute. reflexivity. Qed.

(** Scenario S2: a 5xx code in an ERROR record fires the second and the
    fourth rule. *)
Example scenario_S2 :
  detail (processLog NewAnalyzer
            (parsed "ERROR" "api" "upstream returned 503 timeout")
            (quiet "t"))
  = Some [ ("Error Code 5xx", "HIGH",
            parsed "ERROR" "api" "upstream returned 503 timeout",
            Some (MBool false), Some (MInt 1));
           ("Error Rate Threshold", "MEDIUM",
            parsed "ERROR" "api" "upstream returned 503 timeout",
            Some (MBool false), Some (MInt 1)) ].
Proof. vm_compute. reflexivity. Qed.

(** C5: for every record processed on an analyzer whose filter is as
    [NewBloomFilter] builds it, when no send observes the shutdown,
    [processLog] returns and the alerts it enqueues are exactly one per rule
    whose predicate holds, carrying that rule's name and severity and the
    record, in the order of the rule list; the default rules are registered
    in the order Critical Error Level, Error Code 5xx, Suspicious Keywords,
    Error Rate Threshold. *)
Theorem C5_one_alert_per_firing_rule (a : Analyzer)
    (logEntry : parser.ParsedLog) (env : nat -> Obs) :
  wfAnalyzer a ->
  (forall j, obsSelect (env j) = Sent) ->
  exists (a' : Analyzer) (tr : list Item),
    processLog a logEntry env = Some (a', tr)
    /\ map (fun al => (Alert.Reason al, Alert.Severity al, Alert.Log al))
         (enqueued tr)
       = map (fun r => (Rule.Name r, Rule.Severity r, logEntry))
           (List.filter (fun r => Rule.Check r logEntry) (rules a))
    /\ length (enqueued tr)
       = length (List.filter (fun r => Rule.Check r logEntry) (rules a))
    /\ map Rule.Name (rules NewAnalyzer)
       = ["Critical Error Level"; "Error Code 5xx"; "Suspicious Keywords";
          "Error Rate Threshold"].
Proof.
  intros Hwf Hsent.
  destruct (processRules_total logEntry env (rules a) 0%nat a Hwf)
    as [[a' tr] Hrun].
  exists a', tr. split; [exact Hrun|].
  pose proof (processRules_sent _ _ _ Hsent _ _ _ _ Hrun) as Hmap.
  split; [exact Hmap|]. split; [|reflexivity].
  apply (f_equal (@length _)) in Hmap. now rewrite !length_map in Hmap.
Qed.

Lemma C5_witness :
  exists (a' : Analyzer) (tr : list Item),
    processLog NewAnalyzer scenarioParsed (quiet "t") = Some (a', tr)
    /\ map Alert.Reason (enqueued tr)
       = ["Critical Error Level"; "Suspicious Keywords"].
Proof.
  destruct (C5_one_alert_per_firing_rule NewAnalyzer scenarioParsed (quiet "t")
              NewAnalyzer_wf (fun _ => eq_refl))
    as (a' & tr & Hrun & Hmap & _).
  exists a', tr. split; [exact Hrun|].
  apply (f_equal (map (fun x : string * string * parser.ParsedLog => x.1.1)))
    in Hmap.
  rewrite !map_map in Hmap. exact Hmap.
Defined.

Lemma scenario_detail (n0 n2 : string) (r0 r2 : bool) :
  detail (processLog NewAnalyzer scenarioParsed (twoObs n0 r0 n2 r2))
  = Some [ ("Critical Error Level", "HIGH", scenarioParsed,
            Some (MBool false), Some (MInt 1));
           ("Suspicious Keywords", "MEDIUM", scenarioParsed,
            Some (MBool false), Some (MInt 1)) ].
Proof. destruct r0, r2; vm_compute; reflexivity. Qed.

Lemma scenario_env (env : nat -> Obs) :
  (forall j, obsSelect (env j) = Sent) ->
  processLog NewAnalyzer scenarioParsed env
  = processLog NewAnalyzer scenarioParsed
      (twoObs (obsNow (env 0%nat)) (obsReset (env 0%nat))
         (obsNow (env 2%nat)) (obsReset (env 2%nat))).
Proof.
  intros Hsent. apply processRules_ext. intros j r Hj Hr.
  change (rules NewAnalyzer) with defaultRules in Hj.
  destruct j as [|[|[|[|j]]]]; simpl in Hj; try discriminate Hj;
    injection Hj as <-; try discriminate Hr; simpl.
  - specialize (Hsent 0%nat). destruct (env 0%nat). simpl in *. now subst.
  - specialize (Hsent 2%nat). destruct (env 2%nat). simpl in *. now subst.
Qed.

(** C6: parsing the record of scenario S1 and processing it on a fresh
    analyzer, with no shutdown observed, enqueues exactly two alerts:
    Critical Error Level with severity HIGH, then Suspicious Keywords with
    severity MEDIUM; each has count_in_window 1, is_known_pattern false,
    the IP 10.0.0.1 and the keyword breach in its log. *)
Theorem C6_scenario_critical_path `{UnicodeTables} (env : nat -> Obs) :
  (forall j, obsSelect (env j) = Sent) ->
  exists (a' : Analyzer) (tr : list Item) (al1 al2 : Alert.t),
    processLog NewAnalyzer (parser.parse scenario) env = Some (a', tr)
    /\ enqueued tr = [al1; al2]
    /\ Alert.Reason al1 = "Critical Error Level"
    /\ Alert.Severity al1 = "HIGH"
    /\ Alert.Reason al2 = "Suspicious Keywords"
    /\ Alert.Severity al2 = "MEDIUM"
    /\ forall al : Alert.t, al ∈ [al1; al2] ->
         countInWindow al = Some (MInt 1)
         /\ isKnownPattern al = Some (MBool false)
         /\ parser.IP (Alert.Log al) = "10.0.0.1"
         /\ "breach" ∈ parser.Keywords (Alert.Log al).
Proof.
  intros Hsent. rewrite parse_scenario, (scenario_env env Hsent).
  pose proof (scenario_detail (obsNow (env 0%nat)) (obsNow (env 2%nat))
                (obsReset (env 0%nat)) (obsReset (env 2%nat))) as Hd.
  destruct (processLog NewAnalyzer scenarioParsed _) as [[a' tr]|];
    [|discriminate Hd].
  simpl in Hd. injection Hd as Hd.
  destruct (enqueued tr) as [|al1 [|al2 [|? ?]]] eqn:Hq; try discriminate Hd.
  injection Hd as E1 E2 E3 E4 E5 E6 E7 E8 E9 E10.
  exists a', tr, al1, al2.
  split; [reflexivity|]. split; [exact Hq|].
  repeat (split; [assumption|]).
  intros al Hal.
  assert (Hal' : Alert.Log al = scenarioParsed
                 /\ countInWindow al = Some (MInt 1)
                 /\ isKnownPattern al = Some (MBool false)).
  { apply elem_of_cons in Hal as [->|Hal]; [auto|].
    apply list_elem_of_singleton in Hal as ->. auto. }
  destruct Hal' as (-> & Hc & Hk).
  split; [exact Hc|]. split; [exact Hk|]. split; [reflexivity|].
  simpl. right. left.
Qed.

Lemma C6_witness :
  exists (a' : Analyzer) (tr : list Item) (al1 al2 : Alert.t),
    processLog NewAnalyzer (@parser.parse asciiTables scenario) (quiet "t")
    = Some (a', tr)
    /\ enqueued tr = [al1; al2]
    /\ Alert.Reason al1 = "Critical Error Level"
    /\ Alert.Reason al2 = "Suspicious Keywords".
Proof.
  destruct (@C6_scenario_critical_path asciiTables (quiet "t")
              (fun _ => eq_refl))
    as (a' & tr & al1 & al2 & Hrun & Hq & Hr1 & _ & Hr2 & _).
  exists a', tr, al1, al2. auto.
Defined.

(** C10: when the send of the alert of a firing rule observes the shutdown
    (the sends of the firing rules before it having succeeded), the Bloom
    filter contains the key of that rule and record and the window counter
    holds the incremented count that the abandoned alert carries; the alert
    is not enqueued; and the result is the same whatever rules follow in
    the list, so that none of them is evaluated. *)
Theorem C10_shutdown_keeps_filter_and_count (a : Analyzer)
    (logEntry : parser.ParsedLog) (env : nat -> Obs)
    (rs1 : list Rule.t) (rule : Rule.t) (rs2 : list Rule.t)
    (a' : Analyzer) (tr : list Item) :
  rules a = rs1 ++ rule :: rs2 ->
  Rule.Check rule logEntry = true ->
  (forall (j : nat) (r : Rule.t),
     rs1 !! j = Some r -> Rule.Check r logEntry = true ->
     obsSelect (env j) = Sent) ->
  obsSelect (env (length rs1)) = Shutdown ->
  processLog a logEntry env = Some (a', tr) ->
  exists (am : Analyzer) (tr1 : list Item) (al : Alert.t) (c : Z),
    processRules rs1 0 a logEntry env = Some (am, tr1)
    /\ tr = tr1 ++ (tickBefore (env (length rs1)) am).2 ++ [Emit al Shutdown]
    /\ enqueued tr = enqueued tr1
    /\ alertKey al = key (Rule.Name rule) (parser.Source logEntry)
    /\ Alert.Reason al = Rule.Name rule
    /\ c = wrapInt
             (default 0
                (windowCount (tickBefore (env (length rs1)) am).1
                   !! key (Rule.Name rule) (parser.Source logEntry)) + 1)
    /\ countInWindow al = Some (MInt c)
    /\ windowCount a' !! key (Rule.Name rule) (parser.Source logEntry) = Some c
    /\ Contains (bloomFilter a') (key (Rule.Name rule) (parser.Source logEntry))
       = Some true
    /\ forall rs2' : list Rule.t,
         processRules (rs1 ++ rule :: rs2') 0 a logEntry env = Some (a', tr).
Proof.
  intros Hrules Hfire Hsent Hshut Hrun.
  unfold processLog in Hrun. rewrite Hrules in Hrun.
  pose proof (fun rs => processRules_shutdown logEntry env rule rs rs1 Hfire
                          0%nat a Hsent Hshut) as Heq.
  simpl in Heq. rewrite Heq in Hrun.
  destruct (processRules rs1 0 a logEntry env) as [[am tr1]|] eqn:H1;
    [|discriminate Hrun].
  simpl in Hrun.
  destruct (fire (tickBefore (env (length rs1)) am).1 rule logEntry _)
    as [[a1 al]|] eqn:Hf; [|discriminate Hrun].
  simpl in Hrun. injection Hrun as <- <-.
  pose proof (fire_inv _ _ _ _ _ _ Hf)
    as (b & _ & Hadd & _ & Hwc & _ & _ & Hreason & _ & Hkey & _ & Hcount & _).
  eexists am, tr1, al, _. split; [reflexivity|]. split; [reflexivity|].
  split.
  { rewrite !enqueued_app.
    destruct (tickBefore_cases (env (length rs1)) am) as [-> | ->]; simpl;
      now rewrite app_nil_r. }
  split; [exact Hkey|]. split; [exact Hreason|]. split; [reflexivity|].
  split; [exact Hcount|]. split; [now rewrite Hwc, lookup_insert_eq|].
  split; [eapply Add_then_Contains; exact Hadd|].
  intros rs2'. rewrite Heq. simpl. now rewrite Hf.
Qed.

Lemma C10_witness :
  exists (a' : Analyzer) (tr : list Item) (c : Z),
    processLog NewAnalyzer scenarioParsed shutdownAtThird = Some (a', tr)
    /\ windowCount a' !! "Suspicious Keywords:db" = Some c
    /\ Contains (bloomFilter a') "Suspicious Keywords:db" = Some true.
Proof.
  destruct (processRules_total scenarioParsed shutdownAtThird
              (rules NewAnalyzer) 0%nat NewAnalyzer NewAnalyzer_wf)
    as [[a' tr] Hrun].
  destruct (C10_shutdown_keeps_filter_and_count NewAnalyzer scenarioParsed
              shutdownAtThird (take 2 defaultRules) (nth 2 defaultRules noRule)
              (drop 3 defaultRules) a' tr)
    as (am & tr1 & al & c & _ & _ & _ & _ & _ & _ & _ & Hwc & Hc & _).
  - reflexivity.
  - reflexivity.
  - intros [|[|j]] r Hj Hr; try reflexivity. discriminate Hj.
  - reflexivity.
  - exact Hrun.
  - exists a', tr, c. split; [exact Hrun|]. split; [exact Hwc|exact Hc].
Defined.

End analyzer_claims.

(** * The start-up of the ingestor: every schedule *)

Module ingestor_facts.
Import ingestor ingestor_spec.

Lemma exec_snoc (os : Ports) (sched : list Thread) (t : Thread) (p : Process) :
  exec os (sched ++ [t]) p = step os (exec os sched p) t.
Proof. unfold exec. now rewrite fold_left_app. Qed.

Lemma callerSteps_snoc (sched : list Thread) (t : Thread) :
  callerSteps (sched ++ [t])
  = (callerSteps sched + match t with Caller => 1 | Go _ => 0 end)%nat.
Proof.
  induction sched as [|[|g] sched IH]; simpl; [now destruct t|lia|exact IH].
Qed.

(** One step leads from a reached state to a reached state. *)
Lemma step_reached (os : Ports) (hp tp : string) (t : Thread) (n : nat)
    (hran tran : bool) (log : list string) :
  (n <= 5)%nat -> (hran = true -> (2 <= n)%nat) ->
  (tran = true -> (3 <= n)%nat) ->
  logHolds os hp tp n hran tran log ->
  exists (n' : nat) (hran' tran' : bool) (log' : list string),
    step os (reached os hp tp n hran tran log) t
    = reached os hp tp n' hran' tran' log'
    /\ (n' <= 5)%nat /\ (hran' = true -> (2 <= n')%nat)
    /\ (tran' = true -> (3 <= n')%nat)
    /\ logHolds os hp tp n' hran' tran' log'
    /\ n' = match t with
            | Caller => Nat.min 5 (S n)
            | Go _ => n
            end.
Proof.
  intros Hn Hh Ht (Hlh & Hlt & Hls).
  assert (Hkeep : forall extra n', (n' <= S n)%nat -> (n' <= 3)%nat ->
            logHolds os hp tp n' hran tran (log ++ extra)).
  { intros extra n' Hle Hle3. split; [|split].
    - intros Hx err He. apply elem_of_app. left. now apply Hlh.
    - intros Hx err He. apply elem_of_app. left. now apply Hlt.
    - lia. }
  destruct t as [|[|]].
  - destruct n as [|[|[|[|[|[|n]]]]]]; try lia.
    + destruct hran; [specialize (Hh eq_refl); lia|].
      destruct tran; [specialize (Ht eq_refl); lia|].
      exists 1%nat, false, false, log. split; [reflexivity|].
      repeat split; try lia; try discriminate.
    + destruct hran; [specialize (Hh eq_refl); lia|].
      destruct tran; [specialize (Ht eq_refl); lia|].
      exists 2%nat, false, false, log. split; [reflexivity|].
      repeat split; try lia; try discriminate.
    + destruct tran; [specialize (Ht eq_refl); lia|].
      exists 3%nat, hran, false, log. split.
      { destruct hran; reflexivity. }
      repeat split; try lia; try discriminate; auto.
    + exists 4%nat, hran, tran, (log ++ [startedLine hp tp]).
      split; [reflexivity|]. repeat split; try lia.
      * intros Hx err He. apply elem_of_app. left. now apply Hlh.
      * intros Hx err He. apply elem_of_app. left. now apply Hlt.
      * intros _. apply elem_of_app. right. left.
    + exists 5%nat, hran, tran, log. split; [reflexivity|].
      repeat split; try lia; auto; intros _; apply Hls; lia.
    + exists 5%nat, hran, tran, log. split; [reflexivity|].
      repeat split; try lia; auto.
  - destruct ((2 <=? n)%nat && negb hran) eqn:Hc.
    + apply andb_true_iff in Hc as [Hn2 Hr]. apply Nat.leb_le in Hn2.
      destruct hran; [discriminate|]. clear Hr.
      exists n, true, tran,
        (log ++ match listenHTTP os with
                | Some err => ["HTTP server error: " +:+ err]
                | None => []
                end).
      split.
      { assert (E2 : (2 <=? n)%nat = true) by now apply Nat.leb_le.
        unfold step, runGoroutine, reached, startHTTPServer.
        cbn -[Nat.leb Nat.ltb]. rewrite E2. cbn -[Nat.leb Nat.ltb].
        destruct ((3 <=? n)%nat && negb tran); cbn -[Nat.leb Nat.ltb];
          destruct (listenHTTP os); cbn -[Nat.leb Nat.ltb];
          rewrite ?app_nil_r; do 2 f_equal; lia. }
      repeat split; try lia; auto.
      * intros _ err He. rewrite He. apply elem_of_app. right. left.
      * intros Hx err He. apply elem_of_app. left. now apply Hlt.
      * intros Hx. apply elem_of_app. left. now apply Hls.
    + exists n, hran, tran, log. split.
      { unfold step, runGoroutine, reached. cbn -[Nat.leb Nat.ltb].
        rewrite Hc. cbn -[Nat.leb Nat.ltb].
        now destruct ((3 <=? n)%nat && negb tran). }
      repeat split; auto.
  - destruct ((3 <=? n)%nat && negb tran) eqn:Hc.
    + apply andb_true_iff in Hc as [Hn3 Hr]. apply Nat.leb_le in Hn3.
      destruct tran; [discriminate|]. clear Hr.
      exists n, hran, true,
        (log ++ match listenTCP os with
                | Some err => ["TCP server error: " +:+ err]
                | None => []
                end).
      split.
      { assert (E3 : (3 <=? n)%nat = true) by now apply Nat.leb_le.
        unfold step, runGoroutine, reached, startTCPServer.
        cbn -[Nat.leb Nat.ltb]. rewrite E3. cbn -[Nat.leb Nat.ltb].
        destruct ((2 <=? n)%nat && negb hran); cbn -[Nat.leb Nat.ltb];
          destruct (listenTCP os); cbn -[Nat.leb Nat.ltb];
          rewrite ?app_nil_r, ?andb_false_r, ?andb_true_r;
          cbn -[Nat.leb Nat.ltb]; do 2 f_equal; lia. }
      repeat split; try lia; auto.
      * intros Hx err He. apply elem_of_app. left. now apply Hlh.
      * intros _ err He. rewrite He. apply elem_of_app. right. left.
      * intros Hx. apply elem_of_app. left. now apply Hls.
    + exists n, hran, tran, log. split.
      { unfold step, runGoroutine, reached. cbn -[Nat.leb Nat.ltb].
        rewrite Hc. cbn -[Nat.leb Nat.ltb]. rewrite app_nil_r.
        now destruct ((2 <=? n)%nat && negb hran). }
      repeat split; auto.
Qed.

(** Every schedule leads from a new ingestor to a reached state, in which
    [Start] has executed as many statements as the caller had steps. *)
Lemma exec_reached (os : Ports) (hp tp : string) (sched : list Thread) :
  exists (n : nat) (hran tran : bool) (log : list string),
    exec os sched (boot (NewIngestor hp tp))
    = reached os hp tp n hran tran log
    /\ n = Nat.min 5 (callerSteps sched)
    /\ (hran = true -> (2 <= n)%nat)
    /\ (tran = true -> (3 <= n)%nat)
    /\ logHolds os hp tp n hran tran log.
Proof.
  induction sched as [|t sched IH] using rev_ind.
  - exists 0%nat, false, false, []. split; [reflexivity|].
    split; [reflexivity|]. split; [discriminate|]. split; [discriminate|].
    split; [discriminate|]. split; [discriminate|]. simpl. lia.
  - destruct IH as (n & hran & tran & log & Hex & Hn & Hh & Ht & Hlog).
    rewrite exec_snoc, Hex.
    destruct (step_reached os hp tp t n hran tran log ltac:(lia) Hh Ht Hlog)
      as (n' & hran' & tran' & log' & Hst & Hn' & Hh' & Ht' & Hlog' & Hpc).
    exists n', hran', tran', log'. split; [exact Hst|].
    split; [|auto]. rewrite callerSteps_snoc, Hpc. destruct t; lia.
Qed.

End ingestor_facts.

Module ingestor_claims.
Import ingestor ingestor_spec ingestor_facts.

(** A schedule in which each goroutine reaches its listener before
    [Start] returns, and one in which both do so afterwards. *)
Example start_schedules :
  let early := exec portTaken
                 [Caller; Caller; Go HTTPServer; Caller; Go TCPServer;
                  Caller; Caller] (boot (NewIngestor "8080" "9090")) in
  let late := exec portTaken
                [Caller; Caller; Caller; Caller; Caller; Go TCPServer;
                 Go HTTPServer] (boot (NewIngestor "8080" "9090")) in
  result early = Some None /\ launched (state early) = []
  /\ result late = Some None /\ launched (state late) = []
  /\ logged (state early)
     = ["TCP server error: listen tcp :9090: bind: address already in use";
        "Ingestor started on HTTP: 8080 and TCP: 9090"]
  /\ logged (state late)
     = ["Ingestor started on HTTP: 8080 and TCP: 9090";
        "TCP server error: listen tcp :9090: bind: address already in use"].
Proof. vm_compute. repeat split. Qed.

(** C1: with the TCP port taken, under every interleaving of [Start] and
    the goroutines it launches, [Start] never returns an error: once its
    five statements have run it has returned nil. The TCP surface never
    accepts, and when [Start] has returned and both goroutines have
    reached their listeners, the HTTP surface accepts, the bind error has
    only been logged by the TCP goroutine, which has ended (the wait group
    is down to one). *)
Theorem C1_start_returns_nil_with_tcp_port_taken (sched : list Thread) :
  let p := exec portTaken sched (boot (NewIngestor "8080" "9090")) in
  (forall err : string, result p <> Some (Some err))
  /\ ((5 <= callerSteps sched)%nat -> result p = Some None)
  /\ tcpAccepting (state p) = false
  /\ (result p = Some None -> launched (state p) = [] ->
      httpAccepting (state p) = true
      /\ "TCP server error: listen tcp :9090: bind: address already in use"
         ∈ logged (state p)
      /\ wg (state p) = 1).
Proof.
  destruct (exec_reached portTaken "8080" "9090" sched)
    as (n & hran & tran & log & -> & Hn & Hh & Ht & Hlh & Hlt & Hls).
  cbn -[Nat.leb Nat.ltb]. split; [|split; [|split]].
  - intros err. now destruct (n <? 5)%nat.
  - intros Hsteps. replace n with 5%nat by lia. reflexivity.
  - apply andb_false_r.
  - intros Hres Hlaunched.
    assert (Hn5 : n = 5%nat).
    { destruct (n <? 5)%nat eqn:E; [discriminate|].
      apply Nat.ltb_ge in E. lia. }
    subst n. rewrite Hn5 in *.
    destruct hran; [|discriminate Hlaunched].
    destruct tran; [|discriminate Hlaunched].
    split; [reflexivity|]. split; [|reflexivity].
    now apply Hlt.
Qed.

End ingestor_claims.

(** * The matcher against the meaning of the patterns *)

Module regexp_facts.
Import GoStrings GoRegexp regexp_spec.

Lemma lastOr_nil (prev : option ascii) : lastOr prev [] = prev.
Proof. reflexivity. Qed.

Lemma lastOr_app (prev : option ascii) (w1 w2 : list ascii) :
  lastOr (lastOr prev w1) w2 = lastOr prev (w1 ++ w2).
Proof.
  unfold lastOr. rewrite last_app. destruct (last w2); reflexivity.
Qed.

Lemma lastOr_snoc (prev : option ascii) (w : list ascii) (c : ascii) :
  lastOr prev (w ++ [c]) = Some c.
Proof. unfold lastOr. now rewrite last_snoc. Qed.

(** The matcher finds a match exactly when the pattern has one that the
    continuation accepts; what it returns is what the continuation
    returns on some match. *)
Lemma rmatch_sound (r : Regex) :
  forall prev s k x,
  rmatch r prev s k = Some x ->
  exists w rest, s = w ++ rest /\ Den r prev w rest
                 /\ k (lastOr prev w) rest = Some x.
Proof.
  induction r as [|c|p|r1 IH1 r2 IH2|r1 IH1 r2 IH2|]; intros prev s k x H;
    simpl in H.
  - exists [], s. repeat split; [constructor|exact H].
  - destruct s as [|c' s]; [discriminate|].
    destruct (Ascii.eqb c c') eqn:E; [|discriminate].
    apply Ascii.eqb_eq in E as <-.
    exists [c], s. repeat split; [constructor|exact H].
  - destruct s as [|c' s]; [discriminate|].
    destruct (p c') eqn:E; [|discriminate].
    exists [c'], s. repeat split; [now constructor|exact H].
  - apply IH1 in H as (w1 & rest1 & -> & H1 & H).
    apply IH2 in H as (w2 & rest & -> & H2 & H).
    exists (w1 ++ w2), rest. rewrite <- app_assoc. repeat split.
    + now constructor.
    + now rewrite <- lastOr_app.
  - destruct (rmatch r1 prev s k) as [y|] eqn:E.
    + injection H as ->. apply IH1 in E as (w & rest & -> & H1 & H).
      exists w, rest. repeat split; [now apply Den_AltL|exact H].
    + apply IH2 in H as (w & rest & -> & H2 & H).
      exists w, rest. repeat split; [now apply Den_AltR|exact H].
  - destruct (xorb (wordBefore prev) (wordAfter s)) eqn:E; [|discriminate].
    exists [], s. repeat split; [now constructor|exact H].
Qed.

Lemma rmatch_complete (r : Regex) :
  forall prev w rest k,
  Den r prev w rest -> is_Some (k (lastOr prev w) rest) ->
  is_Some (rmatch r prev (w ++ rest) k).
Proof.
  intros prev w rest k HD. revert k.
  induction HD as [prev rest|c prev rest|p c prev rest Hp
                  |r1 r2 prev w1 w2 rest _ IH1 _ IH2
                  |r1 r2 prev w rest _ IH|r1 r2 prev w rest _ IH
                  |prev rest Hb]; intros k Hk; simpl.
  - exact Hk.
  - now rewrite Ascii.eqb_refl.
  - now rewrite Hp.
  - rewrite <- app_assoc. apply IH1. apply IH2.
    now rewrite lastOr_app.
  - destruct (IH k Hk) as [y ->]. now eexists.
  - destruct (rmatch r1 prev (w ++ rest) k); [now eexists|]. now apply IH.
  - now rewrite Hb.
Qed.

Lemma matchAt_Some (r : Regex) (prev : option ascii) (s m : list ascii) :
  matchAt r prev s = Some m -> exists rest, s = m ++ rest /\ Den r prev m rest.
Proof.
  unfold matchAt.
  destruct (rmatch r prev s _) as [rest|] eqn:E; [|discriminate].
  intros [= <-]. apply rmatch_sound in E as (w & rest' & -> & HD & Hk).
  injection Hk as ->.
  exists rest. rewrite length_app.
  replace (length w + length rest - length rest)%nat with (length w) by lia.
  now rewrite take_app_length.
Qed.

Lemma matchAt_None (r : Regex) (prev : option ascii) (m rest : list ascii) :
  matchAt r prev (m ++ rest) = None -> ~ Den r prev m rest.
Proof.
  unfold matchAt. intros H HD.
  destruct (rmatch_complete r prev m rest (fun _ rest => Some rest) HD)
    as [y Hy]; [now eexists|].
  now rewrite Hy in H.
Qed.

(** [findFrom] returns an occurrence that starts at the leftmost position
    at which any occurrence starts. *)
Lemma findFrom_Some (r : Regex) (s : list ascii) :
  forall (done : list ascii) (m : list ascii),
  findFrom r (lastOr None done) s = Some m ->
  exists pre rest,
    s = pre ++ m ++ rest
    /\ Den r (lastOr None (done ++ pre)) m rest
    /\ forall pre' m' rest',
         s = pre' ++ m' ++ rest' ->
         Den r (lastOr None (done ++ pre')) m' rest' ->
         (length pre <= length pre')%nat.
Proof.
  induction s as [|c s IH]; intros done m H; simpl in H.
  - destruct (matchAt r _ []) as [m0|] eqn:E; [|discriminate].
    injection H as ->. apply matchAt_Some in E as (rest & Hs & HD).
    exists [], rest. rewrite app_nil_r. repeat split; auto. simpl. lia.
  - destruct (matchAt r _ (c :: s)) as [m0|] eqn:E.
    + injection H as ->. apply matchAt_Some in E as (rest & Hs & HD).
      exists [], rest. rewrite app_nil_r. repeat split; auto. simpl. lia.
    + rewrite <- (lastOr_snoc None done c) in H.
      apply IH in H as (pre & rest & -> & HD & Hleft).
      exists (c :: pre), rest. rewrite <- app_assoc in HD.
      repeat split; auto.
      intros pre' m' rest' Hs HD'. destruct pre' as [|c' pre'].
      * exfalso. rewrite app_nil_r in HD'. simpl in Hs. rewrite Hs in E.
        now apply matchAt_None in E.
      * simpl in Hs. injection Hs as <- Hs. simpl.
        apply le_n_S. apply (Hleft pre' m' rest' Hs).
        now rewrite <- app_assoc.
Qed.

Lemma findFrom_None (r : Regex) (s : list ascii) :
  forall (done : list ascii),
  findFrom r (lastOr None done) s = None ->
  forall pre m rest,
    s = pre ++ m ++ rest -> ~ Den r (lastOr None (done ++ pre)) m rest.
Proof.
  induction s as [|c s IH]; intros done H pre m rest Hs HD; simpl in H.
  - destruct (matchAt r _ []) as [m0|] eqn:E; [discriminate|].
    symmetry in Hs. apply app_eq_nil in Hs as [-> Hs].
    apply app_eq_nil in Hs as [-> ->]. rewrite app_nil_r in HD.
    now apply (matchAt_None r _ [] []) in E.
  - destruct (matchAt r _ (c :: s)) as [m0|] eqn:E; [discriminate|].
    destruct pre as [|c' pre].
    + rewrite app_nil_r in HD. simpl in Hs. rewrite Hs in E.
      now apply matchAt_None in E.
    + simpl in Hs. injection Hs as <- Hs.
      rewrite <- (lastOr_snoc None done c) in H.
      apply (IH _ H pre m rest Hs). now rewrite <- app_assoc.
Qed.

End regexp_facts.

(** * What the parser extracts *)

Module extraction_facts.
Import GoStrings GoRegexp regexp_spec regexp_facts parser extraction_spec.

Lemma Den_Eps_inv prev w rest : Den Eps prev w rest -> w = [].
Proof. intros H. now inversion H. Qed.

Lemma Den_Chr_inv c prev w rest : Den (Chr c) prev w rest -> w = [c].
Proof. intros H. now inversion H. Qed.

Lemma Den_Cls_inv p prev w rest :
  Den (Cls p) prev w rest -> exists c, w = [c] /\ p c = true.
Proof. intros H. inversion H; subst. eauto. Qed.

Lemma Den_Cat_inv r1 r2 prev w rest :
  Den (Cat r1 r2) prev w rest ->
  exists w1 w2, w = w1 ++ w2 /\ Den r1 prev w1 (w2 ++ rest)
                /\ Den r2 (lastOr prev w1) w2 rest.
Proof. intros H. inversion H; subst. eauto. Qed.

Lemma Den_Alt_inv r1 r2 prev w rest :
  Den (Alt r1 r2) prev w rest -> Den r1 prev w rest \/ Den r2 prev w rest.
Proof. intros H. inversion H; subst; auto. Qed.

Lemma Den_WordB_inv prev w rest :
  Den WordB prev w rest ->
  w = [] /\ xorb (wordBefore prev) (wordAfter rest) = true.
Proof. intros H. inversion H; subst; auto. Qed.

Lemma Den_repExact (p : ascii -> bool) (n : nat) :
  forall prev w rest,
  Den (repExact n (Cls p)) prev w rest <->
  length w = n /\ Forall (fun c => p c = true) w.
Proof.
  induction n as [|n IH]; intros prev w rest; simpl.
  - split.
    + intros H. apply Den_Eps_inv in H as ->. auto.
    + intros [Hl _]. apply nil_length_inv in Hl as ->. constructor.
  - split.
    + intros H. apply Den_Cat_inv in H as (w1 & w2 & -> & H1 & H2).
      apply Den_Cls_inv in H1 as (c & -> & Hc).
      apply IH in H2 as [<- HF]. split; [reflexivity|].
      now apply Forall_cons.
    + intros [Hl HF]. destruct w as [|c w]; [discriminate|].
      apply Forall_cons in HF as [Hc HF].
      change (c :: w) with ([c] ++ w). constructor.
      * now constructor.
      * apply IH. split; [simpl in Hl; lia|auto].
Qed.

Lemma Den_repUpTo (p : ascii -> bool) (n : nat) :
  forall prev w rest,
  Den (repUpTo n (Cls p)) prev w rest <->
  (length w <= n)%nat /\ Forall (fun c => p c = true) w.
Proof.
  induction n as [|n IH]; intros prev w rest; simpl.
  - split.
    + intros H. apply Den_Eps_inv in H as ->. auto.
    + intros [Hl _]. destruct w; [constructor|simpl in Hl; lia].
  - split.
    + intros H. apply Den_Alt_inv in H as [H|H].
      * apply Den_Cat_inv in H as (w1 & w2 & -> & H1 & H2).
        apply Den_Cls_inv in H1 as (c & -> & Hc).
        apply IH in H2 as [Hl HF]. simpl. split; [lia|].
        now apply Forall_cons.
      * apply Den_Eps_inv in H as ->. simpl. split; [lia|auto].
    + intros [Hl HF]. destruct w as [|c w].
      * apply Den_AltR. constructor.
      * apply Forall_cons in HF as [Hc HF].
        apply Den_AltL. change (c :: w) with ([c] ++ w). constructor.
        -- now constructor.
        -- apply IH. split; [simpl in Hl; lia|auto].
Qed.

Lemma Den_Rep (p : ascii -> bool) (lo hi : nat) prev w rest :
  (lo <= hi)%nat ->
  Den (Rep lo hi (Cls p)) prev w rest <->
  (lo <= length w <= hi)%nat /\ Forall (fun c => p c = true) w.
Proof.
  intros Hle. unfold Rep. split.
  - intros H. apply Den_Cat_inv in H as (w1 & w2 & -> & H1 & H2).
    apply Den_repExact in H1 as [Hl1 HF1].
    apply Den_repUpTo in H2 as [Hl2 HF2]. rewrite length_app. split; [lia|].
    now apply Forall_app.
  - intros [Hl HF]. rewrite <- (take_drop lo w). constructor.
    + apply Den_repExact. split.
      * rewrite length_take. lia.
      * now apply Forall_take.
    + apply Den_repUpTo. split.
      * rewrite length_drop. lia.
      * now apply Forall_drop.
Qed.

Lemma Den_group prev w rest :
  Den (Cat (Rep 1 3 (Cls isDigit)) (Chr ".")) prev w rest <->
  exists g, w = g ++ ["."%char] /\ digits 1 3 g.
Proof.
  split.
  - intros H. apply Den_Cat_inv in H as (w1 & w2 & -> & H1 & H2).
    apply Den_Chr_inv in H2 as ->. apply Den_Rep in H1; [|lia]. now exists w1.
  - intros (g & -> & Hg). constructor; [|constructor].
    apply Den_Rep; [lia|exact Hg].
Qed.

Lemma isDigit_isWord (c : ascii) : isDigit c = true -> isWord c = true.
Proof. unfold isDigit, isWord. cbv zeta. now intros ->. Qed.

Lemma digits_first (g : list ascii) (lo hi : nat) (rest : list ascii) :
  digits (S lo) hi g -> wordAfter (g ++ rest) = true.
Proof.
  intros [Hl HF]. destruct g as [|c g]; [simpl in Hl; lia|].
  apply Forall_cons in HF as [Hc _]. simpl. now apply isDigit_isWord.
Qed.

Lemma digits_last (g : list ascii) (lo hi : nat) (prev : option ascii) :
  digits (S lo) hi g -> wordBefore (lastOr prev g) = true.
Proof.
  intros [Hl HF]. unfold lastOr. destruct (last g) as [d|] eqn:E.
  - simpl. apply isDigit_isWord. apply last_Some_elem_of in E.
    rewrite Forall_forall in HF. auto.
  - apply last_None in E. subst. simpl in Hl. lia.
Qed.

(** What the IP pattern matches. *)
Lemma Den_ipRegex prev m rest :
  Den ipRegex prev m rest <->
  dottedQuad m /\ wordBefore prev = false /\ wordAfter rest = false.
Proof.
  unfold ipRegex. simpl repExact. split.
  - intros H.
    apply Den_Cat_inv in H as (w0 & m1 & -> & Hb1 & H).
    apply Den_WordB_inv in Hb1 as [-> Hb1]. rewrite lastOr_nil in H.
    apply Den_Cat_inv in H as (g3 & m2 & -> & H3 & H).
    apply Den_Cat_inv in H as (d & w9 & -> & Hd & Hb2).
    apply Den_WordB_inv in Hb2 as [-> Hb2].
    apply Den_Cat_inv in H3 as (ga & t1 & -> & Ha & H3).
    apply Den_Cat_inv in H3 as (gb & t2 & -> & Hb & H3).
    apply Den_Cat_inv in H3 as (gc & t3 & -> & Hc & H3).
    apply Den_Eps_inv in H3 as ->.
    apply Den_group in Ha as (a & -> & Ha), Hb as (b & -> & Hb),
        Hc as (c & -> & Hc).
    apply Den_Rep in Hd; [|lia].
    split; [|split].
    + exists a, b, c, d. simpl. rewrite !app_nil_r.
      repeat (rewrite <- ?app_assoc; simpl). auto.
    + simpl in Hb1. repeat (rewrite <- ?app_assoc in Hb1; simpl in Hb1).
      rewrite (digits_first a 0 3 _ Ha) in Hb1.
      destruct (wordBefore prev); [discriminate|reflexivity].
    + rewrite (digits_last d 0 3 _ Hd) in Hb2.
      destruct (wordAfter rest); [discriminate|reflexivity].
  - intros ((a & b & c & d & -> & Ha & Hb & Hc & Hd) & Hp & Hr).
    replace (a ++ "."%char :: b ++ "."%char :: c ++ "."%char :: d)
      with ([] ++ (((a ++ ["."%char]) ++ (b ++ ["."%char])
                    ++ (c ++ ["."%char]) ++ []) ++ (d ++ [])))
      by (simpl; rewrite !app_nil_r;
          repeat (rewrite <- ?app_assoc; simpl); reflexivity).
    constructor.
    + constructor. rewrite Hp. simpl.
      repeat (rewrite <- ?app_assoc; simpl).
      now rewrite (digits_first a 0 3 _ Ha).
    + constructor.
      * constructor; [apply Den_group; eauto|].
        constructor; [apply Den_group; eauto|].
        constructor; [apply Den_group; eauto|]. constructor.
      * constructor; [apply Den_Rep; [lia|exact Hd]|].
        constructor. now rewrite (digits_last d 0 3 _ Hd), Hr.
Qed.

Lemma Den_lit (l : list ascii) : forall prev w rest,
  Den (lit l) prev w rest <-> w = l.
Proof.
  induction l as [|c l IH]; intros prev w rest; simpl.
  - split; [apply Den_Eps_inv|intros ->; constructor].
  - split.
    + intros H. apply Den_Cat_inv in H as (w1 & w2 & -> & H1 & H2).
      apply Den_Chr_inv in H1 as ->. apply IH in H2 as ->. reflexivity.
    + intros ->. change (c :: l) with ([c] ++ l).
      constructor; [constructor|now apply IH].
Qed.

Lemma is45_isWord (c : ascii) : is45 c = true -> isWord c = true.
Proof.
  unfold is45. intros H. apply orb_true_iff in H as [H|H];
    apply Ascii.eqb_eq in H as ->; reflexivity.
Qed.

(** An error token begins and ends with a word byte. *)
Lemma errorToken_word (m : list ascii) :
  errorToken m ->
  Forall (fun c => isWord c = true) m /\ m <> [].
Proof.
  intros [->|[->|[->|(c & d1 & d2 & -> & Hc & H1 & H2)]]].
  - split; [repeat constructor|discriminate].
  - split; [repeat constructor|discriminate].
  - split; [repeat constructor|discriminate].
  - split; [|discriminate].
    repeat constructor; auto using is45_isWord, isDigit_isWord.
Qed.

Lemma word_first (m rest : list ascii) :
  Forall (fun c => isWord c = true) m -> m <> [] ->
  wordAfter (m ++ rest) = true.
Proof.
  intros HF Hne. destruct m as [|c m]; [contradiction|].
  apply Forall_cons in HF as [Hc _]. exact Hc.
Qed.

Lemma word_last (m : list ascii) (prev : option ascii) :
  Forall (fun c => isWord c = true) m -> m <> [] ->
  wordBefore (lastOr prev m) = true.
Proof.
  intros HF Hne. unfold lastOr. destruct (last m) as [d|] eqn:E.
  - simpl. apply last_Some_elem_of in E. rewrite Forall_forall in HF. auto.
  - apply last_None in E. contradiction.
Qed.

(** What the error pattern matches. *)
Lemma Den_errorRegex prev m rest :
  Den errorRegex prev m rest <->
  errorToken m /\ wordBefore prev = false /\ wordAfter rest = false.
Proof.
  unfold errorRegex. split.
  - intros H.
    apply Den_Cat_inv in H as (w0 & m1 & -> & Hb1 & H).
    apply Den_WordB_inv in Hb1 as [-> Hb1]. rewrite lastOr_nil in H.
    apply Den_Cat_inv in H as (t & w9 & -> & Ht & Hb2).
    apply Den_WordB_inv in Hb2 as [-> Hb2].
    assert (Htok : errorToken t).
    { apply Den_Alt_inv in Ht as [Ht|Ht]; [apply Den_lit in Ht; now left|].
      apply Den_Alt_inv in Ht as [Ht|Ht];
        [apply Den_lit in Ht; right; now left|].
      apply Den_Alt_inv in Ht as [Ht|Ht];
        [apply Den_lit in Ht; right; right; now left|].
      apply Den_Cat_inv in Ht as (w1 & w2 & -> & H1 & H2).
      apply Den_Cls_inv in H1 as (c & -> & Hc).
      apply Den_Rep in H2 as [Hl HF]; [|lia].
      destruct w2 as [|d1 [|d2 [|? ?]]]; simpl in Hl; try lia.
      apply Forall_cons in HF as [H1 HF]. apply Forall_cons in HF as [H2 _].
      right; right; right. exists c, d1, d2. auto. }
    destruct (errorToken_word t Htok) as [HF Hne].
    simpl in *. rewrite app_nil_r in *.
    rewrite (word_first t rest HF Hne) in Hb1.
    rewrite (word_last t prev HF Hne) in Hb2.
    split; [exact Htok|]. split.
    + destruct (wordBefore prev); [discriminate|reflexivity].
    + destruct (wordAfter rest); [discriminate|reflexivity].
  - intros (Htok & Hp & Hr).
    destruct (errorToken_word m Htok) as [HF Hne].
    replace m with ([] ++ (m ++ [])) by (simpl; now rewrite app_nil_r).
    constructor.
    + constructor. rewrite Hp. simpl. rewrite app_nil_r.
      now rewrite (word_first m rest HF Hne).
    + constructor.
      * destruct Htok as [->|[->|[->|(c & d1 & d2 & -> & Hc & H1 & H2)]]].
        -- apply Den_AltL. now apply Den_lit.
        -- apply Den_AltR, Den_AltL. now apply Den_lit.
        -- apply Den_AltR, Den_AltR, Den_AltL. now apply Den_lit.
        -- apply Den_AltR, Den_AltR, Den_AltR.
           change [c; d1; d2] with ([c] ++ [d1; d2]).
           constructor; [now constructor|].
           apply Den_Rep; [lia|]. split; [simpl; lia|]. repeat constructor; auto.
      * constructor. rewrite lastOr_nil.
        now rewrite (word_last m prev HF Hne), Hr.
Qed.

(** [FindString]: nothing matches anywhere and the result is empty, or the
    result is a match at the leftmost position where one begins. *)
Lemma FindString_spec (r : Regex) (s : string) :
  (FindString r s = ""
   /\ forall pre m rest,
        bytes s = pre ++ m ++ rest -> ~ Den r (lastOr None pre) m rest)
  \/ (exists pre rest,
        bytes s = pre ++ bytes (FindString r s) ++ rest
        /\ Den r (lastOr None pre) (bytes (FindString r s)) rest
        /\ forall pre' m' rest',
             bytes s = pre' ++ m' ++ rest' ->
             Den r (lastOr None pre') m' rest' ->
             (length pre <= length pre')%nat).
Proof.
  unfold FindString.
  destruct (findFrom r None (bytes s)) as [m|] eqn:E.
  - right. apply (findFrom_Some r (bytes s) []) in E
      as (pre & rest & Hs & HD & Hleft).
    exists pre, rest. unfold bytes at 2 3, of_bytes.
    rewrite list_ascii_of_string_of_list_ascii. auto.
  - left. split; [reflexivity|].
    intros pre m rest Hs. now apply (findFrom_None r (bytes s) [] E).
Qed.

Section Fields.
Context `{UnicodeTables}.

Lemma parse_IP (R : ingestor.LogEntry) :
  IP (parse R) = FindString ipRegex (ingestor.Message R).
Proof.
  unfold parse.
  match goal with
  | |- context [fold_left addKeyword ?ws ?p] =>
      destruct (parser_facts.loop_carried ws p) as (_ & _ & _ & _ & -> & _)
  end.
  destruct (String.eqb (FindString ipRegex _) "") eqn:E1;
    destruct (String.eqb (FindString errorRegex _) "") eqn:E2; simpl;
    try reflexivity; apply String.eqb_eq in E1; now rewrite E1.
Qed.

Lemma parse_ErrorCode (R : ingestor.LogEntry) :
  ErrorCode (parse R) = FindString errorRegex (ingestor.Message R).
Proof.
  unfold parse.
  match goal with
  | |- context [fold_left addKeyword ?ws ?p] =>
      destruct (parser_facts.loop_carried ws p) as (_ & _ & _ & _ & _ & ->)
  end.
  destruct (String.eqb (FindString ipRegex _) "") eqn:E1;
    destruct (String.eqb (FindString errorRegex _) "") eqn:E2; simpl;
    try reflexivity; apply String.eqb_eq in E2; now rewrite E2.
Qed.

End Fields.

Lemma standsAt_Den (r : Regex) (P : list ascii -> Prop) :
  (forall prev m rest,
     Den r prev m rest <->
     P m /\ wordBefore prev = false /\ wordAfter rest = false) ->
  forall s pre m,
  (exists rest, s = pre ++ m ++ rest /\ Den r (lastOr None pre) m rest)
  <-> P m /\ standsAt s pre m.
Proof.
  intros Hr s pre m. unfold standsAt. split.
  - intros (rest & Hs & HD). apply Hr in HD as (HP & Hb & Ha). eauto.
  - intros (HP & rest & Hs & Hb & Ha). exists rest. split; [exact Hs|].
    apply Hr. auto.
Qed.

(** The field a pattern extracts, in terms of what the pattern matches. *)
Lemma FindString_stands (r : Regex) (P : list ascii -> Prop) (s : string) :
  (forall prev m rest,
     Den r prev m rest <->
     P m /\ wordBefore prev = false /\ wordAfter rest = false) ->
  (FindString r s = ""
   /\ forall pre m, P m -> ~ standsAt (bytes s) pre m)
  \/ (P (bytes (FindString r s))
      /\ exists pre,
           standsAt (bytes s) pre (bytes (FindString r s))
           /\ forall pre' m',
                P m' -> standsAt (bytes s) pre' m' ->
                (length pre <= length pre')%nat).
Proof.
  intros Hr. destruct (FindString_spec r s) as [[He Hno]|Hyes].
  - left. split; [exact He|]. intros pre m HP (rest & Hs & Hb & Ha).
    apply (Hno pre m rest Hs). apply Hr. auto.
  - right. destruct Hyes as (pre & rest & Hs & HD & Hleft).
    apply Hr in HD as (HP & Hb & Ha). split; [exact HP|].
    exists pre. split; [exists rest; auto|].
    intros pre' m' HP' (rest' & Hs' & Hb' & Ha').
    apply (Hleft pre' m' rest' Hs'). apply Hr. auto.
Qed.

(** Two runs of word bytes that begin at the same place and are both
    followed by a non-word byte, or by the end, are the same run. *)
Lemma stands_unique (m : list ascii) : forall m' rest rest',
  Forall (fun c => isWord c = true) m ->
  Forall (fun c => isWord c = true) m' ->
  m ++ rest = m' ++ rest' ->
  wordAfter rest = false -> wordAfter rest' = false -> m = m'.
Proof.
  induction m as [|c m IH]; intros m' rest rest' HF HF' Heq Hr Hr'.
  - destruct m' as [|c' m']; [reflexivity|]. simpl in Heq. subst rest.
    apply Forall_cons in HF' as [Hc _]. simpl in Hr. congruence.
  - destruct m' as [|c' m'].
    + simpl in Heq. subst rest'. apply Forall_cons in HF as [Hc _].
      simpl in Hr'. congruence.
    + simpl in Heq. injection Heq as <- Heq.
      apply Forall_cons in HF as [_ HF]. apply Forall_cons in HF' as [_ HF'].
      f_equal. eapply IH; eauto.
Qed.

End extraction_facts.

Module extraction_claims.
Import GoStrings GoRegexp regexp_spec regexp_facts parser extraction_spec
  extraction_facts.

(** X1: the IP field of a parsed record is empty, and then no dotted quad
    stands anywhere in the message between word boundaries; or it is such a
    dotted quad of the message, one that begins at the leftmost position at
    which any begins. *)
Theorem X1_ip_is_leftmost_dotted_quad `{UnicodeTables}
    (R : ingestor.LogEntry) :
  (IP (parse R) = ""
   /\ forall pre m, dottedQuad m ->
        ~ standsAt (bytes (ingestor.Message R)) pre m)
  \/ (dottedQuad (bytes (IP (parse R)))
      /\ exists pre,
           standsAt (bytes (ingestor.Message R)) pre (bytes (IP (parse R)))
           /\ forall pre' m',
                dottedQuad m' ->
                standsAt (bytes (ingestor.Message R)) pre' m' ->
                (length pre <= length pre')%nat).
Proof.
  rewrite parse_IP. apply FindString_stands. apply Den_ipRegex.
Qed.

(** X2: the ErrorCode field of a parsed record is empty, and then none of
    ERROR, FATAL, CRITICAL or a three-digit code beginning with 4 or 5
    stands in the message between word boundaries; or it is such a token of
    the message, one that begins at the leftmost position at which any
    begins. *)
Theorem X2_error_code_is_leftmost_token `{UnicodeTables}
    (R : ingestor.LogEntry) :
  (ErrorCode (parse R) = ""
   /\ forall pre m, errorToken m ->
        ~ standsAt (bytes (ingestor.Message R)) pre m)
  \/ (errorToken (bytes (ErrorCode (parse R)))
      /\ exists pre,
           standsAt (bytes (ingestor.Message R)) pre
             (bytes (ErrorCode (parse R)))
           /\ forall pre' m',
                errorToken m' ->
                standsAt (bytes (ingestor.Message R)) pre' m' ->
                (length pre <= length pre')%nat).
Proof.
  rewrite parse_ErrorCode. apply FindString_stands. apply Den_errorRegex.
Qed.

(** A message whose first error token is a level word: the code after it
    is not what is extracted. *)
Example error_word_hides_code :
  ErrorCode (@parse parser_spec.asciiTables
               (parser_spec.entry "INFO" "api" "ERROR 503 from upstream"))
  = "ERROR".
Proof. vm_compute. reflexivity. Qed.

(** X3: the rule Error Code 5xx fires on a parsed record exactly when the
    leftmost error token of the message (a level word ERROR, FATAL or
    CRITICAL, or a three-digit code beginning with 4 or 5, between word
    boundaries) is a code 5dd. *)
Theorem X3_rule_5xx_fires_on_leftmost_token `{UnicodeTables}
    (R : ingestor.LogEntry) (rule : analyzer.Rule.t) :
  rule ∈ analyzer.defaultRules ->
  analyzer.Rule.Name rule = "Error Code 5xx" ->
  analyzer.Rule.Check rule (parse R) = true
  <-> exists pre d1 d2,
        isDigit d1 = true /\ isDigit d2 = true
        /\ standsAt (bytes (ingestor.Message R)) pre ["5"%char; d1; d2]
        /\ forall pre' m',
             errorToken m' ->
             standsAt (bytes (ingestor.Message R)) pre' m' ->
             (length pre <= length pre')%nat.
Proof.
  intros Hin Hname.
  assert (Hcheck : analyzer.Rule.Check rule (parse R)
                   = (0 <? len (ErrorCode (parse R)))
                     && analyzer.firstByteIs "5" (ErrorCode (parse R))).
  { unfold analyzer.defaultRules in Hin.
    repeat (apply elem_of_cons in Hin as [->|Hin];
            [try discriminate Hname; try reflexivity|]).
    inversion Hin. }
  rewrite Hcheck. clear Hcheck Hin Hname rule.
  rewrite parse_ErrorCode.
  destruct (FindString_stands errorRegex errorToken (ingestor.Message R)
              Den_errorRegex) as [[He Hno]|(Htok & pre & Hst & Hleft)].
  - rewrite He. split; [discriminate|].
    intros (pre & d1 & d2 & H1 & H2 & Hst & _). exfalso.
    apply (Hno pre ["5"%char; d1; d2]); [|exact Hst].
    right; right; right. exists "5"%char, d1, d2. auto.
  - split.
    + intros Hc. apply andb_true_iff in Hc as [_ Hc].
      assert (Hshape : exists d1 d2,
                bytes (FindString errorRegex (ingestor.Message R))
                = ["5"%char; d1; d2]
                /\ isDigit d1 = true /\ isDigit d2 = true).
      { destruct (FindString errorRegex (ingestor.Message R)) as [|c s];
          [discriminate Hc|].
        simpl in Hc. apply Ascii.eqb_eq in Hc as ->.
        destruct Htok as [Ht|[Ht|[Ht|(c & d1 & d2 & Ht & _ & H1 & H2)]]];
          try discriminate Ht.
        simpl in Ht. injection Ht as <- Ht. exists d1, d2.
        simpl. rewrite Ht. auto. }
      destruct Hshape as (d1 & d2 & Hb & H1 & H2). rewrite Hb in *.
      exists pre, d1, d2. auto.
    + intros (pre5 & d1 & d2 & H1 & H2 & Hst5 & Hleft5).
      assert (Htok5 : errorToken ["5"%char; d1; d2]).
      { right; right; right. exists "5"%char, d1, d2. auto. }
      pose proof (Hleft pre5 _ Htok5 Hst5) as Hle1.
      pose proof (Hleft5 pre _ Htok Hst) as Hle2.
      destruct Hst as (rest & Hs & _ & Ha), Hst5 as (rest5 & Hs5 & _ & Ha5).
      rewrite Hs in Hs5.
      apply app_inj_1 in Hs5 as [_ Hs5]; [|lia].
      assert (Hm : bytes (FindString errorRegex (ingestor.Message R))
                   = ["5"%char; d1; d2]).
      { apply (stands_unique _ _ rest rest5);
          [exact (proj1 (errorToken_word _ Htok))
          |exact (proj1 (errorToken_word _ Htok5))
          |exact Hs5|exact Ha|exact Ha5]. }
      destruct (FindString errorRegex (ingestor.Message R))
        as [|c [|c1 [|c2 [|? ?]]]]; try discriminate Hm.
      simpl in Hm. injection Hm as -> -> ->. reflexivity.
Qed.

Lemma X3_witness :
  exists pre d1 d2,
    standsAt (bytes "upstream returned 503 timeout") pre ["5"%char; d1; d2].
Proof.
  destruct (proj1 (@X3_rule_5xx_fires_on_leftmost_token
                     parser_spec.asciiTables
                     (parser_spec.entry "ERROR" "api"
                        "upstream returned 503 timeout")
                     (nth 1 analyzer.defaultRules analyzer_spec.noRule)
                     ltac:(right; left) eq_refl) eq_refl)
    as (pre & d1 & d2 & _ & _ & Hst & _).
  exists pre, d1, d2. exact Hst.
Defined.

End extraction_claims.

(** * The keywords of a record *)

Module keywords_facts.
Import GoStrings GoRegexp parser parser_spec parser_facts keywords_spec.

Lemma of_bytes_bytes (s : string) : of_bytes (bytes s) = s.
Proof. apply string_of_list_ascii_of_string. Qed.

Lemma bytes_app (a b : string) : bytes (a +:+ b) = bytes a ++ bytes b.
Proof. induction a as [|c a IH]; simpl; [reflexivity|]. now rewrite IH. Qed.

Lemma len_bytes (s : string) : len s = Z.of_nat (length (bytes s)).
Proof.
  unfold len. f_equal. induction s as [|c s IH]; simpl; [reflexivity|].
  now rewrite IH.
Qed.

Lemma lowerByte_facts (c : ascii) :
  isUpper (lowerByte c) = false
  /\ asciiSpace (lowerByte c) = asciiSpace c
  /\ (byte (lowerByte c) <? 128) = (byte c <? 128)
  /\ (isUpper c = false -> lowerByte c = c).
Proof.
  destruct c as [[] [] [] [] [] [] [] []]; repeat split; try reflexivity;
    intros Hu; try reflexivity; discriminate Hu.
Qed.

Section Keywords.
Context `{UnicodeTables}.

Lemma parse_keywords (R : ingestor.LogEntry) :
  Keywords (parse R) = keywordsTrim (ingestor.Message R).
Proof.
  unfold parse, keywordsTrim. rewrite loop_keywords.
  destruct (String.eqb (FindString errorRegex _) "");
    destruct (String.eqb (FindString ipRegex _) ""); reflexivity.
Qed.

Lemma keyword_origin (R : ingestor.LogEntry) (k : string) :
  k ∈ Keywords (parse R) <->
  3 < len k
  /\ exists tok, tok ∈ Fields (ingestor.Message R)
                 /\ k = ToLower (Trim tok cutset).
Proof.
  rewrite parse_keywords. unfold keywordsTrim.
  rewrite list_elem_of_In, filter_In, in_map_iff. split.
  - intros [(tok & <- & Hin) Hp]. apply Z.ltb_lt in Hp. split; [exact Hp|].
    exists tok. split; [now apply list_elem_of_In|reflexivity].
  - intros (Hp & tok & Hin & ->). split.
    + exists tok. split; [reflexivity|now apply list_elem_of_In].
    + now apply Z.ltb_lt.
Qed.

End Keywords.

(** The tokens of the ASCII split hold no whitespace and are not empty. *)
Lemma fieldsASCII_tokens (s : list ascii) : forall cur : list ascii,
  Forall (fun c => asciiSpace c = false) cur ->
  forall w, In w (fieldsASCII cur s) ->
  Forall (fun c => asciiSpace c = false) (bytes w) /\ bytes w <> [].
Proof.
  induction s as [|c s IH]; intros cur Hcur w Hw; simpl in Hw.
  - destruct cur as [|d cur]; [contradiction|].
    destruct Hw as [<-|[]]. rewrite bytes_of_bytes. split.
    + now apply Forall_rev.
    + simpl. intros E. now apply app_eq_nil in E as [_ E].
  - destruct (asciiSpace c) eqn:Ec.
    + destruct cur as [|d cur]; [now apply (IH [])|].
      destruct Hw as [<-|Hw]; [|now apply (IH [])].
      rewrite bytes_of_bytes. split.
      * now apply Forall_rev.
      * simpl. intros E. now apply app_eq_nil in E as [_ E].
    + apply (IH (c :: cur)); [|exact Hw]. now constructor.
Qed.

Lemma trimLeft_sublist (l : list ascii) (P : ascii -> Prop) :
  Forall P l -> Forall P (trimLeftASCII cutset l).
Proof.
  induction l as [|c l IH]; simpl; [auto|]. intros HF.
  destruct (inSet cutset c); [|exact HF].
  apply Forall_cons in HF as [_ HF]. auto.
Qed.

Lemma trimLeft_head (l : list ascii) (c : ascii) :
  head (trimLeftASCII cutset l) = Some c -> inSet cutset c = false.
Proof.
  induction l as [|d l IH]; simpl; [discriminate|].
  destruct (inSet cutset d) eqn:E; [exact IH|]. simpl. now intros [= <-].
Qed.

Lemma trimLeft_last (l : list ascii) (c : ascii) :
  (forall d, last l = Some d -> inSet cutset d = false) ->
  last (trimLeftASCII cutset l) = Some c -> inSet cutset c = false.
Proof.
  induction l as [|d l IH]; simpl; [discriminate|]. intros Hl.
  destruct (inSet cutset d) eqn:E.
  - apply IH. intros d' Hd'. apply Hl.
    destruct l as [|e l]; [discriminate|]. exact Hd'.
  - apply Hl.
Qed.

Lemma trimLeft_id (l : list ascii) :
  (forall c, head l = Some c -> inSet cutset c = false) ->
  trimLeftASCII cutset l = l.
Proof.
  destruct l as [|c l]; [reflexivity|]. simpl. intros Hh.
  now rewrite (Hh c eq_refl).
Qed.

Lemma head_rev (l : list ascii) : head (rev l) = last l.
Proof.
  induction l as [|c l IH] using rev_ind; [reflexivity|].
  now rewrite rev_app_distr, last_snoc.
Qed.

Lemma last_rev (l : list ascii) : last (rev l) = head l.
Proof. rewrite <- head_rev. now rewrite rev_involutive. Qed.

(** What [Trim] leaves of a token. *)
Lemma Trim_clean (tok : string) (P : ascii -> Prop) :
  Forall P (bytes tok) ->
  Forall P (bytes (Trim tok cutset))
  /\ (forall c, head (bytes (Trim tok cutset)) = Some c ->
        inSet cutset c = false)
  /\ (forall c, last (bytes (Trim tok cutset)) = Some c ->
        inSet cutset c = false).
Proof.
  intros HF. unfold Trim. rewrite bytes_of_bytes. split; [|split].
  - apply trimLeft_sublist. unfold trimRightASCII.
    apply Forall_rev, trimLeft_sublist, Forall_rev. exact HF.
  - intros c. apply trimLeft_head.
  - intros c. apply trimLeft_last. unfold trimRightASCII. intros d.
    rewrite last_rev. apply trimLeft_head.
Qed.

Lemma Trim_id (k : string) :
  (forall c, head (bytes k) = Some c -> inSet cutset c = false) ->
  (forall c, last (bytes k) = Some c -> inSet cutset c = false) ->
  Trim k cutset = k.
Proof.
  intros Hh Hl. unfold Trim, trimRightASCII.
  rewrite (trimLeft_id (rev (bytes k))).
  - rewrite rev_involutive, trimLeft_id by exact Hh. apply of_bytes_bytes.
  - intros c. rewrite head_rev. apply Hl.
Qed.

Lemma isASCII_Forall (s : string) :
  isASCII s = true <-> Forall (fun c => (byte c <? 128) = true) (bytes s).
Proof.
  unfold isASCII. rewrite forallb_forall, Forall_forall.
  split; intros Hall c Hc; apply Hall; now apply list_elem_of_In.
Qed.

Lemma head_map (f : ascii -> ascii) (l : list ascii) :
  head (map f l) = f <$> head l.
Proof. destruct l; reflexivity. Qed.

Lemma last_map (f : ascii -> ascii) (l : list ascii) :
  last (map f l) = f <$> last l.
Proof.
  induction l as [|c l IH] using rev_ind; [reflexivity|].
  rewrite map_app. simpl. now rewrite !last_snoc.
Qed.

(** Lowercasing an ASCII token that [Trim] has left gives a clean token. *)
Lemma lower_clean (t : string) :
  isASCII t = true ->
  Forall (fun c => asciiSpace c = false) (bytes t) ->
  (forall c, head (bytes t) = Some c -> inSet cutset c = false) ->
  (forall c, last (bytes t) = Some c -> inSet cutset c = false) ->
  forall U : UnicodeTables, clean (@ToLower U t).
Proof.
  intros Ha Hs Hh Hl U. unfold ToLower. rewrite Ha.
  unfold clean. rewrite bytes_of_bytes.
  apply isASCII_Forall in Ha. split; [|split; [|split; [|split]]].
  - apply isASCII_Forall. rewrite bytes_of_bytes. apply Forall_map.
    eapply Forall_impl; [exact Ha|]. intros c Hc. simpl.
    now rewrite (proj1 (proj2 (proj2 (lowerByte_facts c)))).
  - apply Forall_map, Forall_forall. intros c _. apply lowerByte_facts.
  - apply Forall_map. eapply Forall_impl; [exact Hs|]. intros c Hc. simpl.
    now rewrite (proj1 (proj2 (lowerByte_facts c))).
  - intros c. rewrite head_map. destruct (head (bytes t)) as [d|] eqn:E;
      [|discriminate].
    intros [= <-]. rewrite inSet_lowerByte. now apply Hh.
  - intros c. rewrite last_map. destruct (last (bytes t)) as [d|] eqn:E;
      [|discriminate].
    intros [= <-]. rewrite inSet_lowerByte. now apply Hl.
Qed.

(** On a clean token the body of the keyword loop changes nothing. *)
Lemma clean_fixed `{UnicodeTables} (k : string) :
  clean k -> ToLower (Trim k cutset) = k.
Proof.
  intros (Ha & Hu & _ & Hh & Hl). rewrite (Trim_id k Hh Hl).
  unfold ToLower. rewrite Ha. rewrite <- (of_bytes_bytes k) at 2. f_equal.
  rewrite <- (map_id (bytes k)) at 2. apply map_ext_Forall.
  eapply Forall_impl; [exact Hu|]. intros c Hc. now apply lowerByte_facts.
Qed.

Lemma fieldsASCII_word (w : list ascii) : forall cur s,
  Forall (fun c => asciiSpace c = false) w ->
  fieldsASCII cur (w ++ s) = fieldsASCII (rev w ++ cur) s.
Proof.
  induction w as [|c w IH]; intros cur s HF; simpl; [reflexivity|].
  apply Forall_cons in HF as [Hc HF]. rewrite Hc, IH by exact HF.
  now rewrite <- app_assoc.
Qed.

(** Splitting the tokens joined by single spaces gives the tokens back. *)
Lemma fields_join (ks : list string) :
  Forall (fun k => Forall (fun c => asciiSpace c = false) (bytes k)
                   /\ bytes k <> []) ks ->
  fieldsASCII [] (bytes (String.concat " " ks)) = ks.
Proof.
  induction ks as [|k ks IH]; intros HF; [reflexivity|].
  apply Forall_cons in HF as [[Hk Hne] HF].
  assert (Hrev : rev (bytes k) <> []).
  { intros E. apply Hne. now rewrite <- (rev_involutive (bytes k)), E. }
  destruct ks as [|k' ks].
  - simpl. rewrite <- (app_nil_r (bytes k)), fieldsASCII_word by exact Hk.
    simpl. rewrite app_nil_r.
    destruct (rev (bytes k)) eqn:E; [contradiction|].
    rewrite <- E, rev_involutive. now rewrite of_bytes_bytes.
  - change (String.concat " " (k :: k' :: ks))
      with (k +:+ " " +:+ String.concat " " (k' :: ks)).
    rewrite !bytes_app, fieldsASCII_word by exact Hk.
    rewrite app_nil_r. change (bytes " ") with [" "%char]. simpl app.
    simpl fieldsASCII at 1. change (asciiSpace " ") with true. cbv iota.
    destruct (rev (bytes k)) eqn:E; [contradiction|].
    rewrite <- E, rev_involutive, of_bytes_bytes. f_equal. now apply IH.
Qed.

Lemma join_ASCII (ks : list string) :
  Forall (fun k => isASCII k = true) ks ->
  isASCII (String.concat " " ks) = true.
Proof.
  induction ks as [|k ks IH]; intros HF; [reflexivity|].
  apply Forall_cons in HF as [Hk HF]. destruct ks as [|k' ks]; [exact Hk|].
  change (String.concat " " (k :: k' :: ks))
    with (k +:+ " " +:+ String.concat " " (k' :: ks)).
  apply isASCII_Forall. rewrite !bytes_app. apply Forall_app. split.
  - now apply isASCII_Forall.
  - apply Forall_app. split; [repeat constructor|].
    apply isASCII_Forall. now apply IH.
Qed.

Section Claims.
Context `{UnicodeTables}.

Lemma keyword_clean (R : ingestor.LogEntry) (k : string) :
  isASCII (ingestor.Message R) = true ->
  k ∈ Keywords (parse R) -> clean k.
Proof.
  intros Hm Hk. apply keyword_origin in Hk as (_ & tok & Hin & ->).
  unfold Fields in Hin. rewrite Hm in Hin. apply list_elem_of_In in Hin.
  pose proof (fieldsASCII_forallb _ (bytes (ingestor.Message R)) []
                eq_refl Hm tok Hin) as Ha.
  pose proof (fieldsASCII_tokens _ [] (Forall_nil_2 _) tok Hin) as [Hs _].
  change (forallb (fun c => byte c <? 128) (bytes tok) = true)
    with (isASCII tok = true) in Ha.
  apply isASCII_Forall in Ha.
  destruct (Trim_clean tok _ Ha) as (Ha' & Hh & Hl).
  destruct (Trim_clean tok _ Hs) as (Hs' & _ & _).
  apply lower_clean; auto. now apply isASCII_Forall.
Qed.

End Claims.

End keywords_facts.

Module keywords_claims.
Import GoStrings GoRegexp parser parser_spec parser_facts keywords_spec
  keywords_facts.

(** X4: a parsed record has at most one keyword per whitespace-separated
    token of its message, every keyword is longer than three bytes, and for
    an ASCII message every keyword is ASCII, holds no capital letter and no
    whitespace, and neither begins nor ends with one of the bytes
    . , ; : ! ? *)
Theorem X4_keywords_are_clean `{UnicodeTables} (R : ingestor.LogEntry) :
  (length (Keywords (parse R)) <= length (Fields (ingestor.Message R)))%nat
  /\ forall k : string,
       k ∈ Keywords (parse R) ->
       3 < len k /\ (isASCII (ingestor.Message R) = true -> clean k).
Proof.
  split.
  - rewrite parse_keywords. unfold keywordsTrim.
    etransitivity; [apply filter_length_le|]. now rewrite length_map.
  - intros k Hk. split.
    + now apply keyword_origin in Hk as [Hp _].
    + intros Hm. now apply (keyword_clean R k Hm).
Qed.

(** X5: the rule Suspicious Keywords fires on a parsed record exactly when
    some whitespace-separated token of the message, with the punctuation
    removed at both ends and lowercased, is one of attack, breach,
    unauthorized, exploit, malicious: the length filter of the keyword
    loop never hides a suspicious word. *)
Theorem X5_suspicious_rule_reads_tokens `{UnicodeTables}
    (R : ingestor.LogEntry) (rule : analyzer.Rule.t) :
  rule ∈ analyzer.defaultRules ->
  analyzer.Rule.Name rule = "Suspicious Keywords" ->
  analyzer.Rule.Check rule (parse R) = true
  <-> exists tok,
        tok ∈ Fields (ingestor.Message R)
        /\ ToLower (Trim tok cutset) ∈ analyzer.suspiciousWords.
Proof.
  intros Hin Hname.
  assert (Hcheck : analyzer.Rule.Check rule (parse R)
                   = existsb (fun kw => existsb (fun sw => String.eqb kw sw)
                                          analyzer.suspiciousWords)
                       (Keywords (parse R))).
  { unfold analyzer.defaultRules in Hin.
    repeat (apply elem_of_cons in Hin as [->|Hin];
            [try discriminate Hname; try reflexivity|]).
    inversion Hin. }
  rewrite Hcheck, existsb_exists. clear Hcheck Hin Hname rule.
  assert (Hsw : forall k,
            existsb (fun sw => String.eqb k sw) analyzer.suspiciousWords = true
            <-> k ∈ analyzer.suspiciousWords).
  { intros k. rewrite existsb_exists. split.
    - intros (sw & Hin & He). apply String.eqb_eq in He as ->.
      now apply list_elem_of_In.
    - intros Hin. exists k. split; [now apply list_elem_of_In|].
      apply String.eqb_refl. }
  split.
  - intros (k & Hk & Hs). apply list_elem_of_In, keyword_origin in Hk
      as (_ & tok & Hin & ->).
    exists tok. split; [exact Hin|now apply Hsw].
  - intros (tok & Hin & Hs). exists (ToLower (Trim tok cutset)). split.
    + apply list_elem_of_In, keyword_origin. split; [|eauto].
      unfold analyzer.suspiciousWords in Hs.
      repeat (apply elem_of_cons in Hs as [->|Hs]; [reflexivity|]).
      inversion Hs.
    + now apply Hsw.
Qed.

Lemma X5_witness :
  exists tok,
    tok ∈ @Fields asciiTables "Security breach from 10.0.0.1"
    /\ @ToLower asciiTables (Trim tok cutset) ∈ analyzer.suspiciousWords.
Proof.
  apply (proj1 (@X5_suspicious_rule_reads_tokens asciiTables (entry "FATAL" "db" "Security breach from 10.0.0.1")
                  (nth 2 analyzer.defaultRules analyzer_spec.noRule)
                  ltac:(right; right; left) eq_refl)).
  reflexivity.
Defined.

(** X6: keyword extraction is stable under re-parsing: for an ASCII
    message, the record whose message is the keywords joined by single
    spaces has the same keywords. *)
Theorem X6_keywords_stable_under_reparsing `{UnicodeTables}
    (R : ingestor.LogEntry) :
  isASCII (ingestor.Message R) = true ->
  Keywords (parse (withMessage R
                     (String.concat " " (Keywords (parse R)))))
  = Keywords (parse R).
Proof.
  intros Hm. rewrite (parse_keywords (withMessage R _)). simpl.
  assert (Hall : Forall (fun k => clean k /\ 3 < len k) (Keywords (parse R))).
  { apply Forall_forall. intros k Hk. split.
    - now apply (keyword_clean R k Hm).
    - now apply keyword_origin in Hk as [Hp _]. }
  generalize dependent (Keywords (parse R)). intros ks Hall.
  unfold keywordsTrim, Fields. rewrite join_ASCII.
  2:{ eapply Forall_impl; [exact Hall|]. now intros k [(Ha & _) _]. }
  rewrite fields_join.
  2:{ eapply Forall_impl; [exact Hall|]. intros k [(_ & _ & Hs & _) Hl].
      split; [exact Hs|]. intros E. rewrite len_bytes, E in Hl. simpl in Hl.
      lia. }
  induction ks as [|k ks IH]; [reflexivity|].
  apply Forall_cons in Hall as [[Hc Hl] Hall]. simpl.
  rewrite (clean_fixed k Hc). apply Z.ltb_lt in Hl. rewrite Hl.
  f_equal. now apply IH.
Qed.

Lemma X6_witness :
  Keywords (@parse asciiTables
              (withMessage (entry "FATAL" "db" "Security BREACH!! from 10.0.0.1:")
                 "security breach from 10.0.0.1"))
  = ["security"; "breach"; "from"; "10.0.0.1"].
Proof.
  exact (@X6_keywords_stable_under_reparsing asciiTables
           (entry "FATAL" "db" "Security BREACH!! from 10.0.0.1:") eq_refl).
Defined.

End keywords_claims.

(** * Further properties of the Bloom filter *)

Module bloom_extra.
Import GoStrings analyzer bloom_spec bloom_facts.

Lemma BloomFilter_eq (bf bf' : BloomFilter) :
  bits bf = bits bf' -> size bf = size bf' -> hashCount bf = hashCount bf' ->
  bf = bf'.
Proof. destruct bf, bf'. simpl. now intros -> -> ->. Qed.

(** Whether the loop of [Add] panics depends on the size of the filter and
    the length of its bit array only. *)
Lemma addLoop_is_Some (item : string) (seeds : list Z) :
  forall bf : BloomFilter,
  is_Some (addLoop seeds item bf) <->
  forall i, i ∈ seeds ->
    exists k, slot bf (hash item i) = Some k /\ (k < length (bits bf))%nat.
Proof.
  induction seeds as [|i seeds IH]; intros bf; simpl.
  - split; [intros _ i Hi; inversion Hi|intros _; now eexists].
  - split.
    + intros Hsome j Hj.
      destruct (slot bf (hash item i)) as [k|] eqn:Hk;
        [|destruct Hsome; discriminate].
      simpl in Hsome.
      destruct (setBit bf k) as [bf1|] eqn:Hset;
        [|destruct Hsome; discriminate].
      simpl in Hsome.
      apply setBit_inv in Hset as (Hlt & Hbits & Hsz & _).
      apply elem_of_cons in Hj as [->|Hj]; [eauto|].
      destruct (proj1 (IH bf1) Hsome j Hj) as (k' & Hk' & Hlt').
      exists k'. rewrite <- (slot_same_size bf bf1 _ Hsz). split; [exact Hk'|].
      now rewrite Hbits, length_insert in Hlt'.
    + intros Hall. destruct (Hall i) as (k & Hk & Hlt); [left|].
      rewrite Hk. simpl. unfold setBit.
      destruct (decide (k < length (bits bf))%nat); [|contradiction].
      simpl. apply IH. simpl. intros j Hj.
      destruct (Hall j) as (k' & Hk' & Hlt'); [now right|].
      exists k'. split; [exact Hk'|]. now rewrite length_insert.
Qed.

Lemma Add_is_Some_stable (bf bf' : BloomFilter) (item : string) :
  size bf' = size bf -> hashCount bf' = hashCount bf ->
  length (bits bf') = length (bits bf) ->
  is_Some (Add bf' item) <-> is_Some (Add bf item).
Proof.
  intros Hsz Hhc Hlen. unfold Add. rewrite !addLoop_is_Some, Hhc, Hlen.
  split; intros Hall i Hi; destruct (Hall i Hi) as (k & Hk & Hlt);
    exists k; split; auto.
  - now rewrite <- (slot_same_size bf bf' _ Hsz).
  - now rewrite (slot_same_size bf bf' _ Hsz).
Qed.

Lemma Add_after (bf bf1 : BloomFilter) (x y : string) :
  Add bf x = Some bf1 -> is_Some (Add bf1 y) <-> is_Some (Add bf y).
Proof.
  intros Hx. apply Add_inv in Hx as (Hsz & Hhc & Hlen & _).
  now apply Add_is_Some_stable.
Qed.

Lemma hits_same_size_l (bf bf' : BloomFilter) (item : string)
    (seeds : list Z) (n : nat) :
  size bf' = size bf ->
  hits bf' item seeds n <-> hits bf item seeds n.
Proof.
  intros Hsz. unfold hits, slot. now rewrite Hsz.
Qed.

(** Two additions in either order set the same bits. *)
Lemma Add_swap (bf bf1 bf2 bf1' bf2' : BloomFilter) (x y : string) :
  Add bf x = Some bf1 -> Add bf1 y = Some bf2 ->
  Add bf y = Some bf1' -> Add bf1' x = Some bf2' -> bf2 = bf2'.
Proof.
  intros H1 H2 H1' H2'.
  apply Add_inv in H1 as (Hsz1 & Hhc1 & Hl1 & P1).
  apply Add_inv in H2 as (Hsz2 & Hhc2 & Hl2 & P2).
  apply Add_inv in H1' as (Hsz1' & Hhc1' & Hl1' & P1').
  apply Add_inv in H2' as (Hsz2' & Hhc2' & Hl2' & P2').
  apply BloomFilter_eq; [|congruence|congruence].
  apply list_eq. intros n.
  specialize (P1 n). specialize (P2 n). specialize (P1' n). specialize (P2' n).
  rewrite Hhc1 in P2. rewrite Hhc1' in P2'.
  rewrite (hits_same_size_l bf bf1 y _ n Hsz1) in P2.
  rewrite (hits_same_size_l bf bf1' x _ n Hsz1') in P2'.
  destruct P1 as [[E1 N1]|(S1 & T1 & Y1)], P2 as [[E2 N2]|(S2 & T2 & Y2)],
      P1' as [[E1' N1']|(S1' & T1' & Y1')],
      P2' as [[E2' N2']|(S2' & T2' & Y2')];
    try contradiction; congruence.
Qed.

Lemma Add_again (bf bf1 : BloomFilter) (x : string) :
  Add bf x = Some bf1 -> Add bf1 x = Some bf1.
Proof.
  intros H1.
  destruct (proj2 (Add_after bf bf1 x x H1)) as [bf2 H2];
    [eexists; eassumption|].
  rewrite H2. f_equal.
  apply Add_inv in H1 as (Hsz1 & Hhc1 & Hl1 & P1).
  apply Add_inv in H2 as (Hsz2 & Hhc2 & Hl2 & P2).
  apply BloomFilter_eq; [|congruence|congruence].
  apply list_eq. intros n. specialize (P1 n). specialize (P2 n).
  rewrite Hhc1 in P2. rewrite (hits_same_size_l bf bf1 x _ n Hsz1) in P2.
  destruct P1 as [[E1 N1]|(S1 & T1 & Y1)], P2 as [[E2 N2]|(S2 & T2 & Y2)];
    try contradiction; congruence.
Qed.

Lemma addAll_inv (items : list string) : forall bf bf' : BloomFilter,
  addAll bf items = Some bf' ->
  size bf' = size bf /\ hashCount bf' = hashCount bf
  /\ length (bits bf') = length (bits bf).
Proof.
  induction items as [|y items IH]; intros bf bf' H; simpl in H.
  - now injection H as <-.
  - destruct (Add bf y) as [bf1|] eqn:Hy; [|discriminate]. simpl in H.
    apply Add_inv in Hy as (Hsz & Hhc & Hl & _).
    apply IH in H as (Hsz' & Hhc' & Hl'). repeat split; congruence.
Qed.

Lemma seqZ_nonpos (m n : Z) : n <= 0 -> seqZ m n = [].
Proof. intros Hn. unfold seqZ. now replace (Z.to_nat n) with 0%nat by lia. Qed.

(** X7: adding two items to a Bloom filter gives the same filter in either
    order, panics included, and adding an item a second time changes
    nothing. *)
Theorem X7_add_commutes_and_is_idempotent (bf : BloomFilter) (x y : string) :
  (Add bf x ≫= fun b => Add b y) = (Add bf y ≫= fun b => Add b x)
  /\ (Add bf x ≫= fun b => Add b x) = Add bf x.
Proof.
  split.
  - destruct (Add bf x) as [bf1|] eqn:Hx; simpl.
    + destruct (Add bf1 y) as [bf2|] eqn:Hy.
      * destruct (proj1 (Add_after bf bf1 x y Hx)) as [bf1' Hy'];
          [eexists; eassumption|].
        rewrite Hy'. simpl.
        destruct (proj2 (Add_after bf bf1' y x Hy')) as [bf2' Hx'];
          [eexists; eassumption|].
        rewrite Hx'. f_equal.
        exact (Add_swap bf bf1 bf2 bf1' bf2' x y Hx Hy Hy' Hx').
      * destruct (Add bf y) as [bf1'|] eqn:Hy'; [|reflexivity]. exfalso.
        assert (Hs : is_Some (Add bf1 y)).
        { apply (Add_after bf bf1 x y Hx). eexists; eassumption. }
        destruct Hs as [? Hs]. congruence.
    + destruct (Add bf y) as [bf1'|] eqn:Hy'; [|reflexivity]. simpl.
      destruct (Add bf1' x) as [bf2'|] eqn:Hx'; [|reflexivity]. exfalso.
      assert (Hs : is_Some (Add bf x)).
      { apply (Add_after bf bf1' y x Hy'). eexists; eassumption. }
      destruct Hs as [? Hs]. congruence.
  - destruct (Add bf x) as [bf1|] eqn:Hx; simpl; [|reflexivity].
    exact (Add_again bf bf1 x Hx).
Qed.

(** X8: the edges of the constructor's arguments. A filter of size zero
    with at least one hash function panics on the first [Add] or
    [Contains] (division by zero); a filter with no hash function contains
    every item from the start and [Add] leaves it as it is; with a positive
    size and at least one hash function a new filter contains no item and
    [Add] returns. *)
Theorem X8_new_filter_edge_sizes (sz k : Z) (x : string) :
  (sz = 0 -> 0 < k ->
   Add (NewBloomFilter sz k) x = None
   /\ Contains (NewBloomFilter sz k) x = None)
  /\ (k <= 0 ->
      Add (NewBloomFilter sz k) x = Some (NewBloomFilter sz k)
      /\ Contains (NewBloomFilter sz k) x = Some true)
  /\ (0 < sz -> 0 < k ->
      is_Some (Add (NewBloomFilter sz k) x)
      /\ Contains (NewBloomFilter sz k) x = Some false).
Proof.
  split; [|split].
  - intros -> Hk. unfold Add, Contains. simpl hashCount.
    rewrite (seqZ_cons 0 k) by lia. split; reflexivity.
  - intros Hk. unfold Add, Contains. simpl hashCount.
    rewrite seqZ_nonpos by lia. split; reflexivity.
  - intros Hsz Hk. split.
    + apply Add_total. now apply NewBloomFilter_wellFormed.
    + apply Contains_all_false; [now apply NewBloomFilter_wellFormed|exact Hk|].
      intros n Hn. simpl in *. rewrite length_replicate in Hn.
      now apply lookup_replicate_2.
Qed.

Lemma X8_witness :
  Add (NewBloomFilter 0 3) "db" = None
  /\ Contains (NewBloomFilter 8 0) "db" = Some true
  /\ Contains (NewBloomFilter 8 3) "db" = Some false.
Proof.
  split; [|split].
  - apply (X8_new_filter_edge_sizes 0 3 "db"); reflexivity.
  - apply (X8_new_filter_edge_sizes 8 0 "db"). discriminate.
  - apply (X8_new_filter_edge_sizes 8 3 "db"); reflexivity.
Defined.

(** X9: [Clear] undoes every [Add]: whatever items were added to a new
    filter, clearing it gives the new filter again. *)
Theorem X9_clear_restores_new_filter (sz k : Z) (items : list string)
    (bf : BloomFilter) :
  addAll (NewBloomFilter sz k) items = Some bf ->
  Clear bf = NewBloomFilter sz k.
Proof.
  intros Hall. apply addAll_inv in Hall as (Hsz & Hhc & Hlen).
  apply BloomFilter_eq.
  - rewrite Clear_zeroes, Hlen. simpl. now rewrite length_replicate.
  - exact Hsz.
  - exact Hhc.
Qed.

Lemma X9_witness :
  exists bf : BloomFilter,
    addAll (NewBloomFilter 64 3) ["db"; "api"] = Some bf
    /\ Contains bf "db" = Some true
    /\ Clear bf = NewBloomFilter 64 3.
Proof.
  eexists. split; [reflexivity|]. split; [reflexivity|].
  apply (X9_clear_restores_new_filter 64 3 ["db"; "api"]). reflexivity.
Defined.

End bloom_extra.

(** * Further properties of the rule engine *)

Module analyzer_extra.
Import GoStrings analyzer bloom_spec bloom_facts analyzer_spec analyzer_facts
  analyzer_extra_spec.

(** X10: two alerts of the default rules are counted under the same key
    only when they have the same rule name and the same source, whatever
    bytes the sources hold. *)
Theorem X10_keys_identify_rule_and_source (r1 r2 : Rule.t)
    (s1 s2 : string) :
  r1 ∈ defaultRules -> r2 ∈ defaultRules ->
  key (Rule.Name r1) s1 = key (Rule.Name r2) s2 ->
  Rule.Name r1 = Rule.Name r2 /\ s1 = s2.
Proof.
  unfold defaultRules. intros H1 H2 Hk.
  repeat (apply elem_of_cons in H1 as [->|H1]);
    try (now inversion H1);
    repeat (apply elem_of_cons in H2 as [->|H2]);
    try (now inversion H2);
    cbv [key String.append Rule.Name] in Hk; simplify_eq; auto.
Qed.

Lemma X10_witness :
  Rule.Name (nth 0 defaultRules noRule) = Rule.Name (nth 0 defaultRules noRule)
  /\ "db:1" = "db:1".
Proof.
  apply (X10_keys_identify_rule_and_source
           (nth 0 defaultRules noRule) (nth 0 defaultRules noRule)
           "db:1" "db:1").
  - left.
  - left.
  - reflexivity.
Defined.

Lemma fire_metadata (a a1 : Analyzer) (rule : Rule.t)
    (logEntry : parser.ParsedLog) (now : string) (al : Alert.t) :
  fire a rule logEntry now = Some (a1, al) ->
  exists (b : bool) (c : Z),
    Alert.Metadata al
    = <["is_known_pattern" := MBool b]>
        (<["count_in_window" := MInt c]>
           (<["rule_name" := MString (Alert.Reason al)]> ∅)).
Proof.
  unfold fire. intros Hfire.
  destruct (Contains (bloomFilter a) _) as [b|]; [|discriminate].
  simpl in Hfire.
  destruct (Add (bloomFilter a) _) as [bf1|]; [|discriminate].
  simpl in Hfire. injection Hfire as <- <-. simpl. eauto.
Qed.

(** The alerts of the rule loop come from rules of the list that hold on
    the record. *)
Lemma processRules_emits (logEntry : parser.ParsedLog) (env : nat -> Obs)
    (rs : list Rule.t) :
  forall (i : nat) (a a' : Analyzer) (tr : list Item),
  processRules rs i a logEntry env = Some (a', tr) ->
  rules a' = rules a
  /\ forall al s, Emit al s ∈ tr ->
       exists rule, rule ∈ rs /\ Rule.Check rule logEntry = true
                    /\ Alert.Reason al = Rule.Name rule
                    /\ Alert.Severity al = Rule.Severity rule
                    /\ Alert.Log al = logEntry.
Proof.
  induction rs as [|rule rs IH]; intros i a a' tr Hrun; simpl in Hrun.
  - injection Hrun as <- <-. split; [reflexivity|]. intros al s Hin.
    inversion Hin.
  - destruct (Rule.Check rule logEntry) eqn:Hc.
    + destruct (tickBefore_cases (env i) a) as [Ht|Ht]; rewrite Ht in Hrun.
      * destruct (fire a rule logEntry _) as [[a1 al1]|] eqn:Hf;
          [|discriminate].
        simpl in Hrun.
        apply fire_inv in Hf
          as (b & _ & _ & Hr & _ & _ & Hs & Hn & Hl & _).
        destruct (obsSelect (env i)).
        -- destruct (processRules rs (S i) a1 logEntry env)
             as [[a2 tr2]|] eqn:Hrest; [|discriminate].
           injection Hrun as <- <-. apply IH in Hrest as [Hr2 Hem].
           split; [congruence|]. intros al s Hin. simpl in Hin.
           apply elem_of_cons in Hin as [[= -> ->]|Hin].
           ++ exists rule. repeat split; auto. left.
           ++ destruct (Hem al s Hin) as (r & Hr' & Hrest').
              exists r. split; [now right|exact Hrest'].
        -- injection Hrun as <- <-. split; [exact Hr|]. intros al s Hin.
           apply list_elem_of_singleton in Hin as [= -> ->].
           exists rule. repeat split; auto. left.
      * destruct (fire (cleanupWindow a) rule logEntry _)
          as [[a1 al1]|] eqn:Hf; [|discriminate].
        simpl in Hrun.
        apply fire_inv in Hf
          as (b & _ & _ & Hr & _ & _ & Hs & Hn & Hl & _).
        change (rules (cleanupWindow a)) with (rules a) in Hr.
        destruct (obsSelect (env i)).
        -- destruct (processRules rs (S i) a1 logEntry env)
             as [[a2 tr2]|] eqn:Hrest; [|discriminate].
           injection Hrun as <- <-. apply IH in Hrest as [Hr2 Hem].
           split; [congruence|]. intros al s Hin. simpl in Hin.
           apply elem_of_cons in Hin as [Hin|Hin]; [discriminate Hin|].
           apply elem_of_cons in Hin as [[= -> ->]|Hin].
           ++ exists rule. repeat split; auto. left.
           ++ destruct (Hem al s Hin) as (r & Hr' & Hrest').
              exists r. split; [now right|exact Hrest'].
        -- injection Hrun as <- <-. split; [exact Hr|]. intros al s Hin.
           simpl in Hin.
           apply elem_of_cons in Hin as [Hin|Hin]; [discriminate Hin|].
           apply list_elem_of_singleton in Hin as [= -> ->].
           exists rule. repeat split; auto. left.
    + apply IH in Hrun as [Hr Hem]. split; [exact Hr|].
      intros al s Hin. destruct (Hem al s Hin) as (r & Hr' & Hrest').
      exists r. split; [now right|exact Hrest'].
Qed.

Lemma run_emits (evs : list Event) :
  forall (a a' : Analyzer) (tr : list Item),
  run a evs = Some (a', tr) ->
  rules a' = rules a
  /\ forall al s, Emit al s ∈ tr ->
       exists rule logEntry env,
         rule ∈ rules a /\ Recv logEntry env ∈ evs
         /\ Alert.Log al = logEntry
         /\ Rule.Check rule logEntry = true
         /\ Alert.Reason al = Rule.Name rule
         /\ Alert.Severity al = Rule.Severity rule.
Proof.
  induction evs as [|[L env|] evs IH]; intros a a' tr Hrun; simpl in Hrun.
  - injection Hrun as <- <-. split; [reflexivity|]. intros al s Hin.
    inversion Hin.
  - destruct (processLog a L env) as [[a1 tr1]|] eqn:Hp; [|discriminate].
    simpl in Hrun.
    destruct (run a1 evs) as [[a2 tr2]|] eqn:Hr; [|discriminate].
    injection Hrun as <- <-.
    apply processRules_emits in Hp as [Hr1 Hem1].
    apply IH in Hr as [Hr2 Hem2]. split; [congruence|].
    intros al s Hin. apply elem_of_app in Hin as [Hin|Hin].
    + destruct (Hem1 al s Hin) as (r & Hin' & Hc & Hn & Hs & Hl).
      exists r, L, env. repeat split; auto. left.
    + destruct (Hem2 al s Hin) as (r & L' & env' & Hin' & Hev & Hrest).
      exists r, L', env'. split; [congruence|]. split; [now right|exact Hrest].
  - destruct (run (cleanupWindow a) evs) as [[a2 tr2]|] eqn:Hr;
      [|discriminate].
    injection Hrun as <- <-. apply IH in Hr as [Hr2 Hem2].
    split; [exact Hr2|]. intros al s Hin.
    apply elem_of_cons in Hin as [Hin|Hin]; [discriminate Hin|].
    destruct (Hem2 al s Hin) as (r & L' & env' & Hin' & Hev & Hrest).
    exists r, L', env'. split; [exact Hin'|]. split; [now right|exact Hrest].
Qed.

(** Along a trace the stored counts stay between one and the number of
    items so far, and every alert has the three metadata entries. *)
Lemma follows_metadata (a a' : Analyzer) (tr : list Item) :
  follows a tr a' ->
  forall N : Z,
  0 <= N ->
  (forall K v, windowCount a !! K = Some v -> 1 <= v <= N) ->
  N + Z.of_nat (length tr) < 2 ^ 63 ->
  (forall K v, windowCount a' !! K = Some v ->
     1 <= v <= N + Z.of_nat (length tr))
  /\ forall al s, Emit al s ∈ tr ->
       wellFormedMetadata al
       /\ exists c, countInWindow al = Some (MInt c)
                    /\ 1 <= c <= N + Z.of_nat (length tr).
Proof.
  induction 1 as [a|a a' tr _ IH|a a1 a' rule L now al s tr Hfire _ IH];
    intros N HN Hinv Hbound.
  - split.
    + intros K v Hv. apply Hinv in Hv. simpl. lia.
    + intros al s Hin. inversion Hin.
  - simpl length in *.
    destruct (IH N HN) as [Hfin Hal]; [|lia|].
    { intros K v Hv. simpl in Hv. now rewrite lookup_empty in Hv. }
    split.
    + intros K v Hv. apply Hfin in Hv. lia.
    + intros al s Hin.
      apply elem_of_cons in Hin as [Hin|Hin]; [discriminate Hin|].
      destruct (Hal al s Hin) as (Hwf & c & Hc & Hb). split; [exact Hwf|].
      exists c. split; [exact Hc|lia].
  - simpl length in *.
    pose proof (fire_metadata _ _ _ _ _ _ Hfire) as (b0 & c0 & Hmeta).
    apply fire_inv in Hfire
      as (b & _ & _ & _ & Hwc & _ & _ & Hreason & _ & Hkey & Hknown & Hcount
          & Hrn).
    set (K0 := key (Rule.Name rule) (parser.Source L)) in *.
    assert (Hd : 0 <= default 0 (windowCount a !! K0) <= N).
    { destruct (windowCount a !! K0) as [v|] eqn:E; simpl; [|lia].
      apply Hinv in E. lia. }
    rewrite wrapInt_small in Hwc, Hcount by lia.
    destruct (IH (N + 1)) as [Hfin Hal]; [lia| |lia|].
    { intros K v. rewrite Hwc. destruct (decide (K0 = K)) as [->|Hne].
      - rewrite lookup_insert_eq. intros [= <-]. lia.
      - rewrite lookup_insert_ne by exact Hne. intros Hv. apply Hinv in Hv.
        lia. }
    split.
    + intros K v Hv. apply Hfin in Hv. lia.
    + intros al' s' Hin. apply elem_of_cons in Hin as [[= -> ->]|Hin].
      * split.
        -- unfold wellFormedMetadata. split; [|split].
           ++ rewrite Hmeta, !dom_insert_L, dom_empty_L. set_solver.
           ++ now rewrite Hrn, Hreason.
           ++ eauto.
        -- eexists. split; [exact Hcount|]. lia.
      * destruct (Hal al' s' Hin) as (Hwf & c & Hc & Hb). split; [exact Hwf|].
        exists c. split; [exact Hc|lia].
Qed.

(** The trace of the run [repeated]. *)
Lemma repeated_trace :
  exists (a' : Analyzer) (al1 al2 : Alert.t),
    run NewAnalyzer repeated = Some (a', [Emit al1 Sent; Emit al2 Sent]).
Proof.
  pose proof analyzer_claims.repeated_summary as Hsum.
  destruct (run NewAnalyzer repeated) as [[a' tr]|] eqn:Hrun;
    [|discriminate Hsum].
  destruct tr as [|[|al1 s1] [|[|al2 s2] [|? ?]]]; try discriminate Hsum.
  simpl in Hsum. injection Hsum as _ _ _ -> _ _ _ ->.
  exists a', al1, al2. reflexivity.
Qed.

(** X11: no sequence of records and ticks makes a fresh analyzer panic;
    the run leaves the rule list and the dimensions of the filter as
    [NewAnalyzer] set them, and every alert it produces, enqueued or
    abandoned, carries a record that was received, on which a default rule
    holds whose name and severity the alert has. *)
Theorem X11_run_returns_and_alerts_come_from_rules (evs : list Event) :
  exists (a' : Analyzer) (tr : list Item),
    run NewAnalyzer evs = Some (a', tr)
    /\ rules a' = defaultRules
    /\ size (bloomFilter a') = 100000
    /\ hashCount (bloomFilter a') = 3
    /\ Z.of_nat (length (bits (bloomFilter a'))) = 100000
    /\ forall (al : Alert.t) (s : Select),
         Emit al s ∈ tr ->
         exists (rule : Rule.t) (env : nat -> Obs),
           rule ∈ defaultRules
           /\ Recv (Alert.Log al) env ∈ evs
           /\ Rule.Check rule (Alert.Log al) = true
           /\ Alert.Reason al = Rule.Name rule
           /\ Alert.Severity al = Rule.Severity rule.
Proof.
  destruct (run_total evs NewAnalyzer NewAnalyzer_wf) as [[a' tr] Hrun].
  exists a', tr. split; [exact Hrun|].
  pose proof (run_emits _ _ _ _ Hrun) as [Hrules Hem].
  pose proof (follows_bloom _ _ _ (run_follows _ _ _ _ Hrun))
    as (Hsize & Hcount & Hlen & _).
  split; [exact Hrules|]. split; [exact Hsize|]. split; [exact Hcount|].
  split; [rewrite Hlen; reflexivity|].
  intros al s Hin.
  destruct (Hem al s Hin) as (rule & L & env & Hr & Hev & <- & Hc & Hn & Hs).
  exists rule, env. auto.
Qed.

(** X12: every alert of a run of a fresh analyzer (of fewer than 2^63
    items) has exactly the metadata entries is_known_pattern,
    count_in_window and rule_name; rule_name is the reason of the alert,
    the flag is a boolean, and the count is an integer between one and the
    number of items of the run. *)
Theorem X12_alert_metadata (evs : list Event) (a' : Analyzer)
    (tr : list Item) (al : Alert.t) (s : Select) :
  run NewAnalyzer evs = Some (a', tr) ->
  Z.of_nat (length tr) < 2 ^ 63 ->
  Emit al s ∈ tr ->
  wellFormedMetadata al
  /\ exists c : Z, countInWindow al = Some (MInt c)
                   /\ 1 <= c <= Z.of_nat (length tr).
Proof.
  intros Hrun Hlen Hin. apply run_follows in Hrun.
  destruct (follows_metadata _ _ _ Hrun 0) as [_ Hal]; [lia| |lia|].
  { intros K v Hv. change (windowCount NewAnalyzer) with (∅ : gmap string Z) in Hv.
    now rewrite lookup_empty in Hv. }
  destruct (Hal al s Hin) as (Hwf & c & Hc & Hb). split; [exact Hwf|].
  exists c. split; [exact Hc|lia].
Qed.

Lemma X12_witness :
  exists (a' : Analyzer) (al1 al2 : Alert.t),
    run NewAnalyzer repeated = Some (a', [Emit al1 Sent; Emit al2 Sent])
    /\ wellFormedMetadata al2
    /\ exists c : Z, countInWindow al2 = Some (MInt c) /\ 1 <= c <= 2.
Proof.
  destruct repeated_trace as (a' & al1 & al2 & Hrun).
  exists a', al1, al2. split; [exact Hrun|].
  apply (X12_alert_metadata repeated a' [Emit al1 Sent; Emit al2 Sent] al2 Sent
           Hrun).
  - simpl. lia.
  - right. left.
Defined.

Lemma produced_app (t1 t2 : list Item) :
  produced (t1 ++ t2) = produced t1 ++ produced t2.
Proof.
  induction t1 as [|[|al s] t1 IH]; simpl; [reflexivity|exact IH|].
  now rewrite IH.
Qed.

Lemma tickBefore_produced (o : Obs) (a : Analyzer) :
  produced (tickBefore o a).2 = [].
Proof. unfold tickBefore. now destruct (obsReset o). Qed.

(** The rule loop produces at most one alert per rule that holds, and
    none exactly when it leaves the state alone. *)
Lemma processRules_produced (logEntry : parser.ParsedLog) (env : nat -> Obs)
    (rs : list Rule.t) :
  forall (i : nat) (a a' : Analyzer) (tr : list Item),
  processRules rs i a logEntry env = Some (a', tr) ->
  (length (produced tr) <= length (firing rs logEntry))%nat
  /\ (firing rs logEntry = [] -> a' = a /\ tr = [])
  /\ (produced tr = [] -> firing rs logEntry = []).
Proof.
  induction rs as [|rule rs IH]; intros i a a' tr Hrun; simpl in Hrun.
  - injection Hrun as <- <-. simpl. auto.
  - unfold firing. simpl. destruct (Rule.Check rule logEntry) eqn:Hc.
    + pose proof (tickBefore_produced (env i) a) as Hpre.
      destruct (tickBefore (env i) a) as [a0 pre]. simpl in Hpre.
      destruct (fire a0 rule logEntry _) as [[a1 al1]|]; [|discriminate].
      simpl in Hrun. destruct (obsSelect (env i)).
      * destruct (processRules rs (S i) a1 logEntry env)
          as [[a2 tr2]|] eqn:Hrest; [|discriminate].
        injection Hrun as <- <-. apply IH in Hrest as (Hle & _ & _).
        rewrite produced_app, Hpre. simpl.
        split; [unfold firing in Hle; lia|]. split; discriminate.
      * injection Hrun as <- <-. rewrite produced_app, Hpre. simpl.
        split; [lia|]. split; discriminate.
    + apply IH in Hrun. exact Hrun.
Qed.

(** X13: the default rules Critical Error Level and Error Rate Threshold
    never hold on the same record, so a record makes at most three of the
    four default rules fire and [processLog] produces at most three alerts
    for it; when no rule holds it produces none and leaves the filter and
    the counters as they were, and only then is its trace free of alerts. *)
Theorem X13_at_most_three_alerts_per_record (a a' : Analyzer)
    (logEntry : parser.ParsedLog) (env : nat -> Obs) (tr : list Item) :
  rules a = defaultRules ->
  processLog a logEntry env = Some (a', tr) ->
  (length (produced tr) <= 3)%nat
  /\ (produced tr = [] <-> firing defaultRules logEntry = [])
  /\ (firing defaultRules logEntry = [] -> a' = a /\ tr = [])
  /\ ~ (exists r1 r4 : Rule.t,
          r1 ∈ firing defaultRules logEntry
          /\ r4 ∈ firing defaultRules logEntry
          /\ Rule.Name r1 = "Critical Error Level"
          /\ Rule.Name r4 = "Error Rate Threshold").
Proof.
  unfold processLog. intros Hrules Hrun. rewrite Hrules in Hrun.
  apply processRules_produced in Hrun as (Hle & Hnone & Hsome).
  assert (Hexcl : ~ (exists r1 r4 : Rule.t,
            r1 ∈ firing defaultRules logEntry
            /\ r4 ∈ firing defaultRules logEntry
            /\ Rule.Name r1 = "Critical Error Level"
            /\ Rule.Name r4 = "Error Rate Threshold")).
  { intros (r1 & r4 & H1 & H4 & Hn1 & Hn4). unfold firing in H1, H4.
    apply list_elem_of_In, filter_In in H1 as [H1 Hc1].
    apply list_elem_of_In, filter_In in H4 as [H4 Hc4].
    apply list_elem_of_In in H1, H4. unfold defaultRules in H1, H4.
    repeat (apply elem_of_cons in H1 as [->|H1]); try (now inversion H1);
      try discriminate Hn1.
    repeat (apply elem_of_cons in H4 as [->|H4]); try (now inversion H4);
      try discriminate Hn4.
    simpl in Hc1, Hc4. apply String.eqb_eq in Hc4. rewrite Hc4 in Hc1. discriminate Hc1. }
  split; [|split; [|split]].
  - assert (Hthree : (length (firing defaultRules logEntry) <= 3)%nat);
      [|lia].
    unfold firing, defaultRules. simpl.
    destruct (String.eqb (parser.Level logEntry) "ERROR") eqn:E.
    + apply String.eqb_eq in E. rewrite E. simpl.
      repeat (match goal with |- context [if ?c then _ else _] =>
                destruct c end); simpl; lia.
    + repeat (match goal with |- context [if ?c then _ else _] =>
                destruct c end); simpl; lia.
  - split; [exact Hsome|]. intros Hf. now destruct (Hnone Hf) as [_ ->].
  - exact Hnone.
  - exact Hexcl.
Qed.

Lemma X13_witness :
  exists (a' : Analyzer) (tr : list Item),
    processLog NewAnalyzer scenarioParsed (quiet "t") = Some (a', tr)
    /\ (length (produced tr) <= 3)%nat.
Proof.
  destruct (processRules_total scenarioParsed (quiet "t") defaultRules 0%nat
              NewAnalyzer NewAnalyzer_wf) as [[a' tr] Hrun].
  exists a', tr. split; [exact Hrun|].
  exact (proj1 (X13_at_most_three_alerts_per_record NewAnalyzer a'
                  scenarioParsed (quiet "t") tr eq_refl Hrun)).
Defined.

End analyzer_extra.

(** * The loops of the pipeline *)

Module loops_facts.
Import GoStrings analyzer loops_spec.

Section Worker.
Context `{UnicodeTables}.
Import parser_worker.

Lemma worker_forwards (turns : list Turn) :
  (worker turns).1
  = map parser.parse (take (length (worker turns).1) (taken turns))
  /\ (length (taken turns) <= S (length (worker turns).1))%nat
  /\ (length (taken turns) = S (length (worker turns).1) ->
      (worker turns).2 = true)
  /\ ((forall entry s, Received entry s ∈ turns -> s = Sent) ->
      (worker turns).1 = map parser.parse (taken turns)).
Proof.
  induction turns as [|[entry [|]| |] rest IH]; simpl.
  - split; [reflexivity|]. split; [lia|]. split; [discriminate|reflexivity].
  - destruct (worker rest) as [out returned] eqn:Hw. simpl in *.
    destruct IH as (Hout & Hlen & Hdone & Hall).
    split; [now rewrite <- Hout|]. split; [lia|].
    split; [intros Hl; apply Hdone; lia|].
    intros Hs. rewrite Hall; [reflexivity|].
    intros e s Hin. apply (Hs e s). now right.
  - split; [reflexivity|]. split; [lia|]. split; [reflexivity|].
    intros Hs. specialize (Hs entry Shutdown ltac:(left)). discriminate Hs.
  - split; [reflexivity|]. split; [lia|]. split; [discriminate|reflexivity].
  - split; [reflexivity|]. split; [lia|]. split; [discriminate|reflexivity].
Qed.

Lemma worker_sent (turns : list Turn) (L : parser.ParsedLog) :
  L ∈ (worker turns).1 ->
  exists entry, entry ∈ taken turns /\ L = parser.parse entry.
Proof.
  destruct (worker_forwards turns) as (Hout & _). rewrite Hout.
  intros Hin. apply list_elem_of_fmap in Hin as (entry & -> & Hin).
  exists entry. split; [|reflexivity].
  now apply (subseteq_take (length (worker turns).1)).
Qed.

End Worker.

Section Handlers.
Import ingestor_handlers.
Variable Unmarshal : string -> ingestor.LogEntry + string.

Lemma scanLoop_all_sent (lines : list (string * Select)) :
  (forall line s, (line, s) ∈ lines -> s = Sent) ->
  scanLoop Unmarshal lines
  = (decoded Unmarshal lines.*1, rejected Unmarshal lines.*1, false).
Proof.
  induction lines as [|[line s] rest IH]; intros Hs; [reflexivity|].
  simpl. unfold decoded, rejected in *. simpl.
  rewrite IH by (intros l s' Hin; apply (Hs l s'); now right).
  destruct (Unmarshal line) as [entry|err]; [|reflexivity].
  now rewrite (Hs line s ltac:(left)).
Qed.



End Handlers.

Section Alerter.
Import alerter.
Variable MarshalIndent : Alert.t -> string + string.

Lemma Repeat_dashes :
  Repeat "-" 80
  = "--------------------------------------------------------------------------------".
Proof. reflexivity. Qed.

Lemma append_assoc (s1 s2 s3 : string) :
  (s1 +:+ s2) +:+ s3 = s1 +:+ (s2 +:+ s3).
Proof.
  induction s1 as [|c s1 IH]; [reflexivity|].
  change (String c ((s1 +:+ s2) +:+ s3) = String c (s1 +:+ (s2 +:+ s3))).
  now rewrite IH.
Qed.

Lemma content_app (w1 w2 : list string) :
  content (w1 ++ w2) = content w1 +:+ content w2.
Proof.
  unfold content. induction w1 as [|w w1 IH]; simpl; [reflexivity|].
  rewrite IH. symmetry. apply append_assoc.
Qed.

Lemma processAlerts_returned (turns : list Turn) : forall a : Alerter,
  (processAlerts MarshalIndent turns a).2 = true
  <-> Closed ∈ turns \/ Stopped ∈ turns.
Proof.
  induction turns as [|[al| |] rest IH]; intros a; simpl.
  - split; [discriminate|]. intros [Hin|Hin]; inversion Hin.
  - rewrite IH. split.
    + intros [Hin|Hin]; [left|right]; now right.
    + intros [Hin|Hin]; apply elem_of_cons in Hin as [Hin|Hin];
        try discriminate Hin; auto.
  - split; [|reflexivity]. intros _. left. left.
  - split; [|reflexivity]. intros _. right. left.
Qed.

Lemma processAlerts_spec (turns : list Turn) : forall a : Alerter,
  let r := processAlerts MarshalIndent turns a in
  let docs := documents MarshalIndent (handled turns) in
  outputFile r.1 = outputFile a
  /\ file r.1
     = match file a with
       | Some writes => Some (writes ++ flat_map (fun d => [d.2; nl]) docs)
       | None => None
       end
  /\ stdout r.1 = stdout a ++ flat_map printed docs
  /\ logged r.1 = logged a ++ failures MarshalIndent (handled turns)
  /\ launched r.1 = launched a
  /\ wg r.1 = (if r.2 then wg a - 1 else wg a).
Proof.
  assert (Hstop : forall a : Alerter,
    outputFile a = outputFile a
    /\ file a = match file a with
                | Some writes => Some (writes ++ [])
                | None => None
                end
    /\ stdout a = stdout a ++ []
    /\ logged a = logged a ++ []
    /\ launched a = launched a).
  { intros a. destruct (file a); rewrite !app_nil_r; auto. }
  induction turns as [|[al| |] rest IH]; intros a; simpl.
  - destruct (Hstop a) as (? & ? & ? & ? & ?). repeat split; assumption.
  - destruct (IH (outputAlert MarshalIndent a al))
      as (Hof & Hf & Hso & Hl & Hla & Hwg).
    rewrite Hof, Hf, Hso, Hl, Hla, Hwg. unfold documents, failures.
    simpl. unfold outputAlert.
    destruct (MarshalIndent al) as [js|err]; simpl.
    + split; [reflexivity|]. split.
      { destruct (file a); [|reflexivity]. now rewrite <- app_assoc. }
      split; [now rewrite <- app_assoc|].
      split; [reflexivity|]. split; reflexivity.
    + split; [reflexivity|]. split; [reflexivity|]. split; [reflexivity|].
      split; [now rewrite <- app_assoc|].
      split; reflexivity.
  - destruct (Hstop a) as (? & ? & ? & ? & ?). repeat split; assumption.
  - destruct (Hstop a) as (? & ? & ? & ? & ?). repeat split; assumption.
Qed.

End Alerter.

Lemma enqueued_Emit (tr : list Item) (al : Alert.t) :
  al ∈ enqueued tr -> Emit al Sent ∈ tr.
Proof.
  induction tr as [|[|al' [|]] tr IH]; simpl; intros Hin.
  - inversion Hin.
  - right. now apply IH.
  - apply elem_of_cons in Hin as [->|Hin]; [left|right; now apply IH].
  - right. now apply IH.
Qed.

Lemma documents_inv (MarshalIndent : Alert.t -> string + string)
    (alerts : list Alert.t) (d : Alert.t * string) :
  d ∈ documents MarshalIndent alerts ->
  d.1 ∈ alerts /\ MarshalIndent d.1 = inl d.2.
Proof.
  unfold documents. intros Hin.
  apply list_elem_of_omap in Hin as (al & Hal & Hd).
  destruct (MarshalIndent al) as [js|err] eqn:Hm; [|discriminate].
  injection Hd as <-. simpl. auto.
Qed.

End loops_facts.

Module loops_claims.
Import GoStrings analyzer analyzer_spec loops_spec loops_facts.

Section Worker.
Context `{UnicodeTables}.
Import parser_worker.

(** X14: a parser worker sends the parse of the entries it has received,
    in the order received, without duplicates; at most one received entry
    is not forwarded, namely the one in hand when the send observes the
    shutdown, after which the worker has returned; when no send observes
    the shutdown every received entry is forwarded. *)
Theorem X14_worker_forwards_in_order (turns : list Turn) :
  (worker turns).1
  = map parser.parse (take (length (worker turns).1) (taken turns))
  /\ (length (taken turns) <= S (length (worker turns).1))%nat
  /\ (length (taken turns) = S (length (worker turns).1) ->
      (worker turns).2 = true)
  /\ ((forall entry s, Received entry s ∈ turns -> s = Sent) ->
      (worker turns).1 = map parser.parse (taken turns)).
Proof. exact (worker_forwards turns). Qed.

End Worker.

Section Handlers.
Import ingestor_handlers.



End Handlers.

Section Alerter.
Import alerter.

(** X17: [Start] of a new alerter fails exactly when a non-empty output
    path cannot be opened; it then returns the wrapped error and launches
    nothing. Otherwise, whatever alerts [processAlerts] receives until the
    channel is closed or the shutdown observed, the file gets for each
    alert that can be serialised, in order, one [Write] of its document and
    one of a newline (and no file is written when the path is empty), the
    standard output gets the banner, the document and the separator line,
    and each alert that cannot be serialised is logged and skipped. *)
Theorem X17_alerter_writes_one_document_per_alert
    (OpenFile : string -> error)
    (MarshalIndent : Alert.t -> string + string)
    (path : string) (turns : list Turn) :
  match Start OpenFile (NewAlerter path) with
  | (a1, None) =>
      (path = "" \/ OpenFile path = None)
      /\ launched a1 = 1%nat /\ wg a1 = 1
      /\ let a2 := (processAlerts MarshalIndent turns a1).1 in
         let docs := documents MarshalIndent (handled turns) in
         file a2 = (if String.eqb path "" then None
                    else Some (flat_map (fun d => [d.2; nl]) docs))
         /\ stdout a2 = flat_map printed docs
         /\ logged a2
            = "Alerter started" :: failures MarshalIndent (handled turns)
  | (a1, Some e) =>
      path <> ""
      /\ (exists err, OpenFile path = Some err
                      /\ e = "failed to open output file: " +:+ err)
      /\ a1 = NewAlerter path
  end.
Proof.
  unfold Start, NewAlerter. simpl.
  destruct (String.eqb path "") eqn:Hp.
  - apply String.eqb_eq in Hp. split; [now left|].
    split; [reflexivity|]. split; [reflexivity|].
    match goal with |- context [processAlerts _ _ ?a] =>
      destruct (processAlerts_spec MarshalIndent turns a)
        as (_ & Hf & Hso & Hl & _) end.
    simpl in *. auto.
  - apply String.eqb_neq in Hp. destruct (OpenFile path) as [err|] eqn:Ho.
    + split; [exact Hp|]. split; [|reflexivity]. now exists err.
    + split; [now right|]. split; [reflexivity|]. split; [reflexivity|].
      match goal with |- context [processAlerts _ _ ?a] =>
        destruct (processAlerts_spec MarshalIndent turns a)
          as (_ & Hf & Hso & Hl & _) end.
      simpl in *. auto.
Qed.

End Alerter.

Section Pipeline.
Context `{UnicodeTables}.

(** X18: wired as in [main] (the analyzer receives only records that
    parser workers sent, the alerter only alerts that the analyzer
    enqueued), every [Write] on the alert file is a newline or the document
    of an alert whose record is the parse of an entry some worker received
    and on which a default rule holds, the alert carrying that rule's name
    and severity. *)
Theorem X18_written_alerts_trace_back_to_entries
    (workers : list (list parser_worker.Turn)) (evs : list Event)
    (a' : Analyzer) (tr : list Item)
    (MarshalIndent : Alert.t -> string + string)
    (turns : list alerter.Turn) (a1 : alerter.Alerter)
    (writes : list string) :
  (forall L env, Recv L env ∈ evs ->
     exists w, w ∈ workers /\ L ∈ (parser_worker.worker w).1) ->
  run NewAnalyzer evs = Some (a', tr) ->
  (forall al, al ∈ handled turns -> al ∈ enqueued tr) ->
  alerter.file a1 = Some [] ->
  alerter.file (alerter.processAlerts MarshalIndent turns a1).1
  = Some writes ->
  forall js, js ∈ writes ->
    js = alerter.nl
    \/ exists (al : Alert.t) (w : list parser_worker.Turn)
          (entry : ingestor.LogEntry) (rule : Rule.t),
          MarshalIndent al = inl js
          /\ w ∈ workers /\ entry ∈ taken w
          /\ Alert.Log al = parser.parse entry
          /\ rule ∈ defaultRules
          /\ Rule.Check rule (parser.parse entry) = true
          /\ Alert.Reason al = Rule.Name rule
          /\ Alert.Severity al = Rule.Severity rule.
Proof.
  intros Hparse Hrun Halert Hopen Hfile js Hjs.
  destruct (processAlerts_spec MarshalIndent turns a1) as (_ & Hf & _).
  rewrite Hopen, Hfile in Hf. injection Hf as ->. simpl in Hjs.
  apply list_elem_of_In, in_flat_map in Hjs as (d & Hd & Hjs).
  apply list_elem_of_In in Hd, Hjs.
  apply elem_of_cons in Hjs as [->|Hjs];
    [|apply list_elem_of_singleton in Hjs; now left].
  right. apply documents_inv in Hd as [Hd Hm].
  apply Halert, enqueued_Emit in Hd.
  destruct (analyzer_extra.run_emits _ _ _ _ Hrun) as [_ Hem].
  destruct (Hem _ _ Hd) as (rule & L & env & Hr & Hev & HL & Hc & Hn & Hs).
  destruct (Hparse L env Hev) as (w & Hw & Hsent).
  apply worker_sent in Hsent as (entry & Hentry & ->).
  exists d.1, w, entry, rule. rewrite HL. auto 10.
Qed.

End Pipeline.

Lemma X18_witness :
  exists (a' : Analyzer) (tr : list Item),
    run NewAnalyzer
      [Recv (@parser.parse parser_spec.asciiTables scenario) (quiet "t")]
    = Some (a', tr)
    /\ forall js,
         js ∈ flat_map (fun al => [Alert.Reason al; alerter.nl])
                (enqueued tr) ->
         js = alerter.nl
         \/ exists al, Alert.Reason al = js
              /\ Alert.Log al = @parser.parse parser_spec.asciiTables scenario.
Proof.
  destruct (analyzer_facts.run_total
              [Recv (@parser.parse parser_spec.asciiTables scenario)
                 (quiet "t")] NewAnalyzer analyzer_facts.NewAnalyzer_wf)
    as [[a' tr] Hrun].
  exists a', tr. split; [exact Hrun|].
  pose (M := fun al : Alert.t => inl (Alert.Reason al) : string + string).
  pose (a1 := {| alerter.outputFile := "alerts.json";
                 alerter.file := Some [];
                 alerter.stdout := []; alerter.logged := [];
                 alerter.wg := 1; alerter.launched := 1 |}).
  assert (Hh : forall l, handled (map alerter.Received l) = l).
  { induction l as [|al l IH]; simpl; [reflexivity|]. rewrite IH.
    reflexivity. }
  assert (Hdocs : forall l,
            flat_map (fun d : Alert.t * string => [d.2; alerter.nl])
              (documents M l)
            = flat_map (fun al => [Alert.Reason al; alerter.nl]) l).
  { induction l as [|al l IH]; simpl; [reflexivity|]. rewrite <- IH.
    reflexivity. }
  pose proof (processAlerts_spec M (map alerter.Received (enqueued tr)) a1)
    as (_ & Hf & _).
  rewrite Hh, Hdocs in Hf.
  intros js Hjs.
  assert (Hwork : forall L env,
            Recv L env
            ∈ [Recv (@parser.parse parser_spec.asciiTables scenario)
                 (quiet "t")] ->
            exists w, w ∈ [[parser_worker.Received scenario Sent]]
                      /\ L ∈ (@parser_worker.worker parser_spec.asciiTables
                                w).1).
  { intros L env Hin. apply list_elem_of_singleton in Hin.
    injection Hin as HL _. rewrite HL.
    exists [parser_worker.Received scenario Sent]. split; left. }
  assert (Hchan : forall al,
            al ∈ handled (map alerter.Received (enqueued tr)) ->
            al ∈ enqueued tr).
  { intros al Hin. rewrite Hh in Hin. exact Hin. }
  destruct (@X18_written_alerts_trace_back_to_entries parser_spec.asciiTables
              [[parser_worker.Received scenario Sent]] _ a' tr M
              (map alerter.Received (enqueued tr)) a1 _
              Hwork Hrun Hchan eq_refl Hf js Hjs)
    as [Hnl|(al & w & entry & rule & Hm & Hw & Hentry & Hlog & _)].
  - left. exact Hnl.
  - right. exists al. injection Hm as Hm. split; [exact Hm|].
    apply list_elem_of_singleton in Hw. rewrite Hw in Hentry.
    apply list_elem_of_singleton in Hentry. rewrite <- Hentry. exact Hlog.
Defined.

End loops_claims.
